(** * rexpro-python: the connection pool and the connection life cycle

    A shallow embedding of [rexpro/connectors/base.py]: the pool
    ([RexProBaseConnectionPool]) and the connection
    ([RexProBaseConnection]) with its retry loop, endpoint blacklists and
    transaction bracket.

    The Python objects are records, the methods are functions in a state and
    exception monad over the object and the outside world.  The world (socket
    layer, server, random generator) is an oracle [Env]; every effect the code
    has on it, and every method entry, is appended to a trace. *)

From Stdlib Require Import ZArith String.
From stdpp Require Import base gmap sets list strings.

Open Scope string_scope.
Open Scope list_scope.

(** ** Python values *)

(** The values a configuration field can hold: [None], an integer, a string,
    or a list of those (a candidate list). *)
Inductive atom :=
| PNone
| PInt (z : Z)
| PStr (s : string).

Inductive pyval :=
| Atom (a : atom)
| PyList (l : list atom).

#[global] Instance atom_eq_dec : EqDecision atom.
Proof. solve_decision. Defined.

#[global] Instance atom_countable : Countable atom.
Proof.
  refine (inj_countable'
    (fun a => match a with
              | PNone => inl tt
              | PInt z => inr (inl z)
              | PStr s => inr (inr s)
              end)
    (fun x => match x with
              | inl _ => PNone
              | inr (inl z) => PInt z
              | inr (inr s) => PStr s
              end) _).
  by intros [].
Defined.

#[global] Instance pyval_eq_dec : EqDecision pyval.
Proof. solve_decision. Defined.

(** Truth value of an object: [None], [0], the empty string and the empty
    list are false. *)
Definition truthy (v : pyval) : bool :=
  match v with
  | Atom PNone => false
  | Atom (PInt z) => negb (z =? 0)%Z
  | Atom (PStr s) => negb (String.eqb s "")
  | PyList l => match l with [] => false | _ => true end
  end.

(** [a or b] *)
Definition py_or (a b : pyval) : pyval := if truthy a then a else b.

(** [len(v)]: defined on strings and lists, a [TypeError] otherwise. *)
Definition py_len (v : pyval) : option nat :=
  match v with
  | Atom (PStr s) => Some (String.length s)
  | PyList l => Some (length l)
  | Atom PNone | Atom (PInt _) => None
  end.

(** ** Exceptions *)

(** Every kind below derives from [Exception].  The message of a
    [RexProConnectionException] is kept as its format string and arguments. *)
Inductive exn :=
| RexProConnectionException (fmt : string) (args : list pyval)
| RexProScriptException (msg : string)
| RexProInvalidSessionException
| SocketError
| TypeError
| IndexError
| AttributeError
| OtherException (name : string).

Inductive res (A : Type) :=
| Ret (a : A)
| Raise (e : exn).
Arguments Ret {A} a.
Arguments Raise {A} e.

(** ** Messages *)

Definition Sock := nat.
Definition Key := string.

(** A keyword argument that a call site may leave out. *)
Abbreviation kwarg := option (only parsing).

Inductive Request :=
| SessionRequest (username password : kwarg pyval) (graph_name : pyval)
                 (session_key : kwarg (option Key)) (kill_session : kwarg bool)
| ScriptRequest (script : string) (params : list (string * pyval))
                (session_key : option Key) (isolate in_transaction : bool).

(** Modelled from the spec: [rexpro.messages] is not part of the sources.  A
    response is an error, which [raise_exception] turns into a fault, a
    session response carrying a [session_key], or a script response carrying
    the decoded [results]. *)
Inductive Response :=
| ErrorResponse (e : exn)
| SessionResponse (session_key : Key)
| ScriptResponse (results : list pyval).

(** ** The outside world *)

(** One request/response exchange: the send raises, the receive raises, or a
    response arrives. *)
Inductive reply :=
| SendFails (e : exn)
| RecvFails (e : exn)
| Received (r : Response).

Record Env := {
  connect_at : nat -> option exn;          (* the n-th [connect]: [Some e] raises e *)
  reply_at : nat -> reply;                 (* the n-th exchange *)
  choice_at : nat -> nat;                  (* the n-th [random.choice] *)
  select_at : nat -> exn + (bool * bool);  (* the n-th [_select]: readable, writeable non-empty *)
  teardown_at : nat -> option exn          (* the n-th [shutdown] or socket [close] *)
}.

Inductive method :=
| MOpen (soft : bool)
| MClose (soft : bool)
| MConnectionFailed
| MExecute
| MOpenTransaction
| MCloseTransaction (success : bool)
| MTestConnection.

(** The two parts of an endpoint, each drawn on its own. *)
Inductive endpoint :=
| Host
| Port.

Inductive event :=
| EvCall (self : option Sock) (m : method)
| EvSocket (s : Sock)
| EvSetTimeout (s : Sock) (t : pyval)
| EvDraw (part : endpoint) (candidates : list atom) (blacklist : gset atom)
         (pick : option atom)
| EvConnect (s : Sock) (host port : pyval)
| EvShutdown (s : Sock)
| EvSockClose (s : Sock)
| EvSend (s : Sock) (m : Request).

Record World := {
  next_sock : nat;
  n_connect : nat;
  n_exchange : nat;
  n_choice : nat;
  n_select : nat;
  n_teardown : nat;
  trace : list event
}.

Definition world0 : World :=
  {| next_sock := 0; n_connect := 0; n_exchange := 0; n_choice := 0;
     n_select := 0; n_teardown := 0; trace := [] |}.

Definition log (ev : event) (w : World) : World :=
  {| next_sock := next_sock w; n_connect := n_connect w;
     n_exchange := n_exchange w; n_choice := n_choice w;
     n_select := n_select w; n_teardown := n_teardown w;
     trace := trace w ++ [ev] |}.

Definition tick_sock (w : World) : World :=
  {| next_sock := S (next_sock w); n_connect := n_connect w;
     n_exchange := n_exchange w; n_choice := n_choice w;
     n_select := n_select w; n_teardown := n_teardown w; trace := trace w |}.

Definition tick_connect (w : World) : World :=
  {| next_sock := next_sock w; n_connect := S (n_connect w);
     n_exchange := n_exchange w; n_choice := n_choice w;
     n_select := n_select w; n_teardown := n_teardown w; trace := trace w |}.

Definition tick_exchange (w : World) : World :=
  {| next_sock := next_sock w; n_connect := n_connect w;
     n_exchange := S (n_exchange w); n_choice := n_choice w;
     n_select := n_select w; n_teardown := n_teardown w; trace := trace w |}.

Definition tick_choice (w : World) : World :=
  {| next_sock := next_sock w; n_connect := n_connect w;
     n_exchange := n_exchange w; n_choice := S (n_choice w);
     n_select := n_select w; n_teardown := n_teardown w; trace := trace w |}.

Definition tick_select (w : World) : World :=
  {| next_sock := next_sock w; n_connect := n_connect w;
     n_exchange := n_exchange w; n_choice := n_choice w;
     n_select := S (n_select w); n_teardown := n_teardown w; trace := trace w |}.

Definition tick_teardown (w : World) : World :=
  {| next_sock := next_sock w; n_connect := n_connect w;
     n_exchange := n_exchange w; n_choice := n_choice w;
     n_select := n_select w; n_teardown := S (n_teardown w); trace := trace w |}.

(** ** The monad: state of the object, the world, and exceptions *)

Definition M (S A : Type) : Type := S -> World -> res A * S * World.

Definition ret {S A} (a : A) : M S A := fun s w => (Ret a, s, w).

Definition raise {S A} (e : exn) : M S A := fun s w => (Raise e, s, w).

Definition bind {S A B} (m : M S A) (k : A -> M S B) : M S B :=
  fun s w =>
    match m s w with
    | (Ret a, s', w') => k a s' w'
    | (Raise e, s', w') => (Raise e, s', w')
    end.

(** [try: m  except Exception, e: h e] *)
Definition try_except {S A} (m : M S A) (h : exn -> M S A) : M S A :=
  fun s w =>
    match m s w with
    | (Ret a, s', w') => (Ret a, s', w')
    | (Raise e, s', w') => h e s' w'
    end.

Definition get_self {S} : M S S := fun s w => (Ret s, s, w).

Definition modify {S} (f : S -> S) : M S unit := fun s w => (Ret tt, f s, w).

Definition emit {S} (ev : event) : M S unit := fun s w => (Ret tt, s, log ev w).

Declare Scope py_scope.
Delimit Scope py_scope with py.
Notation "x <- m ;; k" := (bind m (fun x => k))
  (at level 100, m at next level, right associativity) : py_scope.
Notation "m ;; k" := (bind m (fun _ => k))
  (at level 100, right associativity) : py_scope.
Open Scope py_scope.

(** ** The socket layer *)

Section Sockets.
Context (E : Env) {S : Type}.

(** [SOCKET_CLASS()] *)
Definition SOCKET_CLASS : M S Sock :=
  fun s w => (Ret (next_sock w), s, log (EvSocket (next_sock w)) (tick_sock w)).

Definition settimeout (sk : Sock) (t : pyval) : M S unit :=
  emit (EvSetTimeout sk t).

Definition connect (sk : Sock) (host port : pyval) : M S unit :=
  fun s w =>
    let w' := log (EvConnect sk host port) (tick_connect w) in
    match connect_at E (n_connect w) with
    | None => (Ret tt, s, w')
    | Some e => (Raise e, s, w')
    end.

(** The request is recorded when the send is attempted, also when the
    send then fails. *)
Definition send_message (sk : Sock) (m : Request) : M S unit :=
  fun s w =>
    let w' := log (EvSend sk m) w in
    match reply_at E (n_exchange w) with
    | SendFails e => (Raise e, s, tick_exchange w')
    | _ => (Ret tt, s, w')
    end.

Definition get_response (sk : Sock) : M S Response :=
  fun s w =>
    match reply_at E (n_exchange w) with
    | Received r => (Ret r, s, tick_exchange w)
    | SendFails e | RecvFails e => (Raise e, s, tick_exchange w)
    end.

Definition shutdown (sk : Sock) : M S unit :=
  fun s w =>
    let w' := log (EvShutdown sk) (tick_teardown w) in
    match teardown_at E (n_teardown w) with
    | None => (Ret tt, s, w')
    | Some e => (Raise e, s, w')
    end.

Definition sock_close (sk : Sock) : M S unit :=
  fun s w =>
    let w' := log (EvSockClose sk) (tick_teardown w) in
    match teardown_at E (n_teardown w) with
    | None => (Ret tt, s, w')
    | Some e => (Raise e, s, w')
    end.

(** [random.choice(seq)]: an [IndexError] on the empty sequence. *)
Definition random_choice (l : list atom) : M S atom :=
  fun s w =>
    match l !! (choice_at E (n_choice w) mod length l) with
    | Some a => (Ret a, s, tick_choice w)
    | None => (Raise IndexError, s, tick_choice w)
    end.

Definition select_ (timeout : Z) : M S (bool * bool) :=
  fun s w =>
    match select_at E (n_select w) with
    | inl e => (Raise e, s, tick_select w)
    | inr rw => (Ret rw, s, tick_select w)
    end.
End Sockets.

(** ** [CONNECTION_ATTEMPTS = 3] *)
Definition CONNECTION_ATTEMPTS : nat := 3.

(** ** class RexProBaseConnection *)

Module RexProBaseConnection.

Record t := {
  host : pyval;
  port : pyval;
  graph_name : pyval;
  graph_obj_name : pyval;
  username : pyval;
  password : pyval;
  timeout : pyval;
  _conn : option Sock;
  _in_transaction : bool;
  _session_key : option Key;
  _opened : bool;
  port_blacklist : gset atom;
  host_blacklist : gset atom;
  current_host : atom;
  current_port : atom
}.

(** Attribute assignments. *)
Definition set_conn (v : option Sock) (c : t) : t :=
  {| host := host c; port := port c; graph_name := graph_name c;
     graph_obj_name := graph_obj_name c; username := username c;
     password := password c; timeout := timeout c;
     _conn := v; _in_transaction := _in_transaction c;
     _session_key := _session_key c; _opened := _opened c;
     port_blacklist := port_blacklist c; host_blacklist := host_blacklist c;
     current_host := current_host c; current_port := current_port c |}.

Definition set_in_transaction (v : bool) (c : t) : t :=
  {| host := host c; port := port c; graph_name := graph_name c;
     graph_obj_name := graph_obj_name c; username := username c;
     password := password c; timeout := timeout c;
     _conn := _conn c; _in_transaction := v;
     _session_key := _session_key c; _opened := _opened c;
     port_blacklist := port_blacklist c; host_blacklist := host_blacklist c;
     current_host := current_host c; current_port := current_port c |}.

Definition set_session_key (v : option Key) (c : t) : t :=
  {| host := host c; port := port c; graph_name := graph_name c;
     graph_obj_name := graph_obj_name c; username := username c;
     password := password c; timeout := timeout c;
     _conn := _conn c; _in_transaction := _in_transaction c;
     _session_key := v; _opened := _opened c;
     port_blacklist := port_blacklist c; host_blacklist := host_blacklist c;
     current_host := current_host c; current_port := current_port c |}.

Definition set_opened (v : bool) (c : t) : t :=
  {| host := host c; port := port c; graph_name := graph_name c;
     graph_obj_name := graph_obj_name c; username := username c;
     password := password c; timeout := timeout c;
     _conn := _conn c; _in_transaction := _in_transaction c;
     _session_key := _session_key c; _opened := v;
     port_blacklist := port_blacklist c; host_blacklist := host_blacklist c;
     current_host := current_host c; current_port := current_port c |}.

Definition set_port_blacklist (v : gset atom) (c : t) : t :=
  {| host := host c; port := port c; graph_name := graph_name c;
     graph_obj_name := graph_obj_name c; username := username c;
     password := password c; timeout := timeout c;
     _conn := _conn c; _in_transaction := _in_transaction c;
     _session_key := _session_key c; _opened := _opened c;
     port_blacklist := v; host_blacklist := host_blacklist c;
     current_host := current_host c; current_port := current_port c |}.

Definition set_host_blacklist (v : gset atom) (c : t) : t :=
  {| host := host c; port := port c; graph_name := graph_name c;
     graph_obj_name := graph_obj_name c; username := username c;
     password := password c; timeout := timeout c;
     _conn := _conn c; _in_transaction := _in_transaction c;
     _session_key := _session_key c; _opened := _opened c;
     port_blacklist := port_blacklist c; host_blacklist := v;
     current_host := current_host c; current_port := current_port c |}.

Definition set_current_host (v : atom) (c : t) : t :=
  {| host := host c; port := port c; graph_name := graph_name c;
     graph_obj_name := graph_obj_name c; username := username c;
     password := password c; timeout := timeout c;
     _conn := _conn c; _in_transaction := _in_transaction c;
     _session_key := _session_key c; _opened := _opened c;
     port_blacklist := port_blacklist c; host_blacklist := host_blacklist c;
     current_host := v; current_port := current_port c |}.

Definition set_current_port (v : atom) (c : t) : t :=
  {| host := host c; port := port c; graph_name := graph_name c;
     graph_obj_name := graph_obj_name c; username := username c;
     password := password c; timeout := timeout c;
     _conn := _conn c; _in_transaction := _in_transaction c;
     _session_key := _session_key c; _opened := _opened c;
     port_blacklist := port_blacklist c; host_blacklist := host_blacklist c;
     current_host := current_host c; current_port := v |}.

(** What a loop body hands back to its [for]: the function returned, or
    the loop goes on with the loop-carried local. *)
Inductive ctl (A L : Type) :=
| Returned (a : A)
| Continue (l : L).
Arguments Returned {A L} a.
Arguments Continue {A L} l.

Section Methods.
Context (E : Env).

(** Entry of a method, recorded with the socket handle of [self]. *)
Definition enter (m : method) : M t unit :=
  c <- get_self ;; emit (EvCall (_conn c) m).

(** [self._conn.<method>]: an [AttributeError] while [_conn] is [None]. *)
Definition the_conn : M t Sock :=
  c <- get_self ;;
  match _conn c with
  | Some s => ret s
  | None => raise AttributeError
  end.

Definition _open_session : M t unit :=
  c <- get_self ;;
  s <- the_conn ;;
  send_message E s (SessionRequest (Some (username c)) (Some (password c))
                                   (graph_name c) None None) ;;
  s <- the_conn ;;
  response <- get_response E s ;;
  match response with
  | ErrorResponse e => raise e
  | SessionResponse key => modify (set_session_key (Some key))
  | ScriptResponse _ => raise AttributeError
  end.

Definition close (soft : bool) : M t unit :=
  enter (MClose soft) ;;
  c <- get_self ;;
  s <- the_conn ;;
  send_message E s (SessionRequest None None (graph_name c)
                                   (Some (_session_key c)) (Some true)) ;;
  s <- the_conn ;;
  response <- get_response E s ;;
  (if negb soft then modify (set_opened false) else ret tt) ;;
  modify (set_session_key None) ;;
  modify (set_in_transaction false) ;;
  match response with
  | ErrorResponse e => raise e
  | _ => ret tt
  end.

Definition connection_failed : M t unit :=
  enter MConnectionFailed ;;
  modify (fun c => set_port_blacklist (port_blacklist c ∪ {[current_port c]}) c) ;;
  modify (fun c => set_host_blacklist (host_blacklist c ∪ {[current_host c]}) c) ;;
  c <- get_self ;;
  match py_len (host c) with
  | None => raise TypeError
  | Some n =>
      (if (n <=? size (host_blacklist c))%nat
       then modify (set_host_blacklist ∅) else ret tt) ;;
      c <- get_self ;;
      match py_len (port c) with
      | None => raise TypeError
      | Some n =>
          if (n <=? size (port_blacklist c))%nat
          then modify (set_port_blacklist ∅) else ret tt
      end
  end.

(** [random.choice(list(set(candidates) - blacklist))]; the draw and what
    it gave are recorded in the trace. *)
Definition draw (part : endpoint) (candidates : list atom)
    (blacklist : gset atom) : M t atom :=
  let choices : gset atom := list_to_set candidates ∖ blacklist in
  try_except
    (a <- random_choice E (elements choices) ;;
     emit (EvDraw part candidates blacklist (Some a)) ;;
     ret a)
    (fun e => emit (EvDraw part candidates blacklist None) ;; raise e).

(** The part of one pass of the loop of [open] that runs when [soft] is
    false; [true] when the socket connected, [false] on [continue]. *)
Definition open_connect : M t bool :=
  s <- SOCKET_CLASS ;;
  modify (set_conn (Some s)) ;;
  c <- get_self ;;
  s <- the_conn ;;
  settimeout s (timeout c) ;;
  (match host c with
   | PyList l =>
       h <- draw Host l (host_blacklist c) ;;
       modify (set_current_host h)
   | Atom a => modify (set_current_host a)
   end) ;;
  (match port c with
   | PyList l =>
       c <- get_self ;;
       p <- draw Port l (port_blacklist c) ;;
       modify (set_current_port p)
   | Atom a => modify (set_current_port a)
   end) ;;
  try_except
    (c <- get_self ;;
     s <- the_conn ;;
     connect E s (Atom (current_host c)) (Atom (current_port c)) ;;
     ret true)
    (fun e => connection_failed ;; ret false).

(** One pass of [for i in range(CONNECTION_ATTEMPTS)] in [open]. *)
Definition open_attempt (i : nat) (soft : bool) : M t (ctl unit bool) :=
  connected <- (if negb soft then open_connect else ret true) ;;
  if negb connected then ret (Continue soft)
  else
    try_except
      (modify (set_in_transaction false) ;;
       modify (set_session_key None) ;;
       modify (set_opened true) ;;
       _open_session ;;
       ret (Returned tt))
      (fun e =>
         connection_failed ;;
         if (CONNECTION_ATTEMPTS - 1 <=? i)%nat then raise e
         else ret (Continue false)).

Fixpoint open_loop (attempts : list nat) (soft : bool) : M t unit :=
  match attempts with
  | [] => ret tt
  | i :: rest =>
      r <- open_attempt i soft ;;
      match r with
      | Returned _ => ret tt
      | Continue soft' => open_loop rest soft'
      end
  end.

Definition open (soft : bool) : M t unit :=
  enter (MOpen soft) ;;
  open_loop (seq 0 CONNECTION_ATTEMPTS) soft.

(** The [for timeout in [2, 4, 8]] loop of [test_connection]; a pass
    hands back [true] when it reached [return None]. *)
Definition reconnect_attempt (timeout_ : Z) : M t bool :=
  try_except
    (s <- the_conn ;;
     shutdown E s ;;
     s <- the_conn ;;
     sock_close E s ;;
     c <- get_self ;;
     s <- the_conn ;;
     connect E s (host c) (port c) ;;
     rw <- select_ E timeout_ ;;
     if negb (fst rw) && negb (snd rw) then ret false
     else
       c <- get_self ;;
       s <- the_conn ;;
       settimeout s (timeout c) ;;
       modify (set_in_transaction false) ;;
       modify (set_session_key None) ;;
       _open_session ;;
       ret true)
    (fun e => ret false).

Fixpoint reconnect_loop (timeouts : list Z) : M t unit :=
  match timeouts with
  | [] =>
      c <- get_self ;;
      raise (RexProConnectionException
               "Could not reconnect to database %s:%s" [host c; port c])
  | timeout_ :: rest =>
      done <- reconnect_attempt timeout_ ;;
      if done then ret tt else reconnect_loop rest
  end.

Definition test_connection : M t unit :=
  enter MTestConnection ;;
  rw <- select_ E 1 ;;
  if negb (fst rw) && negb (snd rw)
  then reconnect_loop [2; 4; 8]%Z
  else ret tt.

(** One pass of [for i in range(CONNECTION_ATTEMPTS)] in [execute].  The
    local [transaction] is carried from one pass to the next; its
    assignment, first in the [try] block, cannot raise. *)
Definition execute_attempt (i : nat) (script : string)
    (params : list (string * pyval)) (isolate transaction : bool)
    : M t (ctl (list pyval) bool) :=
  c <- get_self ;;
  let transaction := if _in_transaction c then false else transaction in
  try_except
    (c <- get_self ;;
     s <- the_conn ;;
     send_message E s
       (ScriptRequest script params (_session_key c) isolate transaction) ;;
     s <- the_conn ;;
     response <- get_response E s ;;
     match response with
     | ErrorResponse e => raise e
     | ScriptResponse results => ret (Returned results)
     | SessionResponse _ => raise AttributeError
     end)
    (fun e =>
       connection_failed ;;
       if (CONNECTION_ATTEMPTS - 1 <=? i)%nat then raise e
       else
         close false ;;
         open false ;;
         ret (Continue transaction)).

(** [None] when the loop runs out without a [return]. *)
Fixpoint execute_loop (attempts : list nat) (script : string)
    (params : list (string * pyval)) (isolate transaction : bool)
    : M t (option (list pyval)) :=
  match attempts with
  | [] => ret None
  | i :: rest =>
      r <- execute_attempt i script params isolate transaction ;;
      match r with
      | Returned results => ret (Some results)
      | Continue transaction' =>
          execute_loop rest script params isolate transaction'
      end
  end.

Definition execute (script : string) (params : list (string * pyval))
    (isolate transaction : bool) : M t (option (list pyval)) :=
  enter MExecute ;;
  execute_loop (seq 0 CONNECTION_ATTEMPTS) script params isolate transaction.

Definition open_transaction : M t unit :=
  enter MOpenTransaction ;;
  c <- get_self ;;
  if _in_transaction c
  then raise (RexProScriptException "transaction is already open")
  else
    execute "g.stopTransaction(FAILURE)" [] false false ;;
    modify (set_in_transaction true).

Definition close_transaction (success : bool) : M t unit :=
  enter (MCloseTransaction success) ;;
  c <- get_self ;;
  if negb (_in_transaction c)
  then raise (RexProScriptException "transaction is not open")
  else
    execute ("g.stopTransaction(" ++ (if success then "SUCCESS" else "FAILURE") ++ ")")%string
            [] false false ;;
    modify (set_in_transaction false).

(** [with self.transaction(): body] *)
Definition transaction {A} (body : M t A) : M t A :=
  test_connection ;;
  open_transaction ;;
  a <- try_except body
         (fun e => close_transaction false ;; raise e) ;;
  close_transaction true ;;
  ret a.

(** The attributes [__init__] assigns before it calls [self.open()]. *)
Definition blank (host port graph_name graph_obj_name username password
                  timeout : pyval) : t :=
  {| host := host; port := port; graph_name := graph_name;
     graph_obj_name := graph_obj_name; username := username;
     password := password; timeout := timeout;
     _conn := None; _in_transaction := false; _session_key := None;
     _opened := false; port_blacklist := ∅; host_blacklist := ∅;
     current_host := PNone; current_port := PNone |}.

Definition __init__ (host port graph_name graph_obj_name username password
                     timeout : pyval) : M t unit :=
  modify (fun _ => blank host port graph_name graph_obj_name username
                         password timeout) ;;
  open false.

(** [RexProBaseConnection(host, port, ...)]: the new object, or the fault
    of its constructor. *)
Definition new (host port graph_name graph_obj_name username password
                timeout : pyval) (w : World) : res t * World :=
  match __init__ host port graph_name graph_obj_name username password
                 timeout
                 (blank host port graph_name graph_obj_name username
                        password timeout) w with
  | (Ret _, c, w') => (Ret c, w')
  | (Raise e, _, w') => (Raise e, w')
  end.
End Methods.
End RexProBaseConnection.

(** ** class RexProBaseConnectionPool *)

Module RexProBaseConnectionPool.

Module Conn := RexProBaseConnection.

(** [pool] is the idle queue ([QUEUE_CLASS], first in first out): [get]
    takes from the front, [put] adds at the back. *)
Record t := {
  host : pyval;
  port : pyval;
  graph_name : pyval;
  graph_obj_name : pyval;
  username : pyval;
  password : pyval;
  timeout : pyval;
  pool : list Conn.t
}.

Definition set_pool (q : list Conn.t) (p : t) : t :=
  {| host := host p; port := port p; graph_name := graph_name p;
     graph_obj_name := graph_obj_name p; username := username p;
     password := password p; timeout := timeout p; pool := q |}.

Definition __init__ (host port graph_name graph_obj_name username password
                     timeout : pyval) : t :=
  {| host := host; port := port; graph_name := graph_name;
     graph_obj_name := graph_obj_name; username := username;
     password := password; timeout := timeout; pool := [] |}.

(** The keyword arguments of [get], [_create_connection] and the like;
    each defaults to [None]. *)
Record kwargs := {
  kw_host : pyval;
  kw_port : pyval;
  kw_graph_name : pyval;
  kw_graph_obj_name : pyval;
  kw_username : pyval;
  kw_password : pyval;
  kw_timeout : pyval
}.

Definition no_kwargs : kwargs :=
  {| kw_host := Atom PNone; kw_port := Atom PNone;
     kw_graph_name := Atom PNone; kw_graph_obj_name := Atom PNone;
     kw_username := Atom PNone; kw_password := Atom PNone;
     kw_timeout := Atom PNone |}.

Section Methods.
Context (E : Env).

(** A method of a connection object called from the pool: the outcome
    and the object as the call left it. *)
Definition call {A} (conn : Conn.t) (m : M Conn.t A) : M t (res A * Conn.t) :=
  fun p w =>
    match m conn w with
    | (r, conn', w') => (Ret (r, conn'), p, w')
    end.

(** [CONN_CLASS(...)] *)
Definition CONN_CLASS (host port graph_name graph_obj_name username
                       password timeout : pyval) : M t Conn.t :=
  fun p w =>
    match Conn.new E host port graph_name graph_obj_name username
                   password timeout w with
    | (Ret c, w') => (Ret c, p, w')
    | (Raise e, w') => (Raise e, p, w')
    end.

Definition _create_connection (kw : kwargs) : M t Conn.t :=
  self <- get_self ;;
  CONN_CLASS (py_or (kw_host kw) (host self))
             (py_or (kw_port kw) (port self))
             (py_or (kw_graph_name kw) (graph_name self))
             (py_or (kw_graph_obj_name kw) (graph_obj_name self))
             (py_or (kw_username kw) (username self))
             (py_or (kw_password kw) (password self))
             (py_or (kw_timeout kw) (timeout self)).

Definition get (kw : kwargs) : M t Conn.t :=
  self <- get_self ;;
  match pool self with
  | conn :: rest => modify (set_pool rest) ;; ret conn
  | [] =>
      new_item <- _create_connection kw ;;
      ret new_item
  end.

Definition put (conn : Conn.t) : M t unit :=
  modify (fun self => set_pool (pool self ++ [conn]) self).

(** [while not self.pool.empty()]: at most [passes] passes. *)
Fixpoint close_all_loop (passes : nat) : M t unit :=
  match passes with
  | 0 => ret tt
  | S n =>
      self <- get_self ;;
      match pool self with
      | [] => ret tt
      | conn :: rest =>
          modify (set_pool rest) ;;
          rc <- call conn (try_except (Conn.close E false) (fun _ => ret tt)) ;;
          match fst rc with
          | Ret _ => close_all_loop n
          | Raise e => raise e
          end
      end
  end.

(** No pass adds to the queue, so its length at entry bounds the number
    of passes. *)
Definition close_all : M t unit :=
  self <- get_self ;;
  close_all_loop (length (pool self)).

Definition create_connection (kw : kwargs) : M t Conn.t :=
  conn <- get kw ;;
  rc <- call conn (Conn.open E (Conn._opened conn)) ;;
  match fst rc with
  | Ret _ => ret (snd rc)
  | Raise e => raise e
  end.

Definition close_connection (conn : Conn.t) (soft : bool) : M t unit :=
  conn' <- (if Conn._opened conn
            then
              rc <- call conn (Conn.close E soft) ;;
              match fst rc with
              | Ret _ => ret (snd rc)
              | Raise e => raise e
              end
            else ret conn) ;;
  put conn'.

(** [with self.connection(...) as conn: body].  The [if not conn] guard
    never fires, a connection object being true; the [finally] block
    runs on both exits of the scope. *)
Definition connection {A} (kw : kwargs) (body : M Conn.t A) : M t A :=
  conn <- create_connection kw ;;
  rc <- call conn (Conn.transaction E body) ;;
  close_connection (snd rc) true ;;
  match fst rc with
  | Ret a => ret a
  | Raise e => raise e
  end.
End Methods.
End RexProBaseConnectionPool.

(** * Vocabulary of the specifications *)

Import RexProBaseConnection.

Definition result {S A} (x : res A * S * World) : res A := x.1.1.
Definition self_after {S A} (x : res A * S * World) : S := x.1.2.
Definition world_after {S A} (x : res A * S * World) : World := x.2.

(** [wp m Q s w]: the run of [m] from object [s] and world [w] ends in an
    outcome, object and world that satisfy [Q]. *)
Definition wp {S A} (m : M S A) (Q : res A -> S -> World -> Prop)
    (s : S) (w : World) : Prop :=
  match m s w with (r, s', w') => Q r s' w' end.

(** The operations a caller has on a connection, and a caller that runs a
    list of them one after the other, catching every fault. *)
Inductive op :=
| OpOpen (soft : bool)
| OpClose (soft : bool)
| OpOpenTransaction
| OpCloseTransaction (success : bool)
| OpExecute (script : string) (params : list (string * pyval))
            (isolate transaction : bool).

Definition run_op (E : Env) (o : op) : M t unit :=
  match o with
  | OpOpen soft => open E soft
  | OpClose soft => close E soft
  | OpOpenTransaction => open_transaction E
  | OpCloseTransaction success => close_transaction E success
  | OpExecute script params isolate transaction =>
      execute E script params isolate transaction ;; ret tt
  end.

Fixpoint run_ops (E : Env) (os : list op) (c : t) (w : World) : t * World :=
  match os with
  | [] => (c, w)
  | o :: os' =>
      run_ops E os' (self_after (run_op E o c w)) (world_after (run_op E o c w))
  end.

(** The configuration of a connection, which no method assigns. *)
Definition same_config (c c' : t) : Prop :=
  host c' = host c /\ port c' = port c /\ graph_name c' = graph_name c /\
  graph_obj_name c' = graph_obj_name c /\ username c' = username c /\
  password c' = password c /\ timeout c' = timeout c.

(** The events of the socket and session life cycle: all but the draws, the
    script requests and the entries of [execute], [test_connection] and the
    two transaction methods. *)
Definition lifecycle (ev : event) : bool :=
  match ev with
  | EvCall _ (MOpen _) | EvCall _ (MClose _) | EvCall _ MConnectionFailed => true
  | EvCall _ _ => false
  | EvSocket _ | EvSetTimeout _ _ | EvConnect _ _ _
  | EvShutdown _ | EvSockClose _ => true
  | EvSend _ (SessionRequest _ _ _ _ _) => true
  | EvSend _ (ScriptRequest _ _ _ _ _) => false
  | EvDraw _ _ _ _ => false
  end.

(** From [σ] to [σ']: the configuration is the same and, if [Inv] held, it
    still holds and the trace grew by events that satisfy [P]. *)
Record keeps (Inv : t -> Prop) (P : event -> Prop) (σ σ' : t * World) : Prop :=
  Keeps {
    keeps_config : same_config σ.1 σ'.1;
    keeps_inv :
      Inv σ.1 -> Inv σ'.1 /\ exists d, trace σ'.2 = trace σ.2 ++ d /\ Forall P d
  }.

(** The method entries among the events of a trace. *)
Definition entries (d : list event) : list (option Sock * method) :=
  omap (fun ev => match ev with EvCall s m => Some (s, m) | _ => None end) d.

(** The world after a hard [close] of each connection of [q], one after
    the other in the order of [q], whether the [close] returns or raises. *)
Fixpoint closes (E : Env) (q : list t) (w : World) : World :=
  match q with
  | [] => w
  | conn :: q' => closes E q' (world_after (close E false conn w))
  end.

(** A script request, if the event is one, asks for no transaction of its
    own. *)
Definition plain_script (ev : event) : Prop :=
  match ev with
  | EvSend _ (ScriptRequest _ _ _ _ in_transaction) => in_transaction = false
  | _ => True
  end.

(** The entries of [test_connection], [open_transaction] and
    [close_transaction] among the events of a trace. *)
Definition scope_call (ev : event) : option method :=
  match ev with
  | EvCall _ MTestConnection => Some MTestConnection
  | EvCall _ MOpenTransaction => Some MOpenTransaction
  | EvCall _ (MCloseTransaction success) => Some (MCloseTransaction success)
  | _ => None
  end.

Definition scope_calls (d : list event) : list method := omap scope_call d.

Definition quiet (ev : event) : Prop := scope_call ev = None.

(** The first two statements of [transaction]. *)
Definition enter_scope (E : Env) : M t unit :=
  test_connection E ;; open_transaction E.

(** What the body of a scope ended in. *)
Definition completed {A} (r : res A) : bool :=
  match r with Ret _ => true | Raise _ => false end.

Definition candidates (part : endpoint) (c : t) : pyval :=
  match part with Host => host c | Port => port c end.

Definition blacklist (part : endpoint) (c : t) : gset atom :=
  match part with Host => host_blacklist c | Port => port_blacklist c end.

(** A draw of [part] went well: the blacklist did not cover the candidates
    and the pick is a candidate that is not blacklisted. *)
Definition draw_ok (part : endpoint) (ev : event) : Prop :=
  match ev with
  | EvDraw part' l bl pick =>
      part' = part ->
      ~ (list_to_set l : gset atom) ⊆ bl /\
      exists a, pick = Some a /\ a ∈ l /\ a ∉ bl
  | _ => True
  end.

(** [part] is configured as the candidate list [l] and its blacklist is
    smaller than [l]; for the port, moreover, [len(self.host)] is defined, so
    that [connection_failed] gets as far as the port. *)
Definition leaves_choice (part : endpoint) (l : list atom) (c : t) : Prop :=
  candidates part c = PyList l /\
  size (blacklist part c) < length l /\
  (part = Port -> py_len (host c) <> None).

(** The picks of the host draws among the events of a trace. *)
Definition host_picks (d : list event) : list (option atom) :=
  omap (fun ev => match ev with EvDraw Host _ _ pick => Some pick | _ => None end) d.

(** A stored session key implies [_opened]. *)
Definition session_implies_opened (c : t) : Prop :=
  _session_key c <> None -> _opened c = true.

(** [_in_transaction] implies [_opened]. *)
Definition transaction_implies_opened (c : t) : Prop :=
  _in_transaction c = true -> _opened c = true.

(** What the session handshake makes of an exchange: the fault it raises or
    the session key it stores. *)
Definition handshake_of (r : reply) : exn + Key :=
  match r with
  | SendFails e | RecvFails e => inl e
  | Received (ErrorResponse e) => inl e
  | Received (SessionResponse key) => inr key
  | Received (ScriptResponse _) => inl AttributeError
  end.

(** An endpoint part that the retry loop can work with: a string, or a
    candidate list without duplicates whose blacklist is smaller than it. *)
Definition endpoint_ok (part : endpoint) (c : t) : Prop :=
  match candidates part c with
  | PyList l => NoDup l /\ size (blacklist part c) < length l
  | Atom (PStr _) => True
  | Atom _ => False
  end.

Definition retry_ready (c : t) : Prop := endpoint_ok Host c /\ endpoint_ok Port c.

(** How the attempts of one call of [open] go. *)
Inductive attempt :=
| ConnectFails (e : exn)
| HandshakeFails (e : exn)
| Succeeds (key : Key).

Definition failed (a : attempt) : Prop :=
  match a with Succeeds _ => False | _ => True end.

(** The world plays the attempts of [script], from the [kc]-th connect and
    the [kx]-th exchange on; a soft attempt connects nothing. *)
Fixpoint plays (E : Env) (soft : bool) (kc kx : nat) (script : list attempt) : Prop :=
  match script with
  | [] => True
  | ConnectFails e :: rest =>
      soft = false /\ connect_at E kc = Some e /\ plays E false (S kc) kx rest
  | HandshakeFails e :: rest =>
      (soft = false -> connect_at E kc = None) /\
      handshake_of (reply_at E kx) = inl e /\
      plays E false (if soft then kc else S kc) (S kx) rest
  | Succeeds key :: rest =>
      (soft = false -> connect_at E kc = None) /\
      handshake_of (reply_at E kx) = inr key /\
      plays E false (if soft then kc else S kc) (S kx) rest
  end.

(** What the loop of [open] ends in when its attempts go as [script] and the
    last attempt of the script is the last of the budget. *)
Fixpoint ends_in (script : list attempt) (r : res unit) (c' : t) : Prop :=
  match script with
  | [] => r = Ret tt
  | Succeeds key :: _ =>
      r = Ret tt /\ _opened c' = true /\ _session_key c' = Some key /\
      _in_transaction c' = false
  | HandshakeFails e :: rest =>
      match rest with
      | [] => r = Raise e
      | _ => ends_in rest r c'
      end
  | ConnectFails _ :: rest => ends_in rest r c'
  end.

(** What [execute] makes of an exchange: the fault it catches or the results
    it returns. *)
Definition script_of (r : reply) : exn + list pyval :=
  match r with
  | SendFails e | RecvFails e => inl e
  | Received (ErrorResponse e) => inl e
  | Received (ScriptResponse results) => inr results
  | Received (SessionResponse _) => inl AttributeError
  end.

(** A short name for the pool class. *)
Module Pool := RexProBaseConnectionPool.

(** What [close] makes of the exchange of its kill request: the fault it
    raises, or nothing. *)
Definition kill_of (r : reply) : exn + unit :=
  match r with
  | SendFails e | RecvFails e => inl e
  | Received (ErrorResponse e) => inl e
  | Received _ => inr tt
  end.

(** What a run may spend on the outside world: sockets created, and calls of
    [connect], exchanges, [random.choice], [_select], and [shutdown] or
    socket [close]. *)
Record cost := {
  sockets : nat;
  connects : nat;
  exchanges : nat;
  draws : nat;
  selects : nat;
  teardowns : nat
}.

(** From [w] to [w'] the world counters went up, by at most [k]. *)
Definition within (k : cost) (w w' : World) : Prop :=
  next_sock w <= next_sock w' <= next_sock w + sockets k /\
  n_connect w <= n_connect w' <= n_connect w + connects k /\
  n_exchange w <= n_exchange w' <= n_exchange w + exchanges k /\
  n_choice w <= n_choice w' <= n_choice w + draws k /\
  n_select w <= n_select w' <= n_select w + selects k /\
  n_teardown w <= n_teardown w' <= n_teardown w + teardowns k.

(** [n] runs of cost [k] each. *)
Definition times (n : nat) (k : cost) : cost :=
  {| sockets := n * sockets k; connects := n * connects k;
     exchanges := n * exchanges k; draws := n * draws k;
     selects := n * selects k; teardowns := n * teardowns k |}.

(** One pass of the loop of [open]: a socket, two draws, a connect and a
    handshake at most. *)
Definition attempt_cost : cost :=
  {| sockets := 1; connects := 1; exchanges := 1; draws := 2; selects := 0;
     teardowns := 0 |}.

(** One pass of the loop of [test_connection]: a shutdown and a close of
    the socket, a connect, a select and a handshake at most. *)
Definition reconnect_cost : cost :=
  {| sockets := 0; connects := 1; exchanges := 1; draws := 0; selects := 1;
     teardowns := 2 |}.

(** [c'] differs from [c] in [_session_key] and [_in_transaction] at most. *)
Definition only_session_changed (c c' : t) : Prop :=
  c' = set_in_transaction (_in_transaction c') (set_session_key (_session_key c') c).

(** The fault of [test_connection] when no pass of its loop reconnects. *)
Definition could_not_reconnect (c : t) : exn :=
  RexProConnectionException "Could not reconnect to database %s:%s" [host c; port c].

(** [test_connection] found the link down and set up a new session. *)
Definition reconnected (c' : t) : Prop :=
  _in_transaction c' = false /\ exists key, _session_key c' = Some key.

(** Not in a transaction. *)
Definition idle (c : t) : Prop := _in_transaction c = false.

(** The world once the control script that method [m] hands to [execute]
    has been answered at the first try: the two method entries and the one
    request, sent outside any transaction and without isolation. *)
Definition control_sent (m : method) (s : Sock) (script : string)
    (key : option Key) (w : World) : World :=
  tick_exchange
    (log (EvSend s (ScriptRequest script [] key false false))
       (log (EvCall (Some s) MExecute) (log (EvCall (Some s) m) w))).

(** The draws of [part] among the events of a trace, each with the
    blacklist it found and what it picked. *)
Definition draws_of (part : endpoint) (d : list event)
    : list (gset atom * option atom) :=
  omap (fun ev =>
          match ev, part with
          | EvDraw Host _ bl pick, Host | EvDraw Port _ bl pick, Port =>
              Some (bl, pick)
          | _, _ => None
          end) d.

(** Each draw that follows a pick finds that pick blacklisted, and so picks
    something else, unless it finds the blacklist empty (just reset). *)
Fixpoint fails_over (ds : list (gset atom * option atom)) : Prop :=
  match ds with
  | [] => True
  | d1 :: rest =>
      match d1.2, rest with
      | Some a, (bl, pick) :: _ => bl = ∅ \/ (a ∈ bl /\ pick <> Some a)
      | _, _ => True
      end /\ fails_over rest
  end.

(** The endpoint part that the last pass of [open] settled on. *)
Definition current (part : endpoint) (c : t) : atom :=
  match part with Host => current_host c | Port => current_port c end.

(** Since [w0] the trace grew by events whose draws of [part] are [ds]. *)
Definition drawn (part : endpoint) (w0 w : World)
    (ds : list (gset atom * option atom)) : Prop :=
  exists d, trace w = trace w0 ++ d /\ draws_of part d = ds.

(** The last pick, if any, is blacklisted, or the blacklist is empty. *)
Definition armed (part : endpoint) (c : t)
    (ds : list (gset atom * option atom)) : Prop :=
  fails_over ds /\
  match candidates part c with
  | PyList _ =>
      match last ds with
      | Some (_, Some a) => blacklist part c = ∅ \/ a ∈ blacklist part c
      | _ => True
      end
  | Atom _ => ds = []
  end.

(** The last pick, if any, is the current endpoint. *)
Definition tracked (part : endpoint) (c : t)
    (ds : list (gset atom * option atom)) : Prop :=
  fails_over ds /\
  match candidates part c with
  | PyList _ =>
      match last ds with
      | Some (_, Some a) => current part c = a
      | _ => True
      end
  | Atom _ => ds = []
  end.

(** * Scenarios *)

(** A server that accepts every connection, opens session ["s1"] and answers
    every later request with an empty result. *)
Definition friendly : Env :=
  {| connect_at := fun _ => None;
     reply_at := fun n =>
       match n with
       | 0 => Received (SessionResponse "s1")
       | _ => Received (ScriptResponse [])
       end;
     choice_at := fun _ => 0;
     select_at := fun _ => inr (true, true);
     teardown_at := fun _ => None |}.

(** The same server behind a link that drops from the third exchange on. *)
Definition link_drops : Env :=
  {| connect_at := fun _ => None;
     reply_at := fun n =>
       match n with
       | 0 => Received (SessionResponse "s1")
       | 1 => Received (ScriptResponse [])
       | _ => SendFails SocketError
       end;
     choice_at := fun _ => 0;
     select_at := fun _ => inr (true, true);
     teardown_at := fun _ => None |}.

(** A server that opens session ["s1"], answers one script and answers
    every later request with the script error ["transaction is not open"]. *)
Definition objecting : Env :=
  {| connect_at := fun _ => None;
     reply_at := fun n =>
       match n with
       | 0 => Received (SessionResponse "s1")
       | 1 => Received (ScriptResponse [])
       | _ => Received (ErrorResponse
                          (RexProScriptException "transaction is not open"))
       end;
     choice_at := fun _ => 0;
     select_at := fun _ => inr (true, true);
     teardown_at := fun _ => None |}.

(** A connection to one host and one port, both given as candidate lists. *)
Definition localhost : t :=
  blank (PyList [PStr "localhost"]) (PyList [PInt 8184]) (Atom (PStr "graph"))
        (Atom (PStr "g")) (Atom (PStr "")) (Atom (PStr "")) (Atom PNone).

(** A pool whose defaults name a user and a timeout. *)
Definition guarded_pool : RexProBaseConnectionPool.t :=
  RexProBaseConnectionPool.__init__
    (Atom (PStr "localhost")) (PyList [PInt 8184]) (Atom (PStr "graph"))
    (Atom (PStr "g")) (Atom (PStr "admin")) (Atom (PStr "secret"))
    (Atom (PInt 30)).

(** An acquisition that asks for the empty user name, the empty password
    and a timeout of 0. *)
Definition anonymous : RexProBaseConnectionPool.kwargs :=
  {| RexProBaseConnectionPool.kw_host := Atom PNone;
     RexProBaseConnectionPool.kw_port := Atom PNone;
     RexProBaseConnectionPool.kw_graph_name := Atom PNone;
     RexProBaseConnectionPool.kw_graph_obj_name := Atom PNone;
     RexProBaseConnectionPool.kw_username := Atom (PStr "");
     RexProBaseConnectionPool.kw_password := Atom (PStr "");
     RexProBaseConnectionPool.kw_timeout := Atom (PInt 0) |}.

(** The connection that the acquisition [anonymous] gets from
    [guarded_pool]. *)
Definition anonymous_connection : t :=
  self_after
    (open friendly false
       (blank (Atom (PStr "localhost")) (PyList [PInt 8184]) (Atom (PStr "graph"))
              (Atom (PStr "g")) (Atom (PStr "admin")) (Atom (PStr "secret"))
              (Atom (PInt 30)))
       world0).

(** A server that cannot be reached: every connect is refused. *)
Definition unreachable : Env :=
  {| connect_at := fun _ => Some SocketError;
     reply_at := fun _ => RecvFails SocketError;
     choice_at := fun n => n;
     select_at := fun _ => inr (false, false);
     teardown_at := fun _ => None |}.

(** Three candidate hosts and two candidate ports. *)
Definition cluster : t :=
  blank (PyList [PStr "h1"; PStr "h2"; PStr "h3"]) (PyList [PInt 8184; PInt 8185])
        (Atom (PStr "graph")) (Atom (PStr "g")) (Atom (PStr "")) (Atom (PStr ""))
        (Atom PNone).

(** The same host listed twice. *)
Definition twice_listed : t :=
  blank (PyList [PStr "h1"; PStr "h1"]) (PyList [PInt 8184])
        (Atom (PStr "graph")) (Atom (PStr "g")) (Atom (PStr "")) (Atom (PStr ""))
        (Atom PNone).

(** No candidate host at all. *)
Definition no_candidates : t :=
  blank (PyList []) (PyList [PInt 8184])
        (Atom (PStr "graph")) (Atom (PStr "g")) (Atom (PStr "")) (Atom (PStr ""))
        (Atom PNone).

(** A server behind a link that refuses the first connection, drops the
    first handshake and then works. *)
Definition flaky : Env :=
  {| connect_at := fun n => match n with 0 => Some SocketError | _ => None end;
     reply_at := fun n =>
       match n with
       | 0 => RecvFails SocketError
       | 1 => Received (SessionResponse "s1")
       | _ => Received (ScriptResponse [])
       end;
     choice_at := fun n => n;
     select_at := fun _ => inr (true, true);
     teardown_at := fun _ => None |}.

(** A server that accepts connections and never answers. *)
Definition silent : Env :=
  {| connect_at := fun _ => None;
     reply_at := fun _ => RecvFails SocketError;
     choice_at := fun n => n;
     select_at := fun _ => inr (true, true);
     teardown_at := fun _ => None |}.

(** One host and the port as an integer, the way the constructor documents
    them. *)
Definition documented : t :=
  blank (Atom (PStr "localhost")) (Atom (PInt 8184)) (Atom (PStr "graph"))
        (Atom (PStr "g")) (Atom (PStr "")) (Atom (PStr "")) (Atom PNone).

(** A connection to one host and one port, both given as strings. *)
Definition named : t :=
  blank (Atom (PStr "localhost")) (Atom (PStr "8184")) (Atom (PStr "graph"))
        (Atom (PStr "g")) (Atom (PStr "")) (Atom (PStr "")) (Atom PNone).

(** A pool whose defaults are one host and an integer port, as its
    constructor documents them. *)
Definition plain_pool : Pool.t :=
  Pool.__init__ (Atom (PStr "localhost")) (Atom (PInt 8184)) (Atom (PStr "graph"))
    (Atom (PStr "g")) (Atom (PStr "")) (Atom (PStr "")) (Atom PNone).

(** A server whose third answer is lost: it opens session ["s1"], answers a
    script, drops the answer to the next one, acknowledges the kill request
    that follows, opens session ["s2"] and answers every later script. *)
Definition hiccup : Env :=
  {| connect_at := fun _ => None;
     reply_at := fun n =>
       match n with
       | 0 => Received (SessionResponse "s1")
       | 1 => Received (ScriptResponse [])
       | 2 => RecvFails SocketError
       | 3 => Received (SessionResponse "")
       | 4 => Received (SessionResponse "s2")
       | _ => Received (ScriptResponse [])
       end;
     choice_at := fun _ => 0;
     select_at := fun _ => inr (true, true);
     teardown_at := fun _ => None |}.

(** A server that answers every request with a session, ["s1"] the first
    time and ["s2"] afterwards, behind a socket that the first select finds
    neither readable nor writeable. *)
Definition stale : Env :=
  {| connect_at := fun _ => None;
     reply_at := fun n =>
       match n with
       | 0 => Received (SessionResponse "s1")
       | _ => Received (SessionResponse "s2")
       end;
     choice_at := fun _ => 0;
     select_at := fun n =>
       match n with
       | 0 => inr (false, false)
       | _ => inr (true, true)
       end;
     teardown_at := fun _ => None |}.

(** * Reasoning about method runs *)

Section WpRules.
Context {S : Type}.
Implicit Types (s : S) (w : World).

Lemma wp_run {A} (m : M S A) Q s w :
  wp m Q s w <-> Q (result (m s w)) (self_after (m s w)) (world_after (m s w)).
Proof.
  unfold wp, result, self_after, world_after. by destruct (m s w) as [[??]?].
Qed.

Lemma wp_mono {A} (m : M S A) (Q Q' : res A -> S -> World -> Prop) s w :
  wp m Q s w -> (forall r s' w', Q r s' w' -> Q' r s' w') -> wp m Q' s w.
Proof. unfold wp. destruct (m s w) as [[??]?]. auto. Qed.

Lemma wp_ret {A} (a : A) Q s w : Q (Ret a) s w -> wp (ret a) Q s w.
Proof. done. Qed.

Lemma wp_raise {A} e (Q : res A -> S -> World -> Prop) s w :
  Q (Raise e) s w -> wp (raise e) Q s w.
Proof. done. Qed.

Lemma wp_get_self Q s w : Q (Ret s) s w -> wp get_self Q s w.
Proof. done. Qed.

Lemma wp_modify f Q s w : Q (Ret tt) (f s) w -> wp (modify f) Q s w.
Proof. done. Qed.

Lemma wp_emit ev Q s w : Q (Ret tt) s (log ev w) -> wp (emit ev) Q s w.
Proof. done. Qed.

Lemma wp_bind {A B} (m : M S A) (k : A -> M S B) Q s w :
  wp m (fun r s' w' =>
          match r with
          | Ret a => wp (k a) Q s' w'
          | Raise e => Q (Raise e) s' w'
          end) s w ->
  wp (bind m k) Q s w.
Proof. unfold wp, bind. destruct (m s w) as [[[a|e] s'] w']; done. Qed.

Lemma wp_try {A} (m : M S A) (h : exn -> M S A) Q s w :
  wp m (fun r s' w' =>
          match r with
          | Ret a => Q (Ret a) s' w'
          | Raise e => wp (h e) Q s' w'
          end) s w ->
  wp (try_except m h) Q s w.
Proof. unfold wp, try_except. destruct (m s w) as [[[a|e] s'] w']; done. Qed.

Context (E : Env).

Lemma wp_SOCKET_CLASS Q s w :
  Q (Ret (next_sock w)) s (log (EvSocket (next_sock w)) (tick_sock w)) ->
  wp SOCKET_CLASS Q s w.
Proof. done. Qed.

Lemma wp_connect sk h p Q s w :
  (match connect_at E (n_connect w) with
   | None => Q (Ret tt)
   | Some e => Q (Raise e)
   end) s (log (EvConnect sk h p) (tick_connect w)) ->
  wp (connect E sk h p) Q s w.
Proof. unfold wp, connect. by destruct (connect_at _ _). Qed.

Lemma wp_send_message sk m Q s w :
  (match reply_at E (n_exchange w) with
   | SendFails e => Q (Raise e) s (tick_exchange (log (EvSend sk m) w))
   | _ => Q (Ret tt) s (log (EvSend sk m) w)
   end) ->
  wp (send_message E sk m) Q s w.
Proof. unfold wp, send_message. by destruct (reply_at _ _). Qed.

Lemma wp_get_response sk Q s w :
  (match reply_at E (n_exchange w) with
   | Received r => Q (Ret r)
   | SendFails e | RecvFails e => Q (Raise e)
   end) s (tick_exchange w) ->
  wp (get_response E sk) Q s w.
Proof. unfold wp, get_response. by destruct (reply_at _ _). Qed.

Lemma wp_shutdown sk Q s w :
  (match teardown_at E (n_teardown w) with
   | None => Q (Ret tt)
   | Some e => Q (Raise e)
   end) s (log (EvShutdown sk) (tick_teardown w)) ->
  wp (shutdown E sk) Q s w.
Proof. unfold wp, shutdown. by destruct (teardown_at _ _). Qed.

Lemma wp_sock_close sk Q s w :
  (match teardown_at E (n_teardown w) with
   | None => Q (Ret tt)
   | Some e => Q (Raise e)
   end) s (log (EvSockClose sk) (tick_teardown w)) ->
  wp (sock_close E sk) Q s w.
Proof. unfold wp, sock_close. by destruct (teardown_at _ _). Qed.

Lemma wp_random_choice l Q s w :
  (match l !! (choice_at E (n_choice w) mod length l) with
   | Some a => Q (Ret a)
   | None => Q (Raise IndexError)
   end) s (tick_choice w) ->
  wp (random_choice E l) Q s w.
Proof. unfold wp, random_choice. by destruct (_ !! _). Qed.

Lemma wp_select t Q s w :
  (match select_at E (n_select w) with
   | inl e => Q (Raise e)
   | inr rw => Q (Ret rw)
   end) s (tick_select w) ->
  wp (select_ E t) Q s w.
Proof. unfold wp, select_. by destruct (select_at _ _). Qed.
End WpRules.

Lemma wp_the_conn Q c w :
  (match _conn c with
   | Some s => Q (Ret s)
   | None => Q (Raise AttributeError)
   end) c w ->
  wp the_conn Q c w.
Proof. unfold wp, the_conn, bind, get_self. by destruct (_conn c). Qed.

Lemma wp_enter m Q c w :
  Q (Ret tt) c (log (EvCall (_conn c) m) w) -> wp (enter m) Q c w.
Proof. done. Qed.

Ltac wp_step :=
  lazymatch goal with
  | |- wp (bind _ _) _ _ _ => apply wp_bind
  | |- wp (try_except _ _) _ _ _ => apply wp_try
  | |- wp (ret _) _ _ _ => apply wp_ret
  | |- wp (raise _) _ _ _ => apply wp_raise
  | |- wp get_self _ _ _ => apply wp_get_self
  | |- wp (modify _) _ _ _ => apply wp_modify
  | |- wp (emit _) _ _ _ => apply wp_emit
  | |- wp (enter _) _ _ _ => apply wp_enter
  | |- wp the_conn _ _ _ => apply wp_the_conn
  | |- wp SOCKET_CLASS _ _ _ => apply wp_SOCKET_CLASS
  | |- wp (settimeout _ _) _ _ _ => apply wp_emit
  | |- wp (connect _ _ _ _) _ _ _ => apply wp_connect
  | |- wp (send_message _ _ _) _ _ _ => apply wp_send_message
  | |- wp (get_response _ _) _ _ _ => apply wp_get_response
  | |- wp (shutdown _ _) _ _ _ => apply wp_shutdown
  | |- wp (sock_close _ _) _ _ _ => apply wp_sock_close
  | |- wp (random_choice _ _) _ _ _ => apply wp_random_choice
  | |- wp (select_ _ _) _ _ _ => apply wp_select
  end.

Ltac wp_simpl :=
  cbn [n_exchange n_connect n_choice n_select n_teardown next_sock trace log
       tick_exchange tick_connect tick_choice tick_select tick_teardown tick_sock
       _conn _opened _session_key _in_transaction host port
       host_blacklist port_blacklist current_host current_port
       graph_name username password timeout graph_obj_name
       set_conn set_opened set_session_key set_in_transaction
       set_host_blacklist set_port_blacklist set_current_host set_current_port
       fst snd negb].

Ltac wp_go := repeat (wp_step; wp_simpl).

(** Case analysis on what the code branches on. *)
Ltac wp_case :=
  lazymatch goal with
  | |- wp (match ?x with _ => _ end) _ _ _ => destruct x eqn:?
  | |- wp (if ?b then _ else _) _ _ _ => destruct b eqn:?
  | |- match ?x with _ => _ end => destruct x eqn:?
  | |- (match ?x with _ => _ end) _ _ => destruct x eqn:?
  end.

Ltac wp_auto := repeat (first [wp_step | wp_case]; wp_simpl).

(** A call of a method with a proved specification [lem]. *)
Ltac wp_call lem :=
  lazymatch goal with
  | |- wp (bind _ _) _ _ _ => apply wp_bind
  | |- wp (try_except _ _) _ _ _ => apply wp_try
  | _ => idtac
  end;
  eapply wp_mono; [eapply lem | cbn beta; intros ? ? ? ?].

(** * Transaction state machine: misuse *)

(** C6, as amended: [open_transaction] on a connection that is in a
    transaction, and [close_transaction] on one that is not, raise
    [RexProScriptException], the fault of a script that the server could not
    run, with a fixed message, before anything is sent: the object,
    [_in_transaction] included, is left as it was and the trace gains the
    method entry only. *)
Theorem transaction_misuse_raises (E : Env) :
  (forall c w,
     _in_transaction c = true ->
     open_transaction E c w =
       (Raise (RexProScriptException "transaction is already open"), c,
        log (EvCall (_conn c) MOpenTransaction) w)) /\
  (forall success c w,
     _in_transaction c = false ->
     close_transaction E success c w =
       (Raise (RexProScriptException "transaction is not open"), c,
        log (EvCall (_conn c) (MCloseTransaction success)) w)).
Proof.
  split.
  - intros c w H.
    enough (wp (open_transaction E)
              (fun r c' w' => (r, c', w') =
                 (Raise (RexProScriptException "transaction is already open"), c,
                  log (EvCall (_conn c) MOpenTransaction) w)) c w) as Hwp.
    { unfold wp in Hwp. by destruct (open_transaction E c w) as [[??]?]. }
    unfold open_transaction. wp_go. rewrite H. by wp_go.
  - intros success c w H.
    enough (wp (close_transaction E success)
              (fun r c' w' => (r, c', w') =
                 (Raise (RexProScriptException "transaction is not open"), c,
                  log (EvCall (_conn c) (MCloseTransaction success)) w)) c w) as Hwp.
    { unfold wp in Hwp. by destruct (close_transaction E success c w) as [[??]?]. }
    unfold close_transaction. wp_go. rewrite H. by wp_go.
Qed.

Lemma transaction_misuse_raises_witness :
  let c := (run_ops friendly [OpOpen false; OpOpenTransaction] localhost world0).1 in
  let w := (run_ops friendly [OpOpen false; OpOpenTransaction] localhost world0).2 in
  _in_transaction c = true /\
  open_transaction friendly c w =
    (Raise (RexProScriptException "transaction is already open"), c,
     log (EvCall (_conn c) MOpenTransaction) w) /\
  close_transaction friendly true localhost world0 =
    (Raise (RexProScriptException "transaction is not open"), localhost,
     log (EvCall (_conn localhost) (MCloseTransaction true)) world0).
Proof.
  intros c w. destruct (transaction_misuse_raises friendly) as [Hopen Hclose].
  split; [reflexivity|]. split.
  - apply Hopen. reflexivity.
  - apply Hclose. reflexivity.
Defined.

(** C6, as stated, fails on the kind of the fault: it is not one reserved
    for misuse.  On a connection that is in a transaction,
    [close_transaction] is a proper call; when the server answers the commit,
    and the kill request that follows it, with a script error, the call
    raises the fault of that error, which is the very value that the same
    call raises on a connection that is in no transaction. *)
Lemma script_fault_without_misuse :
  let c := (run_ops objecting [OpOpen false; OpOpenTransaction] localhost world0).1 in
  let w := (run_ops objecting [OpOpen false; OpOpenTransaction] localhost world0).2 in
  _in_transaction c = true /\
  result (close_transaction objecting true c w) =
    Raise (RexProScriptException "transaction is not open") /\
  result (close_transaction objecting true localhost world0) =
    Raise (RexProScriptException "transaction is not open").
Proof. vm_compute. done. Qed.

(** * [close] *)

Lemma close_spec (E : Env) (soft : bool) (c : t) (w : World) :
  wp (close E soft)
     (fun r c' w' =>
        match _conn c with
        | None => r = Raise AttributeError /\ c' = c
        | Some s =>
            match reply_at E (n_exchange w) with
            | SendFails e | RecvFails e => r = Raise e /\ c' = c
            | Received resp =>
                r = match resp with ErrorResponse e => Raise e | _ => Ret tt end /\
                c' = set_in_transaction false
                       (set_session_key None
                          (if soft then c else set_opened false c))
            end
        end) c w.
Proof.
  unfold close. wp_go.
  destruct (_conn c) as [s|] eqn:Hs; wp_go; [|done].
  destruct (reply_at E (n_exchange w)) as [e|e|resp] eqn:Hr; wp_go;
    rewrite ?Hs; wp_go; rewrite ?Hr; wp_go; try done.
  destruct soft; wp_go; destruct resp; wp_go; done.
Qed.

(** C7, as amended: once the kill request has been answered (by an
    acknowledgement or by an error response), [close] has cleared
    [_session_key] and [_in_transaction]; a soft close leaves [_opened] and
    the socket handle as they were, a hard close sets [_opened] to false;
    an error response is raised after the state is cleared. *)
Theorem close_clears_once_answered (E : Env) (soft : bool) (c : t) (w : World)
    (s : Sock) (resp : Response) :
  _conn c = Some s ->
  reply_at E (n_exchange w) = Received resp ->
  result (close E soft c w) =
    match resp with ErrorResponse e => Raise e | _ => Ret tt end /\
  _session_key (self_after (close E soft c w)) = None /\
  _in_transaction (self_after (close E soft c w)) = false /\
  _opened (self_after (close E soft c w)) = (if soft then _opened c else false) /\
  _conn (self_after (close E soft c w)) = Some s.
Proof.
  intros Hs Hr. pose proof (close_spec E soft c w) as H.
  apply wp_run in H. rewrite Hs, Hr in H. destruct H as [-> ->].
  destruct soft; done.
Qed.

Lemma close_clears_once_answered_witness :
  let c := (run_ops friendly [OpOpen false; OpOpenTransaction] localhost world0).1 in
  let w := (run_ops friendly [OpOpen false; OpOpenTransaction] localhost world0).2 in
  _session_key c = Some "s1" /\ _in_transaction c = true /\
  result (close friendly true c w) = Ret tt /\
  _session_key (self_after (close friendly true c w)) = None /\
  _in_transaction (self_after (close friendly true c w)) = false /\
  _opened (self_after (close friendly true c w)) = true /\
  _conn (self_after (close friendly true c w)) = Some 0.
Proof.
  intros c w. split; [reflexivity|]. split; [reflexivity|].
  apply (close_clears_once_answered friendly true c w 0 (ScriptResponse []));
    reflexivity.
Defined.

(** C7, as stated, fails when the exchange itself fails: on a connection
    that is in a transaction and whose link has dropped, a hard [close]
    raises the socket fault and clears nothing. *)
Lemma close_keeps_state_when_link_drops :
  let '(c, w) := run_ops link_drops [OpOpen false; OpOpenTransaction] localhost world0 in
  result (close link_drops false c w) = Raise SocketError /\
  _session_key (self_after (close link_drops false c w)) = Some "s1" /\
  _in_transaction (self_after (close link_drops false c w)) = true /\
  _opened (self_after (close link_drops false c w)) = true.
Proof. vm_compute. done. Qed.

(** * What every method keeps *)

(** [connection_failed] touches the two blacklists and nothing else, and
    adds its entry to the trace. *)
Lemma connection_failed_frame (c : t) (w : World) :
  wp connection_failed
     (fun _ c' w' =>
        w' = log (EvCall (_conn c) MConnectionFailed) w /\
        c' = set_host_blacklist (host_blacklist c')
               (set_port_blacklist (port_blacklist c') c)) c w.
Proof.
  unfold connection_failed. wp_auto; destruct c; done.
Qed.

Lemma same_config_refl c : same_config c c.
Proof. by repeat split. Qed.

Lemma same_config_trans c1 c2 c3 :
  same_config c1 c2 -> same_config c2 c3 -> same_config c1 c3.
Proof.
  unfold same_config. intros (?&?&?&?&?&?&?) (?&?&?&?&?&?&?).
  repeat split; congruence.
Qed.

Section Keeps.
Context (E : Env) (Inv : t -> Prop) (P : event -> Prop).

Local Abbreviation keeps := (keeps Inv P).

Lemma keeps_refl σ : keeps σ σ.
Proof.
  split; [apply same_config_refl|]. intros H. split; [done|].
  exists []. by rewrite app_nil_r.
Qed.

Lemma keeps_trans σ1 σ2 σ3 : keeps σ1 σ2 -> keeps σ2 σ3 -> keeps σ1 σ3.
Proof.
  intros [Hc1 H1] [Hc2 H2]. split; [by eapply same_config_trans|].
  intros HI. destruct (H1 HI) as (HI2 & d1 & Ht1 & Hd1).
  destruct (H2 HI2) as (HI3 & d2 & Ht2 & Hd2). split; [done|].
  exists (d1 ++ d2). rewrite Ht2, Ht1, app_assoc. split; [done|].
  by apply Forall_app.
Qed.

Hypothesis P_lifecycle : forall ev, lifecycle ev = true -> P ev.
Hypothesis P_draw_host : forall c l r,
  Inv c -> host c = PyList l ->
  let choices := elements (list_to_set l ∖ host_blacklist c : gset atom) in
  P (EvDraw Host l (host_blacklist c) (choices !! (r mod length choices))).
Hypothesis P_draw_port : forall c l r,
  Inv c -> port c = PyList l ->
  let choices := elements (list_to_set l ∖ port_blacklist c : gset atom) in
  P (EvDraw Port l (port_blacklist c) (choices !! (r mod length choices))).
Hypothesis Inv_set_conn : forall v c, Inv c -> Inv (set_conn v c).
Hypothesis Inv_set_current_host : forall v c, Inv c -> Inv (set_current_host v c).
Hypothesis Inv_set_current_port : forall v c, Inv c -> Inv (set_current_port v c).
Hypothesis Inv_reset : forall c,
  Inv c -> Inv (set_opened true (set_session_key None (set_in_transaction false c))).
Hypothesis Inv_session : forall key c,
  Inv c -> _opened c = true -> Inv (set_session_key (Some key) c).
Hypothesis Inv_close : forall (soft : bool) c,
  Inv c ->
  Inv (set_in_transaction false
         (set_session_key None (if soft then c else set_opened false c))).
Hypothesis Inv_failed : forall c w, Inv c -> Inv (self_after (connection_failed c w)).
Hypothesis Inv_end_transaction : forall c, Inv c -> Inv (set_in_transaction false c).

(** One more step after a run that [keeps]. *)
Lemma keeps_state σ0 c c' w :
  same_config c c' -> (Inv c -> Inv c') -> keeps σ0 (c, w) -> keeps σ0 (c', w).
Proof.
  intros Hc HI Hk. eapply keeps_trans; [exact Hk|].
  split; [done|]. intros H. split; [auto|]. exists []. by rewrite app_nil_r.
Qed.

Lemma keeps_world σ0 c w w' :
  trace w' = trace w -> keeps σ0 (c, w) -> keeps σ0 (c, w').
Proof.
  intros Ht Hk. eapply keeps_trans; [exact Hk|].
  split; [apply same_config_refl|]. intros H. split; [done|].
  exists []. cbn. by rewrite Ht, app_nil_r.
Qed.

Lemma keeps_log σ0 c w ev :
  (Inv c -> P ev) -> keeps σ0 (c, w) -> keeps σ0 (c, log ev w).
Proof.
  intros Hev Hk. eapply keeps_trans; [exact Hk|].
  split; [apply same_config_refl|]. intros H. split; [done|].
  exists [ev]. split; [done|]. constructor; auto.
Qed.

Lemma keeps_set_conn σ0 v c w : keeps σ0 (c, w) -> keeps σ0 (set_conn v c, w).
Proof. apply keeps_state; [done | apply Inv_set_conn]. Qed.

Lemma keeps_set_current_host σ0 v c w :
  keeps σ0 (c, w) -> keeps σ0 (set_current_host v c, w).
Proof. apply keeps_state; [done | apply Inv_set_current_host]. Qed.

Lemma keeps_set_current_port σ0 v c w :
  keeps σ0 (c, w) -> keeps σ0 (set_current_port v c, w).
Proof. apply keeps_state; [done | apply Inv_set_current_port]. Qed.

Lemma keeps_reset σ0 c w :
  keeps σ0 (c, w) ->
  keeps σ0 (set_opened true (set_session_key None (set_in_transaction false c)), w).
Proof. apply keeps_state; [done | apply Inv_reset]. Qed.

Lemma keeps_session σ0 key c w :
  _opened c = true -> keeps σ0 (c, w) ->
  keeps σ0 (set_session_key (Some key) c, w).
Proof. intros Ho. apply keeps_state; [done | intros; by apply Inv_session]. Qed.

Lemma keeps_end_transaction σ0 c w :
  keeps σ0 (c, w) -> keeps σ0 (set_in_transaction false c, w).
Proof. apply keeps_state; [done | apply Inv_end_transaction]. Qed.

Lemma keeps_closed σ0 (soft : bool) c w :
  keeps σ0 (c, w) ->
  keeps σ0 (set_in_transaction false
              (set_session_key None (if soft then c else set_opened false c)), w).
Proof. apply keeps_state; [destruct soft; done | apply Inv_close]. Qed.

Lemma keeps_tick_sock σ0 c w : keeps σ0 (c, w) -> keeps σ0 (c, tick_sock w).
Proof. by apply keeps_world. Qed.

Lemma keeps_tick_connect σ0 c w : keeps σ0 (c, w) -> keeps σ0 (c, tick_connect w).
Proof. by apply keeps_world. Qed.

Lemma keeps_tick_exchange σ0 c w : keeps σ0 (c, w) -> keeps σ0 (c, tick_exchange w).
Proof. by apply keeps_world. Qed.

Lemma keeps_tick_choice σ0 c w : keeps σ0 (c, w) -> keeps σ0 (c, tick_choice w).
Proof. by apply keeps_world. Qed.

Lemma keeps_tick_select σ0 c w : keeps σ0 (c, w) -> keeps σ0 (c, tick_select w).
Proof. by apply keeps_world. Qed.

Lemma keeps_tick_teardown σ0 c w : keeps σ0 (c, w) -> keeps σ0 (c, tick_teardown w).
Proof. by apply keeps_world. Qed.

Lemma keeps_log_lifecycle σ0 c w ev :
  lifecycle ev = true -> keeps σ0 (c, w) -> keeps σ0 (c, log ev w).
Proof. intros H. apply keeps_log. intros _. by apply P_lifecycle. Qed.

Ltac keeps_peel :=
  repeat
    (lazymatch goal with
     | H : keeps _ (?c, ?w) |- keeps _ (?c, ?w) => exact H
     | |- keeps _ (_, tick_sock _) => apply keeps_tick_sock
     | |- keeps _ (_, tick_connect _) => apply keeps_tick_connect
     | |- keeps _ (_, tick_exchange _) => apply keeps_tick_exchange
     | |- keeps _ (_, tick_choice _) => apply keeps_tick_choice
     | |- keeps _ (_, tick_select _) => apply keeps_tick_select
     | |- keeps _ (_, tick_teardown _) => apply keeps_tick_teardown
     | |- keeps _ (_, log _ _) =>
         first [ apply keeps_log_lifecycle; [reflexivity|]
               | apply keeps_log; [intros _; solve [eauto]|] ]
     | |- keeps _ (set_conn _ _, _) => apply keeps_set_conn
     | |- keeps _ (set_current_host _ _, _) => apply keeps_set_current_host
     | |- keeps _ (set_current_port _ _, _) => apply keeps_set_current_port
     | |- keeps _ (set_opened true (set_session_key None (set_in_transaction false _)), _) =>
         apply keeps_reset
     | |- keeps _ (set_in_transaction false (set_session_key None (set_opened false _)), _) =>
         apply (keeps_closed _ false)
     | |- keeps _ (set_in_transaction false (set_session_key None _), _) =>
         apply (keeps_closed _ true)
     | |- keeps _ (set_in_transaction false _, _) => apply keeps_end_transaction
     | |- keeps _ (set_session_key (Some _) _, _) => apply keeps_session; [reflexivity|]
     end).

Lemma keeps_connection_failed σ0 c w :
  keeps σ0 (c, w) ->
  wp connection_failed (fun _ c' w' => keeps σ0 (c', w')) c w.
Proof.
  intros Hk. apply wp_run.
  pose proof (connection_failed_frame c w) as H. apply wp_run in H.
  destruct H as [Hw Hc]. rewrite Hw.
  apply keeps_log_lifecycle; [done|].
  eapply keeps_state; [| apply (Inv_failed c w) | exact Hk].
  rewrite Hc. done.
Qed.

Lemma keeps_open_session σ0 c w :
  _opened c = true \/ (forall key c, Inv c -> Inv (set_session_key (Some key) c)) ->
  keeps σ0 (c, w) ->
  wp (_open_session E) (fun _ c' w' => keeps σ0 (c', w')) c w.
Proof.
  intros Ho Hk. unfold _open_session. wp_auto; keeps_peel.
  all: destruct Ho as [Ho|Ho];
    [ apply keeps_session; [done|]
    | eapply keeps_state; [| apply (Ho session_key) |]; [done|] ];
    keeps_peel.
Qed.

Lemma keeps_close σ0 soft c w :
  keeps σ0 (c, w) ->
  wp (close E soft) (fun _ c' w' => keeps σ0 (c', w')) c w.
Proof.
  intros Hk. unfold close. wp_auto; keeps_peel.
Qed.

Lemma keeps_draw_host σ0 c w l bl :
  keeps σ0 (c, w) -> host c = PyList l -> bl = host_blacklist c ->
  wp (draw E Host l bl) (fun _ c' w' => c' = c /\ keeps σ0 (c', w')) c w.
Proof.
  intros Hk Hl ->. unfold draw. wp_auto; (split; [done|]).
  all: apply keeps_log; [|by keeps_peel].
  all: intros HI; match goal with H : _ !! _ = _ |- _ => rewrite <- H end.
  all: by apply P_draw_host.
Qed.

Lemma keeps_draw_port σ0 c w l bl :
  keeps σ0 (c, w) -> port c = PyList l -> bl = port_blacklist c ->
  wp (draw E Port l bl) (fun _ c' w' => c' = c /\ keeps σ0 (c', w')) c w.
Proof.
  intros Hk Hl ->. unfold draw. wp_auto; (split; [done|]).
  all: apply keeps_log; [|by keeps_peel].
  all: intros HI; match goal with H : _ !! _ = _ |- _ => rewrite <- H end.
  all: by apply P_draw_port.
Qed.

(** Calls of methods whose lemma is proved above. *)
Ltac keeps_call :=
  lazymatch goal with
  | |- wp (draw _ Host _ _) _ _ _ =>
      eapply wp_mono;
      [ apply keeps_draw_host; [keeps_peel | wp_simpl; eassumption | reflexivity]
      | cbn beta; intros ? ? ? [-> ?] ]
  | |- wp (draw _ Port _ _) _ _ _ =>
      eapply wp_mono;
      [ apply keeps_draw_port; [keeps_peel | wp_simpl; eassumption | reflexivity]
      | cbn beta; intros ? ? ? [-> ?] ]
  | |- wp connection_failed _ _ _ =>
      eapply wp_mono;
      [ apply keeps_connection_failed; keeps_peel | cbn beta; intros ? ? ? ? ]
  | |- wp (_open_session _) _ _ _ =>
      eapply wp_mono;
      [ apply keeps_open_session; [first [left; reflexivity | right; assumption] | keeps_peel]
      | cbn beta; intros ? ? ? ? ]
  | |- wp (close _ _) _ _ _ =>
      eapply wp_mono;
      [ apply keeps_close; keeps_peel | cbn beta; intros ? ? ? ? ]
  end.

Ltac keeps_auto :=
  repeat (first [wp_step | wp_case | keeps_call]; wp_simpl); keeps_peel.

Lemma keeps_open_connect σ0 c w :
  keeps σ0 (c, w) ->
  wp (open_connect E) (fun _ c' w' => keeps σ0 (c', w')) c w.
Proof. intros Hk. unfold open_connect. keeps_auto. Qed.

Lemma keeps_open_attempt σ0 i soft c w :
  keeps σ0 (c, w) ->
  wp (open_attempt E i soft) (fun _ c' w' => keeps σ0 (c', w')) c w.
Proof.
  intros Hk. unfold open_attempt.
  apply wp_bind. eapply wp_mono.
  { instantiate (1 := fun _ c' w' => keeps σ0 (c', w')).
    destruct soft; wp_simpl; [by wp_go | by apply keeps_open_connect]. }
  cbn beta. intros r c' w' Hk'. keeps_auto.
Qed.

Lemma keeps_open_loop σ0 attempts soft c w :
  keeps σ0 (c, w) ->
  wp (open_loop E attempts soft) (fun _ c' w' => keeps σ0 (c', w')) c w.
Proof.
  revert soft c w. induction attempts as [|i rest IH]; intros soft c w Hk.
  - by wp_go.
  - cbn [open_loop]. apply wp_bind. eapply wp_mono.
    { by apply keeps_open_attempt. }
    cbn beta. intros [[[]|soft']|e] c' w' Hk'; [by wp_go | by apply IH | done].
Qed.

Lemma keeps_open σ0 soft c w :
  keeps σ0 (c, w) ->
  wp (open E soft) (fun _ c' w' => keeps σ0 (c', w')) c w.
Proof.
  intros Hk. unfold open. wp_go. apply keeps_open_loop. keeps_peel.
Qed.

(** [execute] and what is built on it.  The script requests and the entries
    of these methods are not life-cycle events: [P] has to hold of them. *)
Section Execute.
Hypothesis P_execute : forall s, P (EvCall s MExecute).
Hypothesis P_script_plain : forall s script params key isolate,
  P (EvSend s (ScriptRequest script params key isolate false)).

Ltac keeps_call ::=
  lazymatch goal with
  | |- wp connection_failed _ _ _ =>
      eapply wp_mono;
      [ apply keeps_connection_failed; keeps_peel | cbn beta; intros ? ? ? ? ]
  | |- wp (close _ _) _ _ _ =>
      eapply wp_mono;
      [ apply keeps_close; keeps_peel | cbn beta; intros ? ? ? ? ]
  | |- wp (open _ _) _ _ _ =>
      eapply wp_mono;
      [ apply keeps_open; keeps_peel | cbn beta; intros ? ? ? ? ]
  | |- wp (_open_session _) _ _ _ =>
      eapply wp_mono;
      [ apply keeps_open_session; [first [left; reflexivity | right; assumption] | keeps_peel]
      | cbn beta; intros ? ? ? ? ]
  end.

Lemma keeps_execute_attempt σ0 i script params isolate transaction c w :
  keeps σ0 (c, w) ->
  (forall s key,
     P (EvSend s (ScriptRequest script params key isolate
                    (if _in_transaction c then false else transaction)))) ->
  wp (execute_attempt E i script params isolate transaction)
     (fun r c' w' =>
        keeps σ0 (c', w') /\
        forall transaction', r = Ret (Continue transaction') ->
          transaction' = (if _in_transaction c then false else transaction)) c w.
Proof.
  intros Hk Hs. unfold execute_attempt.
  repeat (first [wp_step | wp_case | keeps_call]; wp_simpl).
  all: split; [keeps_peel | intros ?; congruence].
Qed.

(** The same from the first request on: [σ0] may be the point at which
    that request has just been sent. *)
Lemma keeps_execute_attempt_sent σ0 i script params isolate transaction c w s :
  _conn c = Some s ->
  keeps σ0 (c, log (EvSend s (ScriptRequest script params (_session_key c) isolate
                               (if _in_transaction c then false else transaction)))
                   w) ->
  wp (execute_attempt E i script params isolate transaction)
     (fun r c' w' =>
        keeps σ0 (c', w') /\
        forall transaction', r = Ret (Continue transaction') ->
          transaction' = (if _in_transaction c then false else transaction)) c w.
Proof.
  intros Hconn Hk. unfold execute_attempt.
  repeat (first [wp_step | rewrite Hconn | wp_case | keeps_call]; wp_simpl).
  all: split; [keeps_peel | intros ?; congruence].
Qed.

Lemma keeps_execute_loop σ0 attempts script params isolate transaction c w :
  keeps σ0 (c, w) ->
  (_in_transaction c = true \/
   forall s key, P (EvSend s (ScriptRequest script params key isolate transaction))) ->
  wp (execute_loop E attempts script params isolate transaction)
     (fun _ c' w' => keeps σ0 (c', w')) c w.
Proof.
  revert transaction c w.
  induction attempts as [|i rest IH]; intros transaction c w Hk Hs.
  - by wp_go.
  - assert (forall s key,
              P (EvSend s (ScriptRequest script params key isolate
                             (if _in_transaction c then false else transaction))))
      as Hflag.
    { intros s key. destruct Hs as [->|Hs]; [apply P_script_plain|].
      destruct (_in_transaction c); [apply P_script_plain | apply Hs]. }
    cbn [execute_loop]. apply wp_bind. eapply wp_mono.
    { by apply keeps_execute_attempt. }
    cbn beta. intros [[results|transaction']|e] c' w' [Hk' Htx]; [by wp_go | | done].
    apply IH; [done|]. right. rewrite (Htx _ eq_refl). exact Hflag.
Qed.

Lemma keeps_execute σ0 script params isolate transaction c w :
  keeps σ0 (c, w) ->
  (_in_transaction c = true \/
   forall s key, P (EvSend s (ScriptRequest script params key isolate transaction))) ->
  wp (execute E script params isolate transaction)
     (fun _ c' w' => keeps σ0 (c', w')) c w.
Proof.
  intros Hk Hs. unfold execute. wp_go. apply keeps_execute_loop; [|done].
  keeps_peel.
Qed.

Lemma keeps_open_transaction σ0 c w :
  (forall s, P (EvCall s MOpenTransaction)) ->
  (forall c, Inv c -> Inv (set_in_transaction true c)) ->
  keeps σ0 (c, w) ->
  wp (open_transaction E) (fun _ c' w' => keeps σ0 (c', w')) c w.
Proof.
  intros Hcall Hbegin Hk. unfold open_transaction. wp_auto; keeps_peel.
  eapply wp_mono.
  { apply keeps_execute; [keeps_peel | right; intros; apply P_script_plain]. }
  cbn beta. intros [?|?] c' w' Hk'; wp_go; [|done].
  eapply keeps_state; [| apply Hbegin | exact Hk']. done.
Qed.

Lemma keeps_close_transaction σ0 success c w :
  (forall s, P (EvCall s (MCloseTransaction success))) ->
  keeps σ0 (c, w) ->
  wp (close_transaction E success) (fun _ c' w' => keeps σ0 (c', w')) c w.
Proof.
  intros Hcall Hk. unfold close_transaction. wp_auto; keeps_peel.
  eapply wp_mono.
  { apply keeps_execute; [keeps_peel | right; intros; apply P_script_plain]. }
  cbn beta. intros [?|?] c' w' Hk'; wp_go; keeps_peel.
Qed.

End Execute.

(** The health check; its handshake may run on a connection that is not
    [_opened]. *)
Section TestConnection.
Hypothesis P_test : forall s, P (EvCall s MTestConnection).
Hypothesis Inv_session_any : forall key c, Inv c -> Inv (set_session_key (Some key) c).
Hypothesis Inv_forget : forall c,
  Inv c -> Inv (set_session_key None (set_in_transaction false c)).

Lemma keeps_forget σ0 c w :
  keeps σ0 (c, w) ->
  keeps σ0 (set_session_key None (set_in_transaction false c), w).
Proof. apply keeps_state; [done | apply Inv_forget]. Qed.

Lemma keeps_reconnect_attempt σ0 timeout_ c w :
  keeps σ0 (c, w) ->
  wp (reconnect_attempt E timeout_) (fun _ c' w' => keeps σ0 (c', w')) c w.
Proof.
  intros Hk. unfold reconnect_attempt.
  repeat (first [wp_step | wp_case]; wp_simpl); keeps_peel.
  all: eapply wp_mono;
    [ apply keeps_open_session; [right; exact Inv_session_any|];
      apply keeps_forget; keeps_peel
    | cbn beta; intros [?|?] ? ? ?; by wp_go ].
Qed.

Lemma keeps_reconnect_loop σ0 timeouts c w :
  keeps σ0 (c, w) ->
  wp (reconnect_loop E timeouts) (fun _ c' w' => keeps σ0 (c', w')) c w.
Proof.
  revert c w. induction timeouts as [|timeout_ rest IH]; intros c w Hk.
  - by wp_go.
  - cbn [reconnect_loop]. apply wp_bind. eapply wp_mono.
    { by apply keeps_reconnect_attempt. }
    cbn beta. intros [[]|e] c' w' Hk'; [by wp_go | by apply IH | done].
Qed.

Lemma keeps_test_connection σ0 c w :
  keeps σ0 (c, w) ->
  wp (test_connection E) (fun _ c' w' => keeps σ0 (c', w')) c w.
Proof.
  intros Hk. unfold test_connection. wp_auto; keeps_peel.
  apply keeps_reconnect_loop. keeps_peel.
Qed.

End TestConnection.

End Keeps.

(** * The pool: what a new connection is built from *)

(** [open] leaves the configuration alone. *)
Lemma open_same_config (E : Env) (soft : bool) (c : t) (w : World) :
  same_config c (self_after (open E soft c w)).
Proof.
  assert (wp (open E soft)
            (fun _ c' w' =>
               keeps (fun _ => True) (fun _ => True) (c, w) (c', w')) c w) as H.
  { apply keeps_open; try done. apply keeps_refl. }
  apply wp_run in H. by destruct H.
Qed.

(** C8, as amended: the connection that [_create_connection] builds takes,
    for each of its seven fields, the override when the override is true in
    the sense of Python ([truthy]: not [None], not [0], not the empty string
    or list), and the default of the pool otherwise. *)
Theorem create_connection_merges (E : Env) (p : RexProBaseConnectionPool.t)
    (kw : RexProBaseConnectionPool.kwargs) (w : World) (c : t) :
  result (RexProBaseConnectionPool._create_connection E kw p w) = Ret c ->
  host c = (if truthy (RexProBaseConnectionPool.kw_host kw)
            then RexProBaseConnectionPool.kw_host kw
            else RexProBaseConnectionPool.host p) /\
  port c = (if truthy (RexProBaseConnectionPool.kw_port kw)
            then RexProBaseConnectionPool.kw_port kw
            else RexProBaseConnectionPool.port p) /\
  graph_name c = (if truthy (RexProBaseConnectionPool.kw_graph_name kw)
                  then RexProBaseConnectionPool.kw_graph_name kw
                  else RexProBaseConnectionPool.graph_name p) /\
  graph_obj_name c = (if truthy (RexProBaseConnectionPool.kw_graph_obj_name kw)
                      then RexProBaseConnectionPool.kw_graph_obj_name kw
                      else RexProBaseConnectionPool.graph_obj_name p) /\
  username c = (if truthy (RexProBaseConnectionPool.kw_username kw)
                then RexProBaseConnectionPool.kw_username kw
                else RexProBaseConnectionPool.username p) /\
  password c = (if truthy (RexProBaseConnectionPool.kw_password kw)
                then RexProBaseConnectionPool.kw_password kw
                else RexProBaseConnectionPool.password p) /\
  timeout c = (if truthy (RexProBaseConnectionPool.kw_timeout kw)
               then RexProBaseConnectionPool.kw_timeout kw
               else RexProBaseConnectionPool.timeout p).
Proof.
  unfold RexProBaseConnectionPool._create_connection,
    RexProBaseConnectionPool.CONN_CLASS, new, __init__, result.
  unfold bind at 1, get_self. cbn [fst snd].
  unfold bind at 1, modify.
  match goal with
  | |- context [open E false ?b w] =>
      pose proof (open_same_config E false b w) as Hcfg;
      unfold self_after in Hcfg;
      destruct (open E false b w) as [[[[]|e] c'] w'] eqn:Hopen
  end; cbn; [|done].
  intros [= <-]. destruct Hcfg as (?&?&?&?&?&?&?). by repeat split.
Qed.

Lemma anonymous_connection_built :
  result (RexProBaseConnectionPool._create_connection friendly anonymous
            guarded_pool world0) = Ret anonymous_connection.
Proof. vm_compute. reflexivity. Qed.

Lemma create_connection_merges_witness :
  result (RexProBaseConnectionPool._create_connection friendly anonymous
            guarded_pool world0) = Ret anonymous_connection /\
  host anonymous_connection = Atom (PStr "localhost") /\
  username anonymous_connection = Atom (PStr "admin").
Proof.
  split; [exact anonymous_connection_built|].
  destruct (create_connection_merges friendly guarded_pool anonymous world0
              anonymous_connection anonymous_connection_built)
    as (Hh & _ & _ & _ & Hu & _).
  split; [exact Hh | exact Hu].
Defined.

(** C8, as stated, fails for overrides that are given but false in the
    sense of Python: the caller asks for the empty user name, the empty
    password and timeout 0, and the connection is built with the user name,
    password and timeout of the pool. *)
Lemma falsy_overrides_lose :
  result (RexProBaseConnectionPool._create_connection friendly anonymous
            guarded_pool world0) = Ret anonymous_connection /\
  RexProBaseConnectionPool.kw_username anonymous = Atom (PStr "") /\
  username anonymous_connection = Atom (PStr "admin") /\
  RexProBaseConnectionPool.kw_password anonymous = Atom (PStr "") /\
  password anonymous_connection = Atom (PStr "secret") /\
  RexProBaseConnectionPool.kw_timeout anonymous = Atom (PInt 0) /\
  timeout anonymous_connection = Atom (PInt 30).
Proof. vm_compute. done. Qed.

(** * The pool: shutdown *)

Lemma entries_app d1 d2 : entries (d1 ++ d2) = entries d1 ++ entries d2.
Proof. apply omap_app. Qed.

Lemma wp_call {A} (conn : t) (m : M t A) Q (p : RexProBaseConnectionPool.t) w :
  wp m (fun r conn' w' => Q (Ret (r, conn')) p w') conn w ->
  wp (RexProBaseConnectionPool.call conn m) Q p w.
Proof.
  unfold wp, RexProBaseConnectionPool.call. by destruct (m conn w) as [[??]?].
Qed.

(** [close] enters once and calls no other method. *)
Lemma close_entries (E : Env) (soft : bool) (c : t) (w : World) :
  wp (close E soft)
     (fun _ _ w' =>
        exists d, trace w' = trace w ++ d /\ entries d = [(_conn c, MClose soft)])
     c w.
Proof.
  unfold close. wp_auto.
  all: try (eexists [_]; split; [reflexivity|reflexivity]).
  all: try (eexists [_; _]; split; [by rewrite <- app_assoc|reflexivity]).
Qed.

(** [close] grows the trace by its own entry and by no other. *)
Lemma close_run (E : Env) (soft : bool) (c : t) (w : World) :
  wp (close E soft)
     (fun _ _ w' =>
        w' = world_after (close E soft c w) /\
        exists d, trace w' = trace w ++ d /\ entries d = [(_conn c, MClose soft)])
     c w.
Proof.
  apply wp_run. split; [done|].
  apply (wp_run (close E soft)
           (fun _ _ w' =>
              exists d, trace w' = trace w ++ d /\
                entries d = [(_conn c, MClose soft)])).
  apply close_entries.
Qed.

Lemma close_all_loop_spec (E : Env) (n : nat) (p : RexProBaseConnectionPool.t)
    (w : World) :
  length (RexProBaseConnectionPool.pool p) <= n ->
  wp (RexProBaseConnectionPool.close_all_loop E n)
     (fun r p' w' =>
        r = Ret tt /\
        p' = RexProBaseConnectionPool.set_pool [] p /\
        w' = closes E (RexProBaseConnectionPool.pool p) w /\
        exists d, trace w' = trace w ++ d /\
          entries d = map (fun c => (_conn c, MClose false))
                          (RexProBaseConnectionPool.pool p)) p w.
Proof.
  revert p w. induction n as [|n IH]; intros p w Hn.
  - destruct p as [? ? ? ? ? ? ? q]. cbn in Hn.
    destruct q; [|cbn in Hn; lia].
    cbn [RexProBaseConnectionPool.close_all_loop]. wp_go.
    repeat split. exists []. by rewrite app_nil_r.
  - cbn [RexProBaseConnectionPool.close_all_loop]. wp_go.
    destruct p as [? ? ? ? ? ? ? q]. cbn [RexProBaseConnectionPool.pool] in *.
    destruct q as [|conn rest]; wp_go.
    { repeat split. exists []. by rewrite app_nil_r. }
    apply wp_call. apply wp_try. eapply wp_mono; [apply close_run|].
    cbn beta. intros r conn' w' (Hw & d & Ht & Hd).
    assert (wp (RexProBaseConnectionPool.close_all_loop E n)
              (fun r0 p' w'0 =>
                 r0 = Ret tt /\
                 p' = RexProBaseConnectionPool.set_pool []
                        (RexProBaseConnectionPool.set_pool rest
                           {| RexProBaseConnectionPool.host := host0;
                              RexProBaseConnectionPool.port := port0;
                              RexProBaseConnectionPool.graph_name := graph_name0;
                              RexProBaseConnectionPool.graph_obj_name := graph_obj_name0;
                              RexProBaseConnectionPool.username := username0;
                              RexProBaseConnectionPool.password := password0;
                              RexProBaseConnectionPool.timeout := timeout0;
                              RexProBaseConnectionPool.pool := conn :: rest |}) /\
                 w'0 = closes E rest w' /\
                 exists d', trace w'0 = trace w' ++ d' /\
                   entries d' = map (fun c => (_conn c, MClose false)) rest)
              (RexProBaseConnectionPool.set_pool rest
                 {| RexProBaseConnectionPool.host := host0;
                    RexProBaseConnectionPool.port := port0;
                    RexProBaseConnectionPool.graph_name := graph_name0;
                    RexProBaseConnectionPool.graph_obj_name := graph_obj_name0;
                    RexProBaseConnectionPool.username := username0;
                    RexProBaseConnectionPool.password := password0;
                    RexProBaseConnectionPool.timeout := timeout0;
                    RexProBaseConnectionPool.pool := conn :: rest |}) w') as Hrest.
    { apply IH. cbn in *. lia. }
    destruct r as [[]|e]; wp_go.
    all: eapply wp_mono; [exact Hrest|].
    all: cbn beta; intros r0 p' w'0 (-> & -> & Hw' & d' & Ht' & Hd').
    all: repeat split.
    all: try (rewrite Hw'; cbn [closes]; by rewrite Hw).
    all: exists (d ++ d'); rewrite Ht', Ht, app_assoc; split; [done|].
    all: rewrite entries_app, Hd, Hd'; done.
Qed.

(** C9: [close_all] returns normally from every pool and every world,
    whatever the [close] of each connection does.  The idle queue is empty
    afterwards and the rest of the pool is as it was.  The world is the one
    that a hard [close] of each idle connection, run one after the other in
    queue order, leaves ([closes]): every one of them is run, on the
    connection as it was in the queue, also after one of them has raised.
    The methods entered on the way are exactly these, one hard [close] for
    each idle connection. *)
Theorem close_all_drains (E : Env) (p : RexProBaseConnectionPool.t) (w : World) :
  result (RexProBaseConnectionPool.close_all E p w) = Ret tt /\
  self_after (RexProBaseConnectionPool.close_all E p w) =
    RexProBaseConnectionPool.set_pool [] p /\
  world_after (RexProBaseConnectionPool.close_all E p w) =
    closes E (RexProBaseConnectionPool.pool p) w /\
  exists d,
    trace (world_after (RexProBaseConnectionPool.close_all E p w)) = trace w ++ d /\
    entries d = map (fun c => (_conn c, MClose false))
                    (RexProBaseConnectionPool.pool p).
Proof.
  apply (wp_run (RexProBaseConnectionPool.close_all E)
           (fun r p' w' =>
              r = Ret tt /\ p' = RexProBaseConnectionPool.set_pool [] p /\
              w' = closes E (RexProBaseConnectionPool.pool p) w /\
              exists d, trace w' = trace w ++ d /\
                entries d = map (fun c => (_conn c, MClose false))
                                (RexProBaseConnectionPool.pool p))).
  unfold RexProBaseConnectionPool.close_all. wp_go.
  by apply close_all_loop_spec.
Qed.

(** A shutdown in which every [close] raises.  Two connections wait in the
    queue: one that was never opened and has no socket, and one opened over a
    link that has dropped since.  The hard [close] of the first raises
    [AttributeError], that of the second the socket fault; [close_all]
    returns, the queue is empty, and both have been closed: the kill request
    of the second has gone out. *)
Lemma close_all_swallows_faults :
  let c := (run_ops link_drops [OpOpen false; OpOpenTransaction] localhost world0).1 in
  let w := (run_ops link_drops [OpOpen false; OpOpenTransaction] localhost world0).2 in
  let p := RexProBaseConnectionPool.set_pool [localhost; c] guarded_pool in
  let w1 := world_after (close link_drops false localhost w) in
  result (close link_drops false localhost w) = Raise AttributeError /\
  result (close link_drops false c w1) = Raise SocketError /\
  result (RexProBaseConnectionPool.close_all link_drops p w) = Ret tt /\
  self_after (RexProBaseConnectionPool.close_all link_drops p w) = guarded_pool /\
  drop (length (trace w))
       (trace (world_after (RexProBaseConnectionPool.close_all link_drops p w))) =
    [EvCall None (MClose false); EvCall (Some 0) (MClose false);
     EvSend 0 (SessionRequest None None (Atom (PStr "graph")) (Some (Some "s1"))
                 (Some true))].
Proof. vm_compute. done. Qed.

(** * [execute] inside a transaction *)

Lemma execute_loop_cons E i rest script params isolate transaction :
  execute_loop E (i :: rest) script params isolate transaction =
  (r <- execute_attempt E i script params isolate transaction ;;
   match r with
   | Returned results => ret (Some results)
   | Continue transaction' => execute_loop E rest script params isolate transaction'
   end).
Proof. reflexivity. Qed.

Lemma lifecycle_plain ev : lifecycle ev = true -> plain_script ev.
Proof. destruct ev as [| | | | | | |? []]; done. Qed.

(** C5: whatever [transaction] flag the caller passes, every script request
    that [execute] sends from a connection that is in a transaction carries
    [in_transaction = false], retries included; and when the connection has
    a socket the first thing [execute] does is to send such a request. *)
Theorem execute_in_transaction_sends_plain (E : Env) (script : string)
    (params : list (string * pyval)) (isolate transaction : bool)
    (c : t) (w : World) :
  _in_transaction c = true ->
  exists d,
    trace (world_after (execute E script params isolate transaction c w))
      = trace w ++ d /\
    Forall plain_script d /\
    forall s, _conn c = Some s ->
      exists d',
        d = EvCall (Some s) MExecute ::
            EvSend s (ScriptRequest script params (_session_key c) isolate false) ::
            d'.
Proof.
  intros Htx.
  apply (wp_run (execute E script params isolate transaction)
           (fun _ _ w' =>
              exists d, trace w' = trace w ++ d /\ Forall plain_script d /\
                forall s, _conn c = Some s ->
                  exists d', d = EvCall (Some s) MExecute ::
                    EvSend s (ScriptRequest script params (_session_key c)
                                isolate false) :: d')).
  destruct (_conn c) as [s|] eqn:Hconn.
  - (* from the first request on *)
    set (w1 := log (EvSend s (ScriptRequest script params (_session_key c)
                                isolate false))
                   (log (EvCall (Some s) MExecute) w)).
    assert (wp (execute E script params isolate transaction)
              (fun _ c' w' =>
                 keeps (fun _ => True) plain_script (c, w1) (c', w')) c w) as H.
    { unfold execute. wp_go. rewrite Hconn.
      change (seq 0 CONNECTION_ATTEMPTS) with (0 :: seq 1 2).
      rewrite execute_loop_cons.
      apply wp_bind. eapply wp_mono.
      { eapply (keeps_execute_attempt_sent E (fun _ => True) plain_script
                  lifecycle_plain) with (σ0 := (c, w1)); try done.
        rewrite Htx. apply keeps_refl. }
      cbn beta. intros [[results|transaction']|e] c' w' [Hk Hflag];
        [by wp_go | | done].
      rewrite (Hflag _ eq_refl), Htx.
      eapply (keeps_execute_loop E (fun _ => True) plain_script
                lifecycle_plain); try done.
      by right. }
    eapply wp_mono; [exact H|]. cbn beta.
    intros _ c' w' [_ Hk]. destruct (Hk I) as (_ & d & Ht & Hd).
    cbn [snd] in Ht.
    exists (EvCall (Some s) MExecute ::
            EvSend s (ScriptRequest script params (_session_key c) isolate false) ::
            d).
    split; [|split].
    + rewrite Ht. unfold w1. cbn. by rewrite <- !app_assoc.
    + by repeat constructor.
    + intros ? [= <-]. by exists d.
  - assert (wp (execute E script params isolate transaction)
              (fun _ c' w' =>
                 keeps (fun _ => True) plain_script (c, w) (c', w')) c w) as H.
    { eapply (keeps_execute E (fun _ => True) plain_script lifecycle_plain);
        try done; [apply keeps_refl | by left]. }
    eapply wp_mono; [exact H|]. cbn beta.
    intros _ c' w' [_ Hk]. destruct (Hk I) as (_ & d & Ht & Hd).
    cbn [snd] in Ht. exists d. by repeat split.
Qed.

Lemma execute_in_transaction_sends_plain_witness :
  let c := (run_ops friendly [OpOpen false; OpOpenTransaction] localhost world0).1 in
  let w := (run_ops friendly [OpOpen false; OpOpenTransaction] localhost world0).2 in
  exists d,
    trace (world_after (execute friendly "g.V().count()" [] true true c w))
      = trace w ++ d /\
    Forall plain_script d /\
    forall s, _conn c = Some s ->
      exists d',
        d = EvCall (Some s) MExecute ::
            EvSend s (ScriptRequest "g.V().count()" [] (_session_key c) true false) ::
            d'.
Proof.
  intros c w.
  apply (execute_in_transaction_sends_plain friendly "g.V().count()" [] true true c w).
  reflexivity.
Defined.

(** * The transaction scope *)

Lemma scope_calls_app d1 d2 : scope_calls (d1 ++ d2) = scope_calls d1 ++ scope_calls d2.
Proof. apply omap_app. Qed.

Lemma scope_calls_quiet d : Forall quiet d -> scope_calls d = [].
Proof.
  induction 1 as [|ev d Hev _ IH]; [done|].
  unfold scope_calls in *. cbn. unfold quiet in Hev. by rewrite Hev.
Qed.

Lemma lifecycle_quiet ev : lifecycle ev = true -> quiet ev.
Proof. destruct ev as [? []| | | | | | |]; done. Qed.

Lemma after_entry (w w0 w' : World) ev m d :
  trace w0 = trace w ++ [ev] -> scope_call ev = Some m ->
  trace w' = trace w0 ++ d -> scope_calls d = [] ->
  exists d0, trace w' = trace w ++ d0 /\ scope_calls d0 = [m].
Proof.
  intros H0 Hev Ht Hd. exists (ev :: d). rewrite Ht, H0, <- app_assoc.
  split; [done|]. unfold scope_calls in *. cbn. by rewrite Hev, Hd.
Qed.

Section Scope.
Context (E : Env).

(** From a run that [keeps] to the calls in its trace. *)
Lemma quiet_since c0 w0 c' w' :
  keeps (fun _ => True) quiet (c0, w0) (c', w') ->
  exists d, trace w' = trace w0 ++ d /\ scope_calls d = [].
Proof.
  intros [_ Hk]. destruct (Hk I) as (_ & d & Ht & Hd).
  exists d. split; [done|]. by apply scope_calls_quiet.
Qed.

Lemma execute_quiet script params isolate transaction c w :
  wp (execute E script params isolate transaction)
     (fun _ _ w' => exists d, trace w' = trace w ++ d /\ scope_calls d = []) c w.
Proof.
  eapply wp_mono.
  { eapply (keeps_execute E (fun _ => True) quiet lifecycle_quiet)
      with (σ0 := (c, w)); try done; [apply keeps_refl | by right]. }
  cbn beta. intros _ c' w'. apply quiet_since.
Qed.

Lemma reconnect_loop_quiet timeouts c w :
  wp (reconnect_loop E timeouts)
     (fun _ _ w' => exists d, trace w' = trace w ++ d /\ scope_calls d = []) c w.
Proof.
  eapply wp_mono.
  { eapply (keeps_reconnect_loop E (fun _ => True) quiet lifecycle_quiet)
      with (σ0 := (c, w)); try done. apply keeps_refl. }
  cbn beta. intros _ c' w'. apply quiet_since.
Qed.

Lemma test_connection_calls c w :
  wp (test_connection E)
     (fun _ _ w' =>
        exists d, trace w' = trace w ++ d /\ scope_calls d = [MTestConnection]) c w.
Proof.
  unfold test_connection. wp_auto.
  all: try by exists [EvCall (_conn c) MTestConnection].
  eapply wp_mono; [apply reconnect_loop_quiet|]. cbn beta.
  intros _ _ w' (d & Ht & Hd).
  eapply (after_entry w _ w'); [| |exact Ht|exact Hd]; done.
Qed.

Lemma open_transaction_calls c w :
  wp (open_transaction E)
     (fun _ _ w' =>
        exists d, trace w' = trace w ++ d /\ scope_calls d = [MOpenTransaction]) c w.
Proof.
  unfold open_transaction. wp_auto.
  { by exists [EvCall (_conn c) MOpenTransaction]. }
  eapply wp_mono; [apply execute_quiet|]. cbn beta.
  intros r c' w' (d & Ht & Hd).
  assert (exists d0, trace w' = trace w ++ d0 /\ scope_calls d0 = [MOpenTransaction]).
  { eapply (after_entry w _ w'); [| |exact Ht|exact Hd]; done. }
  destruct r; by wp_go.
Qed.

Lemma close_transaction_calls success c w :
  wp (close_transaction E success)
     (fun _ _ w' =>
        exists d, trace w' = trace w ++ d /\
          scope_calls d = [MCloseTransaction success]) c w.
Proof.
  unfold close_transaction. wp_auto.
  { by exists [EvCall (_conn c) (MCloseTransaction success)]. }
  eapply wp_mono; [apply execute_quiet|]. cbn beta.
  intros r c' w' (d & Ht & Hd).
  assert (exists d0, trace w' = trace w ++ d0 /\
                     scope_calls d0 = [MCloseTransaction success]).
  { eapply (after_entry w _ w'); [| |exact Ht|exact Hd]; done. }
  destruct r; by wp_go.
Qed.

End Scope.

Lemma enter_scope_calls (E : Env) (c : t) (w : World) :
  result (enter_scope E c w) = Ret tt ->
  exists d, trace (world_after (enter_scope E c w)) = trace w ++ d /\
    scope_calls d = [MTestConnection; MOpenTransaction].
Proof.
  intros Hr.
  assert (wp (enter_scope E)
            (fun r _ w' =>
               r = Ret tt ->
               exists d, trace w' = trace w ++ d /\
                 scope_calls d = [MTestConnection; MOpenTransaction]) c w) as H.
  { unfold enter_scope. apply wp_bind. eapply wp_mono; [apply test_connection_calls|].
    cbn beta. intros [[]|e] c1 w1 (d1 & Ht1 & Hd1); [|done].
    eapply wp_mono; [apply open_transaction_calls|].
    cbn beta. intros r c2 w2 (d2 & Ht2 & Hd2) _.
    exists (d1 ++ d2). rewrite Ht2, Ht1, app_assoc. split; [done|].
    by rewrite scope_calls_app, Hd1, Hd2. }
  apply wp_run in H. by apply H.
Qed.

Lemma transaction_unfold (E : Env) {A} (body : M t A) (c : t) (w : World) :
  transaction E body c w =
  match enter_scope E c w with
  | (Ret _, c2, w2) =>
      (a <- try_except body (fun e => close_transaction E false ;; raise e) ;;
       close_transaction E true ;; ret a) c2 w2
  | (Raise e, c2, w2) => (Raise e, c2, w2)
  end.
Proof.
  unfold transaction, enter_scope, bind.
  destruct (test_connection E c w) as [[[[]|?] ?] ?]; [|done].
  by destruct (open_transaction E _ _) as [[[[]|?] ?] ?].
Qed.

(** A fault of [test_connection] or [open_transaction] leaves the scope
    before the body runs. *)
Lemma transaction_setup_fault (E : Env) {A} (body : M t A) (c : t) (w : World)
    (e : exn) :
  result (enter_scope E c w) = Raise e ->
  transaction E body c w =
    (Raise e, self_after (enter_scope E c w), world_after (enter_scope E c w)).
Proof.
  rewrite transaction_unfold. unfold result, self_after, world_after.
  destruct (enter_scope E c w) as [[[[]|?] ?] ?]; cbn [fst snd]; [done|].
  by intros [= ->].
Qed.

(** C4, as amended: when [test_connection] and then [open_transaction] have
    returned, the body runs, and after it the scope enters
    [close_transaction] exactly once, with [success] true if the body
    completed and false if it raised.  A body that raised [e] makes the scope
    raise [e] again provided that [close_transaction(False)] returns; if the
    rollback raises, its fault is the one that leaves the scope. *)
Theorem transaction_scope_brackets (E : Env) {A} (body : M t A) (c : t)
    (w : World) (db : list event) :
  result (enter_scope E c w) = Ret tt ->
  let c2 := self_after (enter_scope E c w) in
  let w2 := world_after (enter_scope E c w) in
  trace (world_after (body c2 w2)) = trace w2 ++ db ->
  let c3 := self_after (body c2 w2) in
  let w3 := world_after (body c2 w2) in
  (exists d,
     trace (world_after (transaction E body c w)) = trace w ++ d /\
     scope_calls d =
       [MTestConnection; MOpenTransaction] ++ scope_calls db ++
       [MCloseTransaction (completed (result (body c2 w2)))]) /\
  result (transaction E body c w) =
    match result (body c2 w2) with
    | Ret a =>
        match result (close_transaction E true c3 w3) with
        | Ret _ => Ret a
        | Raise e' => Raise e'
        end
    | Raise e =>
        match result (close_transaction E false c3 w3) with
        | Ret _ => Raise e
        | Raise e' => Raise e'
        end
    end.
Proof.
  intros Hsetup c2 w2 Hbody c3 w3.
  destruct (enter_scope_calls E c w Hsetup) as (d1 & Ht1 & Hd1).
  fold w2 in Ht1.
  assert (transaction E body c w =
          (a <- try_except body (fun e => close_transaction E false ;; raise e) ;;
           close_transaction E true ;; ret a) c2 w2) as ->.
  { rewrite transaction_unfold. subst c2 w2. revert Hsetup.
    unfold result, self_after, world_after.
    by destruct (enter_scope E c w) as [[[[]|?] ?] ?]. }
  subst c3 w3. unfold result, self_after, world_after, bind, try_except, ret, raise in *.
  destruct (body c2 w2) as [[[a|e] c3] w3]; cbn [fst snd completed] in *.
  - pose proof (close_transaction_calls E true c3 w3) as Hc. unfold wp in Hc.
    destruct (close_transaction E true c3 w3) as [[[[]|e'] c4] w4];
      destruct Hc as (d3 & Ht3 & Hd3); cbn [fst snd].
    all: split; [|done].
    all: exists (d1 ++ db ++ d3); rewrite Ht3, Hbody, Ht1, <- !app_assoc.
    all: split; [done|]; by rewrite !scope_calls_app, Hd1, Hd3.
  - pose proof (close_transaction_calls E false c3 w3) as Hc. unfold wp in Hc.
    destruct (close_transaction E false c3 w3) as [[[[]|e'] c4] w4];
      destruct Hc as (d3 & Ht3 & Hd3); cbn [fst snd raise].
    all: split; [|done].
    all: exists (d1 ++ db ++ d3); rewrite Ht3, Hbody, Ht1, <- !app_assoc.
    all: split; [done|]; by rewrite !scope_calls_app, Hd1, Hd3.
Qed.

Lemma transaction_scope_brackets_witness :
  let c := (run_ops friendly [OpOpen false] localhost world0).1 in
  let w := (run_ops friendly [OpOpen false] localhost world0).2 in
  let body := execute friendly "g.V().count()" [] true true in
  result (enter_scope friendly c w) = Ret tt /\
  (exists d,
     trace (world_after (transaction friendly body c w)) = trace w ++ d /\
     scope_calls d = [MTestConnection; MOpenTransaction; MCloseTransaction true]) /\
  result (transaction friendly body c w) = Ret (Some []).
Proof.
  intros c w body.
  assert (result (enter_scope friendly c w) = Ret tt) as Hsetup
    by (vm_compute; reflexivity).
  assert (trace (world_after (body (self_after (enter_scope friendly c w))
                                   (world_after (enter_scope friendly c w)))) =
          trace (world_after (enter_scope friendly c w)) ++
          [EvCall (Some 0) MExecute;
           EvSend 0 (ScriptRequest "g.V().count()" [] (Some "s1") true false)])
    as Hbody by (vm_compute; reflexivity).
  destruct (transaction_scope_brackets friendly body c w _ Hsetup Hbody)
    as [(d & Ht & Hd) Hr].
  split; [exact Hsetup|]. split.
  - exists d. split; [exact Ht|]. rewrite Hd. vm_compute. reflexivity.
  - rewrite Hr. vm_compute. reflexivity.
Defined.

(** C4, as stated, fails when the rollback itself faults: the body raises
    [ValueError], the link has dropped, [close_transaction(False)] raises the
    socket fault, and that fault, not the body's, leaves the scope. *)
Lemma rollback_fault_replaces_original :
  let c := (run_ops link_drops [OpOpen false] localhost world0).1 in
  let w := (run_ops link_drops [OpOpen false] localhost world0).2 in
  let body : M t unit := raise (OtherException "ValueError") in
  result (enter_scope link_drops c w) = Ret tt /\
  result (body (self_after (enter_scope link_drops c w))
               (world_after (enter_scope link_drops c w))) =
    Raise (OtherException "ValueError") /\
  result (transaction link_drops body c w) = Raise SocketError.
Proof. vm_compute. done. Qed.

(** * The blacklists *)

Lemma draw_succeeds (l : list atom) (bl : gset atom) (r : nat) :
  NoDup l -> size bl < length l ->
  let choices := elements (list_to_set l ∖ bl : gset atom) in
  ~ (list_to_set l : gset atom) ⊆ bl /\
  exists a, choices !! (r mod length choices) = Some a /\ a ∈ l /\ a ∉ bl.
Proof.
  intros Hnd Hsize choices.
  assert (~ (list_to_set l : gset atom) ⊆ bl) as Hcover.
  { intros Hsub. apply subseteq_size in Hsub.
    rewrite size_list_to_set in Hsub by done. lia. }
  split; [done|].
  assert (length choices <> 0) as Hne.
  { intros Hlen. apply Hcover. apply nil_length_inv in Hlen.
    apply elements_empty_inv in Hlen. set_solver. }
  destruct (lookup_lt_is_Some_2 choices (r mod length choices)) as [a Ha].
  { by apply Nat.mod_upper_bound. }
  exists a. split; [done|].
  apply list_elem_of_lookup_2 in Ha. apply elem_of_elements in Ha. set_solver.
Qed.

Lemma connection_failed_leaves_choice part l c w :
  leaves_choice part l c ->
  leaves_choice part l (self_after (connection_failed c w)).
Proof.
  intros (Hl & Hsize & Hhost).
  apply (wp_run connection_failed (fun _ c' _ => leaves_choice part l c')).
  unfold connection_failed. wp_auto.
  all: destruct part; unfold leaves_choice; cbn [candidates blacklist] in *;
    wp_simpl; (split; [done|]);
    (split; [|intros ?; first [congruence | exfalso; by apply Hhost]]).
  all: repeat match goal with
         | H : py_len ?v = _, H' : ?v = PyList _ |- _ =>
             rewrite H' in H; cbn in H; simplify_eq
         | H : (_ <=? _)%nat = true |- _ => apply Nat.leb_le in H
         | H : (_ <=? _)%nat = false |- _ => apply Nat.leb_gt in H
         end.
  all: rewrite ?size_empty; try lia.
  all: try (exfalso; by apply Hhost).
Qed.

Section Blacklist.
Context (E : Env) (part : endpoint) (l : list atom) (Hnd : NoDup l).

Lemma lifecycle_draw_ok ev : lifecycle ev = true -> draw_ok part ev.
Proof. by destruct ev. Qed.

Lemma host_draw_ok c l' r :
  leaves_choice part l c -> host c = PyList l' ->
  let choices := elements (list_to_set l' ∖ host_blacklist c : gset atom) in
  draw_ok part (EvDraw Host l' (host_blacklist c) (choices !! (r mod length choices))).
Proof.
  intros (Hl & Hsize & _) Hl' choices <-. cbn in Hl, Hsize.
  rewrite Hl' in Hl. injection Hl as ->.
  destruct (draw_succeeds l (host_blacklist c) r Hnd Hsize) as (Hcover & a & Ha & ?).
  split; [done|]. exists a. by rewrite <- Ha.
Qed.

Lemma port_draw_ok c l' r :
  leaves_choice part l c -> port c = PyList l' ->
  let choices := elements (list_to_set l' ∖ port_blacklist c : gset atom) in
  draw_ok part (EvDraw Port l' (port_blacklist c) (choices !! (r mod length choices))).
Proof.
  intros (Hl & Hsize & _) Hl' choices <-. cbn in Hl, Hsize.
  rewrite Hl' in Hl. injection Hl as ->.
  destruct (draw_succeeds l (port_blacklist c) r Hnd Hsize) as (Hcover & a & Ha & ?).
  split; [done|]. exists a. by rewrite <- Ha.
Qed.

(** The other assignments do not touch the blacklists. *)
Ltac blacklist_side :=
  first
    [ exact lifecycle_draw_ok
    | exact host_draw_ok
    | exact port_draw_ok
    | exact (connection_failed_leaves_choice part l)
    | by (intros; match goal with
                  | H : leaves_choice _ _ _ |- leaves_choice _ _ _ =>
                      unfold leaves_choice in *; destruct part;
                      repeat match goal with b : bool |- _ => destruct b end;
                      exact H
                  end)
    | by intros ].

Lemma run_op_leaves_choice o σ0 c w :
  keeps (leaves_choice part l) (draw_ok part) σ0 (c, w) ->
  wp (run_op E o)
     (fun _ c' w' => keeps (leaves_choice part l) (draw_ok part) σ0 (c', w')) c w.
Proof.
  intros Hk. destruct o; cbn [run_op].
  - apply keeps_open; try blacklist_side; done.
  - apply keeps_close; try blacklist_side; done.
  - apply keeps_open_transaction; try blacklist_side; done.
  - apply keeps_close_transaction; try blacklist_side; done.
  - apply wp_bind. eapply wp_mono.
    { apply keeps_execute with (σ0 := σ0); try blacklist_side; by right. }
    cbn beta. intros [?|?] ? ? ?; by wp_go.
Qed.

Lemma run_ops_leaves_choice os σ0 c w :
  keeps (leaves_choice part l) (draw_ok part) σ0 (c, w) ->
  keeps (leaves_choice part l) (draw_ok part) σ0 (run_ops E os c w).
Proof.
  revert c w. induction os as [|o os IH]; intros c w Hk; [done|].
  cbn [run_ops]. apply IH.
  by apply (wp_run (run_op E o)
              (fun _ c' w' =>
                 keeps (leaves_choice part l) (draw_ok part) σ0 (c', w'))),
           run_op_leaves_choice.
Qed.

End Blacklist.

(** C3, as amended: on a connection whose host (resp. port) is configured as
    a candidate list without duplicates and whose blacklist for it is
    smaller than that list (as it is on a new connection, when the list is
    not empty), whatever operations follow and however they fail, every draw
    of the host (resp. port) finds the blacklist short of covering the
    candidates and picks a candidate that is not blacklisted.  For the port,
    [len(self.host)] has to be defined. *)
Theorem blacklist_never_covers (E : Env) (part : endpoint) (l : list atom)
    (os : list op) (c : t) (w : World) :
  NoDup l ->
  candidates part c = PyList l ->
  size (blacklist part c) < length l ->
  (part = Port -> py_len (host c) <> None) ->
  exists d,
    trace (run_ops E os c w).2 = trace w ++ d /\ Forall (draw_ok part) d.
Proof.
  intros Hnd Hl Hsize Hhost.
  destruct (run_ops_leaves_choice E part l Hnd os (c, w) c w) as [_ Hk].
  { apply keeps_refl. }
  destruct Hk as (_ & d & Ht & Hd); [done|]. by exists d.
Qed.

Lemma blacklist_never_covers_witness :
  exists d,
    trace (run_ops unreachable [OpOpen false; OpOpen false] cluster world0).2
      = trace world0 ++ d /\
    Forall (draw_ok Host) d /\
    length (host_picks d) = 6.
Proof.
  destruct (blacklist_never_covers unreachable Host
              [PStr "h1"; PStr "h2"; PStr "h3"]
              [OpOpen false; OpOpen false] cluster world0)
    as (d & Ht & Hd).
  - apply (bool_decide_unpack _). vm_compute. exact I.
  - reflexivity.
  - vm_compute. lia.
  - intros [=].
  - exists d. split; [exact Ht|]. split; [exact Hd|].
    change (trace world0 ++ d) with d in Ht. rewrite <- Ht.
    vm_compute. reflexivity.
Defined.

(** C3, as stated, fails for a candidate list with nothing to choose from.
    With the empty list the first draw of a new connection already fails: the
    empty blacklist covers the empty candidate set.  With a list that names
    one host twice, after one failure the blacklist holds the only host there
    is, its size 1 stays below the length 2 of the list, it is not cleared,
    and the next draw has nothing to choose from. *)
Lemma degenerate_candidates_exhaust_draw :
  (result (open friendly false no_candidates world0) = Raise IndexError /\
   last (trace (world_after (open friendly false no_candidates world0))) =
     Some (EvDraw Host [] ∅ None)) /\
  (result (open unreachable false twice_listed world0) = Raise IndexError /\
   last (trace (world_after (open unreachable false twice_listed world0))) =
     Some (EvDraw Host [PStr "h1"; PStr "h1"] {[PStr "h1"]} None) /\
   (list_to_set [PStr "h1"; PStr "h1"] : gset atom) ⊆ {[PStr "h1"]}).
Proof.
  split; [split; vm_compute; reflexivity|].
  split; [vm_compute; reflexivity|]. split; [vm_compute; reflexivity|].
  set_solver.
Qed.

(** * The state of a connection *)

Lemma connection_failed_keeps_session c w :
  session_implies_opened c ->
  session_implies_opened (self_after (connection_failed c w)).
Proof.
  pose proof (connection_failed_frame c w) as H. apply wp_run in H.
  destruct H as [_ ->]. done.
Qed.

Lemma connection_failed_keeps_transaction c w :
  transaction_implies_opened c ->
  transaction_implies_opened (self_after (connection_failed c w)).
Proof.
  pose proof (connection_failed_frame c w) as H. apply wp_run in H.
  destruct H as [_ ->]. done.
Qed.

Section StateInvariants.
Context (E : Env).

Ltac state_side :=
  first
    [ exact connection_failed_keeps_session
    | exact connection_failed_keeps_transaction
    | by (intros;
          repeat match goal with b : bool |- _ => destruct b end;
          try unfold session_implies_opened in *;
          try unfold transaction_implies_opened in *;
          cbn in *; try done; try tauto) ].

Lemma run_op_session_implies_opened o c w :
  session_implies_opened c ->
  session_implies_opened (self_after (run_op E o c w)).
Proof.
  intros Hc.
  assert (wp (run_op E o)
            (fun _ c' w' =>
               keeps session_implies_opened (fun _ => True) (c, w) (c', w')) c w) as H.
  { pose proof (keeps_refl session_implies_opened (fun _ => True) (c, w)) as Hk.
    destruct o; cbn [run_op].
    - apply keeps_open; try state_side; done.
    - apply keeps_close; try state_side; done.
    - apply keeps_open_transaction; try state_side; done.
    - apply keeps_close_transaction; try state_side; done.
    - apply wp_bind. eapply wp_mono.
      { apply (keeps_execute E session_implies_opened (fun _ => True))
          with (σ0 := (c, w)); try state_side; by right. }
      cbn beta. intros [?|?] ? ? ?; by wp_go. }
  apply wp_run in H. destruct H as [_ H]. by apply H.
Qed.

Lemma run_op_transaction_implies_opened o c w :
  o <> OpOpenTransaction ->
  transaction_implies_opened c ->
  transaction_implies_opened (self_after (run_op E o c w)).
Proof.
  intros Ho Hc.
  assert (wp (run_op E o)
            (fun _ c' w' =>
               keeps transaction_implies_opened (fun _ => True) (c, w) (c', w')) c w)
    as H.
  { pose proof (keeps_refl transaction_implies_opened (fun _ => True) (c, w)) as Hk.
    destruct o; cbn [run_op]; [| |done| |].
    - apply keeps_open; try state_side; done.
    - apply keeps_close; try state_side; done.
    - apply keeps_close_transaction; try state_side; done.
    - apply wp_bind. eapply wp_mono.
      { apply (keeps_execute E transaction_implies_opened (fun _ => True))
          with (σ0 := (c, w)); try state_side; by right. }
      cbn beta. intros [?|?] ? ? ?; by wp_go. }
  apply wp_run in H. destruct H as [_ H]. by apply H.
Qed.

End StateInvariants.

(** C2, as amended: a connection that its constructor returns has
    [_session_key] set only if [_opened], and [_in_transaction] only if
    [_opened]; [open], [close] (soft or hard), [open_transaction],
    [close_transaction] and [execute], returning or raising, keep the first
    of the two, and all of them but [open_transaction] keep the second. *)
Theorem state_invariants (E : Env) :
  (forall host port graph_name graph_obj_name username password timeout w c w',
     new E host port graph_name graph_obj_name username password timeout w
       = (Ret c, w') ->
     session_implies_opened c /\ transaction_implies_opened c) /\
  (forall o c w,
     session_implies_opened c ->
     session_implies_opened (self_after (run_op E o c w))) /\
  (forall o c w,
     o <> OpOpenTransaction ->
     transaction_implies_opened c ->
     transaction_implies_opened (self_after (run_op E o c w))).
Proof.
  split; [|split].
  - intros h p g go u pw tm w c w'. unfold new, __init__.
    unfold bind at 1, modify.
    pose proof (run_op_session_implies_opened E (OpOpen false)
                  (blank h p g go u pw tm) w) as H1.
    pose proof (run_op_transaction_implies_opened E (OpOpen false)
                  (blank h p g go u pw tm) w) as H2.
    cbn [run_op] in H1, H2. unfold self_after in H1, H2.
    destruct (open E false (blank h p g go u pw tm) w) as [[[[]|e] c1] w1];
      cbn [fst snd] in *; [|done].
    intros [= -> ->]. split; [apply H1; by intros [] | apply H2; [done | intros [=]]].
  - apply run_op_session_implies_opened.
  - apply run_op_transaction_implies_opened.
Qed.

Lemma state_invariants_witness :
  let c := (run_ops friendly [OpOpen false] localhost world0).1 in
  let w := (run_ops friendly [OpOpen false] localhost world0).2 in
  (session_implies_opened c /\ transaction_implies_opened c) /\
  session_implies_opened (self_after (run_op friendly (OpClose true) c w)) /\
  transaction_implies_opened (self_after (run_op friendly (OpClose false) c w)).
Proof.
  intros c w. destruct (state_invariants friendly) as (Hnew & Hs & Ht).
  assert (session_implies_opened c /\ transaction_implies_opened c) as Hc.
  { apply (Hnew (PyList [PStr "localhost"]) (PyList [PInt 8184])
                (Atom (PStr "graph")) (Atom (PStr "g")) (Atom (PStr ""))
                (Atom (PStr "")) (Atom PNone) world0 c w).
    vm_compute. reflexivity. }
  split; [exact Hc|]. split.
  - apply Hs. apply Hc.
  - apply Ht; [discriminate | apply Hc].
Defined.

(** C2, as stated, fails after a soft close: the connection stays
    [_opened] and has no session key. *)
Lemma soft_close_keeps_opened_without_session :
  let c := (run_ops friendly [OpOpen false; OpClose true] localhost world0).1 in
  _opened c = true /\ _session_key c = None.
Proof. vm_compute. done. Qed.

(** Why [open_transaction] is left out of the second invariant: it sets
    [_in_transaction] once its control script has been answered, whether the
    connection is [_opened] or not.  Here the server answers the script of a
    connection that was closed hard. *)
Lemma open_transaction_on_closed_connection :
  let c := (run_ops friendly [OpOpen false; OpClose false; OpOpenTransaction]
              localhost world0).1 in
  _in_transaction c = true /\ _opened c = false.
Proof. vm_compute. done. Qed.

(** * The retry loop of [open] *)

Lemma open_session_spec (E : Env) (c : t) (w : World) (s : Sock) :
  _conn c = Some s ->
  wp (_open_session E)
     (fun r c' w' =>
        n_exchange w' = S (n_exchange w) /\ n_connect w' = n_connect w /\
        match handshake_of (reply_at E (n_exchange w)) with
        | inl e => r = Raise e /\ c' = c
        | inr key => r = Ret tt /\ c' = set_session_key (Some key) c
        end) c w.
Proof.
  intros Hs. unfold _open_session. wp_go. rewrite Hs. wp_go.
  destruct (reply_at E (n_exchange w)) as [e|e|resp] eqn:Hr; wp_go;
    rewrite ?Hs; wp_go; rewrite ?Hr; wp_go; try done.
  destruct resp; wp_go; done.
Qed.

Lemma retry_ready_frame c c' :
  host c' = host c -> port c' = port c ->
  host_blacklist c' = host_blacklist c -> port_blacklist c' = port_blacklist c ->
  retry_ready c -> retry_ready c'.
Proof.
  unfold retry_ready, endpoint_ok. cbn [candidates blacklist].
  by intros -> -> -> ->.
Qed.

Lemma connection_failed_ready (c : t) (w : World) :
  retry_ready c ->
  wp connection_failed
     (fun r c' w' =>
        r = Ret tt /\ retry_ready c' /\
        w' = log (EvCall (_conn c) MConnectionFailed) w /\
        _conn c' = _conn c /\ _opened c' = _opened c /\
        _session_key c' = _session_key c /\
        _in_transaction c' = _in_transaction c) c w.
Proof.
  intros [Hh Hp]. unfold endpoint_ok in *. cbn [candidates blacklist] in *.
  unfold connection_failed. wp_auto.
  all: unfold retry_ready, endpoint_ok; cbn [candidates blacklist]; wp_simpl.
  all: repeat match goal with
         | H : (_ <=? _)%nat = true |- _ => apply Nat.leb_le in H
         | H : (_ <=? _)%nat = false |- _ => apply Nat.leb_gt in H
         end.
  all: destruct (host c) as [[| |?]|lh]; try done;
       destruct (port c) as [[| |?]|lp]; try done.
  all: cbn in *; simplify_eq; rewrite ?size_empty.
  all: repeat split; try tauto; lia.
Qed.

Lemma draw_ready (E : Env) (part : endpoint) (l : list atom) (bl : gset atom)
    (c : t) (w : World) :
  NoDup l -> size bl < length l ->
  wp (draw E part l bl)
     (fun r c' w' =>
        (exists a, r = Ret a) /\ c' = c /\
        n_connect w' = n_connect w /\ n_exchange w' = n_exchange w /\
        next_sock w' = next_sock w) c w.
Proof.
  intros Hnd Hsize.
  destruct (draw_succeeds l bl (choice_at E (n_choice w)) Hnd Hsize)
    as (_ & a & Ha & _).
  unfold draw. wp_go. cbn zeta. rewrite Ha. wp_go. eauto 10.
Qed.

(** Stepping that stops in front of a [try] block. *)
Ltac wp_lin :=
  repeat (lazymatch goal with
          | |- wp (try_except _ _) _ _ _ => fail
          | _ => wp_step
          end; wp_simpl).

Lemma open_connect_ready (E : Env) (c : t) (w : World) :
  retry_ready c ->
  wp (open_connect E)
     (fun r c' w' =>
        retry_ready c' /\ n_connect w' = S (n_connect w) /\
        n_exchange w' = n_exchange w /\
        _conn c' = Some (next_sock w) /\ _opened c' = _opened c /\
        _session_key c' = _session_key c /\
        _in_transaction c' = _in_transaction c /\
        r = Ret (match connect_at E (n_connect w) with None => true | Some _ => false end)) c w.
Proof.
  intros Hready.
  assert (forall c1 w1,
    retry_ready c1 -> n_connect w1 = n_connect w -> n_exchange w1 = n_exchange w ->
    _conn c1 = Some (next_sock w) -> _opened c1 = _opened c ->
    _session_key c1 = _session_key c -> _in_transaction c1 = _in_transaction c ->
    wp (try_except
          (c <- get_self ;; s <- the_conn ;;
           connect E s (Atom (current_host c)) (Atom (current_port c)) ;; ret true)
          (fun e => connection_failed ;; ret false))
       (fun r c' w' =>
        retry_ready c' /\ n_connect w' = S (n_connect w) /\
        n_exchange w' = n_exchange w /\
        _conn c' = Some (next_sock w) /\ _opened c' = _opened c /\
        _session_key c' = _session_key c /\
        _in_transaction c' = _in_transaction c /\
        r = Ret (match connect_at E (n_connect w) with None => true | Some _ => false end)) c1 w1) as Hconnect.
  { intros c1 w1 Hr1 Hn1 Hx1 Hs1 Ho1 Hk1 Ht1. wp_go. rewrite Hs1. wp_go.
    rewrite Hn1. destruct (connect_at E (n_connect w)) as [e|] eqn:Hc; wp_go.
    - eapply wp_mono; [by apply connection_failed_ready|]. cbn beta.
      intros r c' w' (-> & Hr' & -> & Hs' & Ho' & Hk' & Ht'). wp_go.
      wp_simpl. split; [exact Hr'|]. repeat split; try congruence; lia.
    - split; [exact Hr1|]. repeat split; try congruence; lia. }
  pose proof Hready as [Hh Hp]. unfold endpoint_ok in Hh, Hp.
  cbn [candidates blacklist] in Hh, Hp.
  unfold open_connect. wp_lin.
  destruct (host c) as [ah|lh] eqn:Hhost; wp_lin.
  - destruct (port c) as [ap|lp] eqn:Hport; wp_lin.
    + apply Hconnect; try done; try congruence; try lia.
    + destruct Hp as [Hnd Hsize].
      eapply wp_mono; [by apply draw_ready|]. cbn beta.
      intros r c' w' ([a ->] & -> & Hn & Hx & Hs). wp_lin.
      cbn [n_connect n_exchange next_sock log tick_sock] in Hn, Hx, Hs.
      apply Hconnect; try done; try congruence; try lia.
  - destruct Hh as [Hnd Hsize].
    eapply wp_mono; [by apply draw_ready|]. cbn beta.
    intros r c' w' ([a ->] & -> & Hn & Hx & Hs). wp_lin.
      cbn [n_connect n_exchange next_sock log tick_sock] in Hn, Hx, Hs.
    destruct (port c) as [ap|lp] eqn:Hport; wp_lin.
    + apply Hconnect; try done; try congruence; try lia.
    + destruct Hp as [Hnd' Hsize'].
      eapply wp_mono; [by apply draw_ready|]. cbn beta.
      intros r c'' w'' ([a' ->] & -> & Hn' & Hx' & Hs'). wp_lin.
      cbn [n_connect n_exchange next_sock log tick_sock] in Hn', Hx', Hs'.
      apply Hconnect; try done; try congruence; try lia.
Qed.

Lemma open_handshake_ready (E : Env) (i : nat) (c : t) (w : World) (s : Sock) :
  retry_ready c -> _conn c = Some s ->
  wp (try_except
        (modify (set_in_transaction false) ;;
         modify (set_session_key None) ;;
         modify (set_opened true) ;;
         _open_session E ;;
         ret (Returned tt))
        (fun e =>
           connection_failed ;;
           if (CONNECTION_ATTEMPTS - 1 <=? i)%nat then raise e
           else ret (Continue false)))
     (fun r c' w' =>
        retry_ready c' /\ n_connect w' = n_connect w /\
        n_exchange w' = S (n_exchange w) /\
        match handshake_of (reply_at E (n_exchange w)) with
        | inl e =>
            r = (if (CONNECTION_ATTEMPTS - 1 <=? i)%nat then Raise e
                 else Ret (Continue false))
        | inr key =>
            r = Ret (Returned tt) /\ _opened c' = true /\
            _session_key c' = Some key /\ _in_transaction c' = false
        end) c w.
Proof.
  intros Hready Hs. wp_go.
  eapply wp_mono; [by apply (open_session_spec E _ _ s)|]. cbn beta.
  intros r c' w' (Hx & Hn & Hout).
  destruct (handshake_of (reply_at E (n_exchange w))) as [e|key].
  - destruct Hout as [-> ->]. wp_go.
    eapply wp_mono; [apply connection_failed_ready|].
    { eapply retry_ready_frame; [..|exact Hready]; done. }
    cbn beta. intros r c'' w'' (-> & Hr' & -> & _). wp_go.
    destruct (CONNECTION_ATTEMPTS - 1 <=? i)%nat; wp_go; wp_simpl; done.
  - destruct Hout as [-> ->]. wp_go. split; [|done].
    eapply retry_ready_frame; [..|exact Hready]; done.
Qed.

Lemma open_attempt_ready (E : Env) (i : nat) (soft : bool) (c : t) (w : World) :
  retry_ready c -> (soft = true -> exists s, _conn c = Some s) ->
  wp (open_attempt E i soft)
     (fun r c' w' =>
        retry_ready c' /\
        match (if soft then None else connect_at E (n_connect w)) with
        | Some e =>
            r = Ret (Continue false) /\
            n_connect w' = S (n_connect w) /\ n_exchange w' = n_exchange w
        | None =>
            n_connect w' = (if soft then n_connect w else S (n_connect w)) /\
            n_exchange w' = S (n_exchange w) /\
            match handshake_of (reply_at E (n_exchange w)) with
            | inl e =>
                r = (if (CONNECTION_ATTEMPTS - 1 <=? i)%nat then Raise e
                     else Ret (Continue false))
            | inr key =>
                r = Ret (Returned tt) /\ _opened c' = true /\
                _session_key c' = Some key /\ _in_transaction c' = false
            end
        end) c w.
Proof.
  intros Hready Hsoft. unfold open_attempt. destruct soft; wp_simpl.
  - destruct Hsoft as [s Hs]; [done|]. wp_lin.
    eapply wp_mono; [by apply (open_handshake_ready E i c w s)|]. cbn beta.
    intros r c' w' (? & ? & ? & ?). done.
  - apply wp_bind. eapply wp_mono; [by apply open_connect_ready|]. cbn beta.
    intros r c' w' (Hr' & Hn & Hx & Hs & _ & _ & _ & ->).
    destruct (connect_at E (n_connect w)) as [e|]; wp_lin; [done|].
    eapply wp_mono; [by apply (open_handshake_ready E i c' w' (next_sock w))|].
    cbn beta. intros r c'' w'' (? & Hn' & Hx' & Hout). rewrite Hx in Hout.
    split; [done|]. split; [congruence|]. split; [congruence|]. exact Hout.
Qed.

Lemma open_loop_plays (E : Env) (script : list attempt) :
  forall i soft c w,
    retry_ready c -> (soft = true -> exists s, _conn c = Some s) ->
    plays E soft (n_connect w) (n_exchange w) script ->
    i + length script = CONNECTION_ATTEMPTS ->
    wp (open_loop E (seq i (length script)) soft)
       (fun r c' _ => ends_in script r c') c w.
Proof.
  induction script as [|a rest IH]; intros i soft c w Hready Hsoft Hplays Hlen.
  - by wp_go.
  - cbn [length seq open_loop]. apply wp_bind.
    eapply wp_mono; [by apply open_attempt_ready|]. cbn beta.
    intros r c' w' [Hready' Hout]. cbn [length] in Hlen.
    destruct a as [e|e|key]; cbn [plays ends_in] in *.
    + destruct Hplays as (-> & Hc & Hrest). rewrite Hc in Hout.
      destruct Hout as (-> & Hn & Hx). apply IH; try done; [|lia].
      by rewrite Hn, Hx.
    + destruct Hplays as (Hc & Hh & Hrest).
      assert ((if soft then None else connect_at E (n_connect w)) = None) as Hnone.
      { destruct soft; [done|by apply Hc]. }
      rewrite Hnone, Hh in Hout. destruct Hout as (Hn & Hx & ->).
      destruct rest as [|a' rest'].
      * assert (i = 2) as -> by (cbn in *; unfold CONNECTION_ATTEMPTS in *; lia).
        cbn. done.
      * assert ((CONNECTION_ATTEMPTS - 1 <=? i)%nat = false) as ->.
        { apply Nat.leb_gt. cbn in *. unfold CONNECTION_ATTEMPTS in *. lia. }
        apply (IH (S i) false); try done; [|lia].
        rewrite Hn, Hx. exact Hrest.
    + destruct Hplays as (Hc & Hh & Hrest).
      assert ((if soft then None else connect_at E (n_connect w)) = None) as Hnone.
      { destruct soft; [done|by apply Hc]. }
      rewrite Hnone, Hh in Hout. destruct Hout as (Hn & Hx & -> & ?).
      by wp_go.
Qed.

(** C1, as amended: on a connection whose host and port are each a string
    or a candidate list without duplicates (blacklist smaller than the
    list), when the first two attempts of [open] fail, at the connect or at
    the handshake: if the third attempt fails at the handshake with fault
    [e], [open] raises [e] itself, whatever its kind; if the third attempt
    connects and its handshake returns [key], [open] returns with [_opened]
    true, [_session_key] the new [key] and [_in_transaction] false. *)
Theorem open_third_attempt_decides (E : Env) (soft : bool) (a1 a2 a3 : attempt)
    (c : t) (w : World) :
  retry_ready c ->
  (soft = true -> exists s, _conn c = Some s) ->
  plays E soft (n_connect w) (n_exchange w) [a1; a2; a3] ->
  failed a1 -> failed a2 ->
  (forall e, a3 = HandshakeFails e -> result (open E soft c w) = Raise e) /\
  (forall key, a3 = Succeeds key ->
     result (open E soft c w) = Ret tt /\
     _opened (self_after (open E soft c w)) = true /\
     _session_key (self_after (open E soft c w)) = Some key /\
     _in_transaction (self_after (open E soft c w)) = false).
Proof.
  intros Hready Hsoft Hplays H1 H2.
  assert (wp (open E soft) (fun r c' _ => ends_in [a1; a2; a3] r c') c w) as H.
  { unfold open. wp_go.
    apply (open_loop_plays E [a1; a2; a3] 0 soft); done. }
  apply wp_run in H.
  destruct a1 as [?|?|?]; [| |done]; (destruct a2 as [?|?|?]; [| |done]);
    (split; [intros e3 ->|intros key3 ->]); cbn [ends_in] in H; done.
Qed.

(** The slip beside it: when the third attempt fails at the connect, the
    loop runs out and [open] returns as if it had succeeded. *)
Lemma open_returns_when_last_connect_fails (E : Env) (soft : bool)
    (a1 a2 : attempt) (e : exn) (c : t) (w : World) :
  retry_ready c ->
  (soft = true -> exists s, _conn c = Some s) ->
  plays E soft (n_connect w) (n_exchange w) [a1; a2; ConnectFails e] ->
  failed a1 -> failed a2 ->
  result (open E soft c w) = Ret tt.
Proof.
  intros Hready Hsoft Hplays H1 H2.
  assert (wp (open E soft)
            (fun r c' _ => ends_in [a1; a2; ConnectFails e] r c') c w) as H.
  { unfold open. wp_go.
    apply (open_loop_plays E [a1; a2; ConnectFails e] 0 soft); done. }
  apply wp_run in H.
  destruct a1 as [?|?|?]; [| |done]; (destruct a2 as [?|?|?]; [| |done]);
    cbn [ends_in] in H; done.
Qed.

Lemma cluster_ready : retry_ready cluster.
Proof.
  split; (split; [apply (bool_decide_unpack _); vm_compute; exact I|]).
  all: vm_compute; lia.
Qed.

Lemma open_third_attempt_decides_witness :
  result (open flaky false cluster world0) = Ret tt /\
  _opened (self_after (open flaky false cluster world0)) = true /\
  _session_key (self_after (open flaky false cluster world0)) = Some "s1" /\
  _in_transaction (self_after (open flaky false cluster world0)) = false.
Proof.
  destruct (open_third_attempt_decides flaky false
              (ConnectFails SocketError) (HandshakeFails SocketError)
              (Succeeds "s1") cluster world0) as [_ H].
  - exact cluster_ready.
  - discriminate.
  - cbn. done.
  - exact I.
  - exact I.
  - exact (H "s1" eq_refl).
Defined.

(** C1, as stated, fails on the kind of the fault: three attempts connect
    and time out in the handshake, and [open] raises the socket fault of the
    last one, not a [RexProConnectionException]. *)
Lemma open_raises_the_handshake_fault :
  plays silent false 0 0
    [HandshakeFails SocketError; HandshakeFails SocketError;
     HandshakeFails SocketError] /\
  result (open silent false cluster world0) = Raise SocketError.
Proof. split; [cbn; done|]. vm_compute. reflexivity. Qed.

(** And on three refused connections, where [open] returns. *)
Lemma open_returns_after_three_refusals :
  plays unreachable false 0 0
    [ConnectFails SocketError; ConnectFails SocketError; ConnectFails SocketError] /\
  result (open unreachable false cluster world0) = Ret tt /\
  _opened (self_after (open unreachable false cluster world0)) = false /\
  _session_key (self_after (open unreachable false cluster world0)) = None.
Proof. split; [cbn; done|]. vm_compute. done. Qed.

(** * A port given as an integer *)

Lemma connection_failed_int_port (c : t) (w : World) (z : Z) :
  port c = Atom (PInt z) ->
  wp connection_failed (fun r _ _ => r = Raise TypeError) c w.
Proof.
  intros Hport. unfold connection_failed. wp_go.
  destruct (py_len (host c)); wp_go; [|done].
  destruct (_ <=? _)%nat; wp_go; rewrite Hport; by wp_go.
Qed.

Lemma handshake_int_port (E : Env) (i : nat) (c : t) (w : World) (s : Sock)
    (z : Z) (e : exn) :
  port c = Atom (PInt z) -> _conn c = Some s ->
  handshake_of (reply_at E (n_exchange w)) = inl e ->
  wp (try_except
        (modify (set_in_transaction false) ;;
         modify (set_session_key None) ;;
         modify (set_opened true) ;;
         _open_session E ;;
         ret (Returned tt))
        (fun e =>
           connection_failed ;;
           if (CONNECTION_ATTEMPTS - 1 <=? i)%nat then raise e
           else ret (Continue false)))
     (fun r _ _ => r = Raise TypeError) c w.
Proof.
  intros Hport Hs Hh. wp_go.
  eapply wp_mono; [by apply (open_session_spec E _ _ s)|]. cbn beta.
  intros r c' w' (_ & _ & Hout). rewrite Hh in Hout. destruct Hout as [-> ->].
  wp_go. eapply wp_mono; [by apply (connection_failed_int_port _ _ z)|].
  cbn beta. by intros r c' w'' ->.
Qed.

Lemma open_connect_int_port (E : Env) (c : t) (w : World) (z : Z) :
  port c = Atom (PInt z) -> endpoint_ok Host c ->
  wp (open_connect E)
     (fun r c' w' =>
        match connect_at E (n_connect w) with
        | Some _ => r = Raise TypeError
        | None =>
            r = Ret true /\ port c' = Atom (PInt z) /\
            _conn c' = Some (next_sock w) /\ n_exchange w' = n_exchange w
        end) c w.
Proof.
  intros Hport Hhost.
  assert (forall c1 w1,
    port c1 = Atom (PInt z) -> _conn c1 = Some (next_sock w) ->
    n_connect w1 = n_connect w -> n_exchange w1 = n_exchange w ->
    wp (try_except
          (c <- get_self ;; s <- the_conn ;;
           connect E s (Atom (current_host c)) (Atom (current_port c)) ;; ret true)
          (fun e => connection_failed ;; ret false))
       (fun r c' w' =>
        match connect_at E (n_connect w) with
        | Some _ => r = Raise TypeError
        | None =>
            r = Ret true /\ port c' = Atom (PInt z) /\
            _conn c' = Some (next_sock w) /\ n_exchange w' = n_exchange w
        end) c1 w1) as Hconnect.
  { intros c1 w1 Hp1 Hs1 Hn1 Hx1. wp_go. rewrite Hs1. wp_go. rewrite Hn1.
    destruct (connect_at E (n_connect w)) as [e|]; wp_go; [|done].
    eapply wp_mono; [by apply (connection_failed_int_port _ _ z)|].
    cbn beta. by intros r c' w' ->. }
  unfold endpoint_ok in Hhost. cbn [candidates blacklist] in Hhost.
  unfold open_connect. wp_lin.
  destruct (host c) as [ah|lh] eqn:Hh; wp_lin.
  - rewrite Hport. wp_lin. by apply Hconnect.
  - destruct Hhost as [Hnd Hsize].
    eapply wp_mono; [by apply draw_ready|]. cbn beta.
    intros r c' w' ([a' ->] & -> & Hn & Hx & Hs).
    cbn [n_connect n_exchange next_sock log tick_sock] in Hn, Hx, Hs.
    wp_lin. rewrite Hport. wp_lin. by apply Hconnect.
Qed.

Lemma open_attempt_int_port (E : Env) (i : nat) (soft : bool) (c : t)
    (w : World) (z : Z) (a : attempt) :
  port c = Atom (PInt z) -> endpoint_ok Host c ->
  (soft = true -> exists s, _conn c = Some s) ->
  plays E soft (n_connect w) (n_exchange w) [a] -> failed a ->
  wp (open_attempt E i soft) (fun r _ _ => r = Raise TypeError) c w.
Proof.
  intros Hport Hhost Hsoft Hplays Hfailed.
  unfold open_attempt. destruct soft; wp_simpl.
  - destruct Hsoft as [s Hs]; [done|]. wp_lin.
    destruct a as [e|e|key]; [| |done]; cbn [plays] in Hplays.
    + by destruct Hplays as ([=] & _).
    + destruct Hplays as (_ & Hh & _).
      by apply (handshake_int_port E i c w s z e).
  - apply wp_bind. eapply wp_mono; [by apply (open_connect_int_port E c w z)|].
    cbn beta. intros r c' w' Hout.
    destruct a as [e|e|key]; [| |done]; cbn [plays] in Hplays.
    + destruct Hplays as (_ & Hc & _). rewrite Hc in Hout. by subst r.
    + destruct Hplays as (Hc & Hh & _). rewrite Hc in Hout by done.
      destruct Hout as (-> & Hp' & Hs' & Hx'). wp_simpl.
      apply (handshake_int_port E i c' w' (next_sock w) z e); try done.
      by rewrite Hx'.
Qed.

(** C10: on a connection whose port is given as an integer,
    [connection_failed] raises [TypeError] from [len(self.port)], whatever
    the rest of the state; hence the first failure of [open], at the connect
    or at the handshake, ends [open] with that [TypeError] and no second
    attempt, and the first failure of [execute] ends [execute] with it.
    [connection_failed] returns on every connection whose host and port both
    have a length, that is, are strings or lists. *)
Theorem int_port_defeats_retry (E : Env) (c : t) (z : Z) :
  port c = Atom (PInt z) ->
  (forall w, result (connection_failed c w) = Raise TypeError) /\
  (forall soft a w,
     endpoint_ok Host c ->
     (soft = true -> exists s, _conn c = Some s) ->
     plays E soft (n_connect w) (n_exchange w) [a] -> failed a ->
     result (open E soft c w) = Raise TypeError) /\
  (forall script params isolate transaction w,
     (forall s, _conn c = Some s ->
        exists e, script_of (reply_at E (n_exchange w)) = inl e) ->
     result (execute E script params isolate transaction c w) = Raise TypeError) /\
  (forall c' w,
     py_len (host c') <> None -> py_len (port c') <> None ->
     result (connection_failed c' w) = Ret tt).
Proof.
  intros Hport. split; [|split; [|split]]; cycle 3.
  { intros c' w Hh Hp.
    apply (wp_run connection_failed (fun r _ _ => r = Ret tt)).
    unfold connection_failed. wp_auto; done. }
  - intros w.
    apply (wp_run connection_failed (fun r _ _ => r = Raise TypeError)).
    by apply (connection_failed_int_port _ _ z).
  - intros soft a w Hhost Hsoft Hplays Hfailed.
    apply (wp_run (open E soft) (fun r _ _ => r = Raise TypeError)).
    unfold open. wp_go. change (seq 0 CONNECTION_ATTEMPTS) with (0 :: seq 1 2).
    cbn [open_loop]. apply wp_bind.
    eapply wp_mono; [by apply (open_attempt_int_port E 0 soft _ _ z a)|].
    cbn beta. by intros r c' w' ->.
  - intros script params isolate transaction w Hfails.
    apply (wp_run (execute E script params isolate transaction)
             (fun r _ _ => r = Raise TypeError)).
    unfold execute. wp_go. change (seq 0 CONNECTION_ATTEMPTS) with (0 :: seq 1 2).
    rewrite execute_loop_cons. apply wp_bind. unfold execute_attempt. wp_go.
    destruct (_conn c) as [s|] eqn:Hs; wp_go.
    + destruct (Hfails s eq_refl) as [e He].
      destruct (reply_at E (n_exchange w)) as [e'|e'|resp] eqn:Hr; wp_go;
        rewrite ?Hs; wp_go; rewrite ?Hr; wp_go;
        try (destruct resp; [| |done]; wp_go).
      all: eapply wp_mono; [by apply (connection_failed_int_port _ _ z)|];
        cbn beta; by intros r c' w' ->.
    + eapply wp_mono; [by apply (connection_failed_int_port _ _ z)|].
      cbn beta. by intros r c' w' ->.
Qed.

Lemma int_port_defeats_retry_witness :
  result (connection_failed documented world0) = Raise TypeError /\
  result (open silent false documented world0) = Raise TypeError /\
  result (execute silent "g.V().count()" [] true true documented world0)
    = Raise TypeError.
Proof.
  destruct (int_port_defeats_retry silent documented 8184 eq_refl)
    as (Hfailed & Hopen & Hexecute & _).
  split; [apply Hfailed|]. split.
  - apply (Hopen false (HandshakeFails SocketError) world0).
    + exact I.
    + discriminate.
    + cbn. done.
    + exact I.
  - apply Hexecute. intros s [=].
Defined.

(** * What a call spends on the outside world *)

Lemma wp_any {S A} (m : M S A) s w : wp m (fun _ _ _ => True) s w.
Proof. unfold wp. by destruct (m s w) as [[??]?]. Qed.

Lemma wp_conj {S A} (m : M S A) (Q1 Q2 : res A -> S -> World -> Prop) s w :
  wp m Q1 s w -> wp m Q2 s w -> wp m (fun r s' w' => Q1 r s' w' /\ Q2 r s' w') s w.
Proof. unfold wp. by destruct (m s w) as [[??]?]. Qed.

Ltac within_solve :=
  try unfold attempt_cost in *;
  try unfold reconnect_cost in *;
  try unfold times in *;
  try unfold CONNECTION_ATTEMPTS in *;
  unfold within in *;
  cbn [length sockets connects exchanges draws selects teardowns
       n_exchange n_connect n_choice n_select n_teardown next_sock log
       tick_exchange tick_connect tick_choice tick_select tick_teardown tick_sock] in *;
  lia.

Lemma connection_failed_within (c : t) (w w0 : World) (k : cost) :
  within k w0 w ->
  wp connection_failed (fun _ _ w' => within k w0 w') c w.
Proof.
  intros H. eapply wp_mono; [apply connection_failed_frame|].
  cbn beta. intros r c' w' [-> _]. within_solve.
Qed.

Lemma draw_within (E : Env) (part : endpoint) (l : list atom) (bl : gset atom)
    (c : t) (w w0 : World) (k : cost) :
  within k w0 (tick_choice w) ->
  wp (draw E part l bl) (fun _ c' w' => c' = c /\ within k w0 w') c w.
Proof.
  intros H. unfold draw. wp_auto; (split; [done|]); within_solve.
Qed.

Lemma open_session_within (E : Env) (c : t) (w w0 : World) (k : cost) :
  within k w0 w -> within k w0 (tick_exchange w) ->
  wp (_open_session E) (fun _ _ w' => within k w0 w') c w.
Proof.
  intros H0 H1. unfold _open_session. wp_auto; within_solve.
Qed.

Lemma open_connect_within (E : Env) (c : t) (w : World) :
  wp (open_connect E)
     (fun _ _ w' =>
        within {| sockets := 1; connects := 1; exchanges := 0; draws := 2;
                  selects := 0; teardowns := 0 |} w w') c w.
Proof.
  unfold open_connect, draw, connection_failed. wp_auto; within_solve.
Qed.

Lemma open_attempt_within (E : Env) (i : nat) (soft : bool) (c : t) (w : World) :
  wp (open_attempt E i soft) (fun _ _ w' => within attempt_cost w w') c w.
Proof.
  unfold open_attempt. apply wp_bind.
  eapply (wp_mono _ (fun _ _ w' =>
            within {| sockets := 1; connects := 1; exchanges := 0; draws := 2;
                      selects := 0; teardowns := 0 |} w w')).
  { destruct soft; wp_simpl; [wp_go; within_solve | apply open_connect_within]. }
  cbn beta. intros [connected|e] c1 w1 H1; [|within_solve].
  unfold _open_session, connection_failed. wp_auto; within_solve.
Qed.

Lemma open_loop_within (E : Env) (attempts : list nat) (soft : bool) (c : t)
    (w : World) :
  wp (open_loop E attempts soft)
     (fun _ _ w' => within (times (length attempts) attempt_cost) w w') c w.
Proof.
  revert soft c w. induction attempts as [|i rest IH]; intros soft c w.
  - cbn [open_loop]. wp_go. within_solve.
  - cbn [open_loop]. apply wp_bind.
    eapply wp_mono; [apply open_attempt_within|]. cbn beta.
    intros [[[]|soft']|e] c1 w1 H1; [wp_go; within_solve | | within_solve].
    eapply wp_mono; [apply IH|]. cbn beta. intros r c2 w2 H2. within_solve.
Qed.

Lemma open_within (E : Env) (soft : bool) (c : t) (w : World) :
  wp (open E soft)
     (fun _ _ w' => within (times CONNECTION_ATTEMPTS attempt_cost) w w') c w.
Proof.
  unfold open. wp_go. eapply wp_mono; [apply open_loop_within|].
  cbn beta. intros r c' w' H. rewrite length_seq in H. within_solve.
Qed.

Lemma close_within (E : Env) (soft : bool) (c : t) (w : World) :
  wp (close E soft)
     (fun _ _ w' =>
        within {| sockets := 0; connects := 0; exchanges := 1; draws := 0;
                  selects := 0; teardowns := 0 |} w w') c w.
Proof. unfold close. wp_auto; within_solve. Qed.

Ltac within_call :=
  lazymatch goal with
  | |- wp connection_failed _ _ _ =>
      eapply wp_mono;
      [ apply connection_failed_frame | cbn beta; intros ? ? ? [-> _] ]
  | |- wp (close _ _) _ _ _ =>
      eapply wp_mono; [ apply close_within | cbn beta; intros ? ? ? ? ]
  | |- wp (open _ _) _ _ _ =>
      eapply wp_mono; [ apply open_within | cbn beta; intros ? ? ? ? ]
  end.

Ltac within_auto :=
  repeat (first [wp_step | wp_case | within_call]; wp_simpl); try within_solve.

(** A pass of the loop of [execute]: the script exchange and, unless the
    pass is the last one, the exchange of [close] and what [open] spends. *)
Lemma execute_attempt_within (E : Env) (i : nat) (script : string)
    (params : list (string * pyval)) (isolate transaction : bool)
    (c : t) (w : World) :
  wp (execute_attempt E i script params isolate transaction)
     (fun _ _ w' =>
        within (if (CONNECTION_ATTEMPTS - 1 <=? i)%nat
                then {| sockets := 0; connects := 0; exchanges := 1; draws := 0;
                        selects := 0; teardowns := 0 |}
                else {| sockets := 3; connects := 3; exchanges := 5; draws := 6;
                        selects := 0; teardowns := 0 |}) w w') c w.
Proof.
  unfold execute_attempt.
  destruct (CONNECTION_ATTEMPTS - 1 <=? i)%nat; within_auto.
Qed.

Lemma execute_within (E : Env) (script : string) (params : list (string * pyval))
    (isolate transaction : bool) (c : t) (w : World) :
  wp (execute E script params isolate transaction)
     (fun _ _ w' =>
        within {| sockets := 6; connects := 6; exchanges := 11; draws := 12;
                  selects := 0; teardowns := 0 |} w w') c w.
Proof.
  unfold execute. wp_go. change (seq 0 CONNECTION_ATTEMPTS) with [0; 1; 2].
  rewrite execute_loop_cons. apply wp_bind.
  eapply wp_mono; [apply execute_attempt_within|]. cbn beta.
  change (CONNECTION_ATTEMPTS - 1 <=? 0)%nat with false.
  intros [[results|t1]|e] c1 w1 H1; [wp_go; within_solve | | within_solve].
  rewrite execute_loop_cons. apply wp_bind.
  eapply wp_mono; [apply execute_attempt_within|]. cbn beta.
  change (CONNECTION_ATTEMPTS - 1 <=? 1)%nat with false.
  intros [[results|t2]|e] c2 w2 H2; [wp_go; within_solve | | within_solve].
  rewrite execute_loop_cons. apply wp_bind.
  eapply wp_mono; [apply execute_attempt_within|]. cbn beta.
  change (CONNECTION_ATTEMPTS - 1 <=? 2)%nat with true.
  intros [[results|t3]|e] c3 w3 H3; [wp_go; within_solve | | within_solve].
  cbn [execute_loop]. wp_go. within_solve.
Qed.

(** X1: [open] is bounded by [CONNECTION_ATTEMPTS]: whatever the world does, it
    creates at most three sockets and makes at most three connects, three
    session handshakes and six draws; it never selects on a socket and
    never shuts one down or closes one, not even the socket that a new
    attempt replaces. *)
Theorem open_spends_at_most (E : Env) (soft : bool) (c : t) (w : World) :
  within {| sockets := 3; connects := 3; exchanges := 3; draws := 6;
            selects := 0; teardowns := 0 |} w (world_after (open E soft c w)).
Proof.
  pose proof (open_within E soft c w) as H. apply wp_run in H. within_solve.
Qed.

(** X2: [execute] is bounded: three script exchanges and, after each of the
    first two, one [close] and one [open], that is at most eleven exchanges,
    six sockets, six connects and twelve draws; it never selects on a socket
    and never shuts one down or closes one. *)
Theorem execute_spends_at_most (E : Env) (script : string)
    (params : list (string * pyval)) (isolate transaction : bool)
    (c : t) (w : World) :
  within {| sockets := 6; connects := 6; exchanges := 11; draws := 12;
            selects := 0; teardowns := 0 |} w
         (world_after (execute E script params isolate transaction c w)).
Proof.
  pose proof (execute_within E script params isolate transaction c w) as H.
  by apply wp_run in H.
Qed.

Lemma run_op_within (E : Env) (o : op) (c : t) (w : World) :
  wp (run_op E o)
     (fun _ _ w' =>
        within {| sockets := 6; connects := 6; exchanges := 11; draws := 12;
                  selects := 0; teardowns := 0 |} w w') c w.
Proof.
  destruct o; cbn [run_op].
  - eapply wp_mono; [apply open_within|]. cbn beta. intros; within_solve.
  - eapply wp_mono; [apply close_within|]. cbn beta. intros; within_solve.
  - unfold open_transaction. wp_auto; try within_solve.
    eapply wp_mono; [apply execute_within|]. cbn beta.
    intros [?|?] ? ? ?; wp_go; within_solve.
  - unfold close_transaction. wp_auto; try within_solve.
    eapply wp_mono; [apply execute_within|]. cbn beta.
    intros [?|?] ? ? ?; wp_go; within_solve.
  - apply wp_bind. eapply wp_mono; [apply execute_within|]. cbn beta.
    intros [?|?] ? ? ?; wp_go; within_solve.
Qed.

(** X3: No operation of the life cycle releases a socket: however many calls of
    [open], [close], [open_transaction], [close_transaction] and [execute]
    are made and however they end, no socket is shut down or closed (a hard
    [close] included: it ends the session and leaves the socket open) and
    none is selected on.  Only [test_connection] does either. *)
Theorem lifecycle_never_tears_down (E : Env) (os : list op) (c : t) (w : World) :
  n_teardown (run_ops E os c w).2 = n_teardown w /\
  n_select (run_ops E os c w).2 = n_select w.
Proof.
  revert c w. induction os as [|o os IH]; intros c w; [done|].
  cbn [run_ops]. pose proof (run_op_within E o c w) as H. apply wp_run in H.
  destruct (IH (self_after (run_op E o c w)) (world_after (run_op E o c w)))
    as [-> ->].
  within_solve.
Qed.

(** * [test_connection] *)

Lemma only_session_changed_refl c : only_session_changed c c.
Proof. unfold only_session_changed. by destruct c. Qed.

Lemma only_session_changed_trans c1 c2 c3 :
  only_session_changed c1 c2 -> only_session_changed c2 c3 ->
  only_session_changed c1 c3.
Proof.
  unfold only_session_changed, set_in_transaction, set_session_key.
  destruct c1, c2, c3. cbn.
  intros [= -> -> -> -> -> -> -> -> -> -> -> -> ->]
         [= -> -> -> -> -> -> -> -> -> -> -> -> ->].
  reflexivity.
Qed.

Lemma only_session_changed_config c c' :
  only_session_changed c c' -> host c' = host c /\ port c' = port c.
Proof.
  intros H. split; [apply (f_equal host) in H | apply (f_equal port) in H];
    exact H.
Qed.

Lemma reconnect_attempt_spec (E : Env) (timeout_ : Z) (c : t) (w : World) :
  wp (reconnect_attempt E timeout_)
     (fun r c' w' =>
        only_session_changed c c' /\ within reconnect_cost w w' /\
        match r with
        | Ret true => reconnected c'
        | Ret false => True
        | Raise _ => False
        end) c w.
Proof.
  unfold reconnect_attempt, _open_session. wp_auto.
  all: split; [unfold only_session_changed; by destruct c|].
  all: split; [within_solve|]; try done.
  all: split; [done|]; by eexists.
Qed.

Lemma reconnect_loop_spec (E : Env) (timeouts : list Z) (c : t) (w : World) :
  wp (reconnect_loop E timeouts)
     (fun r c' w' =>
        only_session_changed c c' /\
        within (times (length timeouts) reconnect_cost) w w' /\
        (r = Ret tt /\ reconnected c' \/ r = Raise (could_not_reconnect c))) c w.
Proof.
  revert c w. induction timeouts as [|timeout_ rest IH]; intros c w.
  - cbn [reconnect_loop]. wp_go.
    split; [apply only_session_changed_refl|]. split; [within_solve|]. by right.
  - cbn [reconnect_loop]. apply wp_bind.
    eapply wp_mono; [apply reconnect_attempt_spec|]. cbn beta.
    intros [[]|e] c1 w1 (Hc1 & Hw1 & Hr1); [| |done].
    + wp_go. split; [done|]. split; [within_solve|]. by left.
    + eapply wp_mono; [apply IH|]. cbn beta.
      intros r c2 w2 (Hc2 & Hw2 & Hr2).
      split; [by eapply only_session_changed_trans|]. split; [within_solve|].
      destruct Hr2 as [?| ->]; [by left|right].
      unfold could_not_reconnect.
      by destruct (only_session_changed_config _ _ Hc1) as [-> ->].
Qed.

Lemma test_connection_spec (E : Env) (c : t) (w : World) :
  wp (test_connection E)
     (fun r c' w' =>
        only_session_changed c c' /\
        within {| sockets := 0; connects := 3; exchanges := 3; draws := 0;
                  selects := 4; teardowns := 6 |} w w' /\
        match select_at E (n_select w) with
        | inl e => r = Raise e /\ c' = c
        | inr (readable, writeable) =>
            if negb readable && negb writeable
            then r = Ret tt /\ reconnected c' \/ r = Raise (could_not_reconnect c)
            else r = Ret tt /\ c' = c /\
                 w' = tick_select (log (EvCall (_conn c) MTestConnection) w)
        end) c w.
Proof.
  unfold test_connection. wp_go.
  destruct (select_at E (n_select w)) as [e|[readable writeable]]; wp_simpl.
  - split; [apply only_session_changed_refl|]. split; [within_solve|]. done.
  - destruct (negb readable && negb writeable).
    + eapply wp_mono; [apply reconnect_loop_spec|]. cbn beta.
      intros r c' w' (Hc & Hw & Hr). split; [done|]. split; [|done].
      unfold reconnect_cost in *. within_solve.
    + wp_go. split; [apply only_session_changed_refl|]. split; [within_solve|].
      done.
Qed.

(** X4: The outcomes of [test_connection].  A fault of the first [_select]
    leaves it as it is, with the object unchanged.  A socket that is readable
    or writeable makes it return at once: nothing is changed, and the world
    saw the one select.  Otherwise it returns after a reconnect, with a new
    session key and out of any transaction, or raises
    [RexProConnectionException] with the configured host and port: every
    fault inside the three reconnect passes is swallowed. *)
Theorem test_connection_outcomes (E : Env) (c : t) (w : World) :
  match select_at E (n_select w) with
  | inl e => result (test_connection E c w) = Raise e /\
             self_after (test_connection E c w) = c
  | inr (readable, writeable) =>
      if negb readable && negb writeable
      then result (test_connection E c w) = Ret tt /\
           reconnected (self_after (test_connection E c w)) \/
           result (test_connection E c w) = Raise (could_not_reconnect c)
      else test_connection E c w =
             (Ret tt, c, tick_select (log (EvCall (_conn c) MTestConnection) w))
  end.
Proof.
  pose proof (test_connection_spec E c w) as H. apply wp_run in H.
  destruct H as (_ & _ & H).
  destruct (select_at E (n_select w)) as [e|[readable writeable]]; [done|].
  destruct (negb readable && negb writeable); [done|].
  unfold result, self_after, world_after in H.
  destruct (test_connection E c w) as [[r c'] w']. cbn in H.
  by destruct H as (-> & -> & ->).
Qed.

(** X5: [test_connection] works on the socket it has: it creates no socket and
    draws no endpoint, and spends at most four selects, six socket
    teardowns, three connects and three handshakes; of the object it changes
    [_session_key] and [_in_transaction] at most. *)
Theorem test_connection_touches_session_only (E : Env) (c : t) (w : World) :
  only_session_changed c (self_after (test_connection E c w)) /\
  within {| sockets := 0; connects := 3; exchanges := 3; draws := 0;
            selects := 4; teardowns := 6 |} w
         (world_after (test_connection E c w)).
Proof.
  pose proof (test_connection_spec E c w) as H. apply wp_run in H.
  by destruct H as (? & ? & _).
Qed.

(** X6: A reconnect that works at the first pass.  When the socket is neither
    readable nor writeable, [test_connection] shuts it down and closes it,
    connects the same socket object to [(self.host, self.port)] as
    configured (a candidate list is passed as it is: no endpoint is drawn),
    selects on it, sets its timeout and opens a session.  The object comes
    back with the new key and out of any transaction; [_opened] and the
    current endpoint are not touched. *)
Theorem test_connection_reconnects (E : Env) (c : t) (w : World) (s : Sock)
    (readable writeable : bool) (key : Key) :
  _conn c = Some s ->
  select_at E (n_select w) = inr (false, false) ->
  teardown_at E (n_teardown w) = None ->
  teardown_at E (S (n_teardown w)) = None ->
  connect_at E (n_connect w) = None ->
  select_at E (S (n_select w)) = inr (readable, writeable) ->
  readable || writeable = true ->
  handshake_of (reply_at E (n_exchange w)) = inr key ->
  result (test_connection E c w) = Ret tt /\
  self_after (test_connection E c w) =
    set_session_key (Some key) (set_in_transaction false c) /\
  trace (world_after (test_connection E c w)) =
    trace w ++
    [EvCall (Some s) MTestConnection; EvShutdown s; EvSockClose s;
     EvConnect s (host c) (port c); EvSetTimeout s (timeout c);
     EvSend s (SessionRequest (Some (username c)) (Some (password c))
                 (graph_name c) None None)].
Proof.
  intros Hs Hsel0 Ht0 Ht1 Hc Hsel1 Hready Hh.
  apply (wp_run (test_connection E)
           (fun r c' w' =>
              r = Ret tt /\
              c' = set_session_key (Some key) (set_in_transaction false c) /\
              trace w' =
                trace w ++
                [EvCall (Some s) MTestConnection; EvShutdown s; EvSockClose s;
                 EvConnect s (host c) (port c); EvSetTimeout s (timeout c);
                 EvSend s (SessionRequest (Some (username c)) (Some (password c))
                             (graph_name c) None None)])).
  assert (negb readable && negb writeable = false) as Hneg
    by (by destruct readable, writeable).
  assert (reply_at E (n_exchange w) = Received (SessionResponse key)) as Hreply.
  { destruct (reply_at E (n_exchange w)) as [e|e|[e|key'|results]];
      cbn [handshake_of] in Hh; congruence. }
  unfold test_connection. wp_go. rewrite Hsel0. wp_simpl.
  cbn [andb reconnect_loop]. unfold reconnect_attempt, _open_session.
  repeat (first [ progress wp_go | rewrite Hs | rewrite Ht0 | rewrite Ht1
                | rewrite Hc | rewrite Hsel1 | rewrite Hneg | rewrite Hreply
                | progress wp_simpl ]).
  split; [done|]. split; [by destruct c|].
  rewrite <- !app_assoc. reflexivity.
Qed.

Lemma test_connection_reconnects_witness :
  let c := (run_ops stale [OpOpen false] named world0).1 in
  let w := (run_ops stale [OpOpen false] named world0).2 in
  result (test_connection stale c w) = Ret tt /\
  self_after (test_connection stale c w) =
    set_session_key (Some "s2") (set_in_transaction false c) /\
  trace (world_after (test_connection stale c w)) =
    trace w ++
    [EvCall (Some 0) MTestConnection; EvShutdown 0; EvSockClose 0;
     EvConnect 0 (Atom (PStr "localhost")) (Atom (PStr "8184"));
     EvSetTimeout 0 (Atom PNone);
     EvSend 0 (SessionRequest (Some (Atom (PStr ""))) (Some (Atom (PStr "")))
                 (Atom (PStr "graph")) None None)].
Proof.
  intros c w.
  apply (test_connection_reconnects stale c w 0 true true "s2").
  all: vm_compute; reflexivity.
Defined.

(** * [open]: the first attempt that succeeds *)

(** The socket of the connection after a pass of the loop of [open]: the
    one it had on a soft pass, a new one otherwise. *)
Lemma open_attempt_conn (E : Env) (i : nat) (soft : bool) (c : t) (w : World) :
  wp (open_attempt E i soft)
     (fun _ c' _ => _conn c' = (if soft then _conn c else Some (next_sock w))) c w.
Proof.
  unfold open_attempt, open_connect, draw, connection_failed, _open_session.
  destruct soft; wp_auto; try done; congruence.
Qed.

Lemma open_loop_first_success (E : Env) (prefix : list attempt) (key : Key) :
  forall i soft c w,
    retry_ready c -> (soft = true -> exists s, _conn c = Some s) ->
    Forall failed prefix ->
    i + length prefix < CONNECTION_ATTEMPTS ->
    plays E soft (n_connect w) (n_exchange w) (prefix ++ [Succeeds key]) ->
    wp (open_loop E (seq i (CONNECTION_ATTEMPTS - i)) soft)
       (fun r c' _ =>
          r = Ret tt /\ _opened c' = true /\ _session_key c' = Some key /\
          _in_transaction c' = false /\ exists s, _conn c' = Some s) c w.
Proof.
  induction prefix as [|a rest IH]; intros i soft c w Hready Hsoft Hfailed Hlen Hplays.
  all: assert (CONNECTION_ATTEMPTS - i = S (CONNECTION_ATTEMPTS - S i)) as ->
    by (cbn [length] in Hlen; lia).
  all: cbn [seq open_loop]; apply wp_bind.
  all: eapply wp_mono;
    [apply (wp_conj (open_attempt E i soft));
       [by apply open_attempt_ready | apply open_attempt_conn]|].
  all: cbn beta; intros r c' w' [[Hready' Hout] Hconn].
  - cbn [app plays] in Hplays. destruct Hplays as (Hc & Hh & _).
    assert ((if soft then None else connect_at E (n_connect w)) = None) as Hnone.
    { destruct soft; [done|by apply Hc]. }
    rewrite Hnone, Hh in Hout. destruct Hout as (_ & _ & -> & ? & ? & ?).
    wp_go. repeat split; try done. rewrite Hconn.
    destruct soft; [by apply Hsoft | by eexists].
  - apply Forall_cons in Hfailed as [Ha Hrest]. cbn [length] in Hlen.
    destruct a as [e|e|key0]; [| |done]; cbn [app plays] in Hplays.
    + destruct Hplays as (-> & Hc & Hplays). rewrite Hc in Hout.
      destruct Hout as (-> & Hn & Hx).
      apply IH; try done; [lia|]. by rewrite Hn, Hx.
    + destruct Hplays as (Hc & Hh & Hplays).
      assert ((if soft then None else connect_at E (n_connect w)) = None) as Hnone.
      { destruct soft; [done|by apply Hc]. }
      rewrite Hnone, Hh in Hout. destruct Hout as (Hn & Hx & ->).
      assert ((CONNECTION_ATTEMPTS - 1 <=? i)%nat = false) as ->.
      { apply Nat.leb_gt. unfold CONNECTION_ATTEMPTS in *. lia. }
      apply IH; try done; [lia|]. by rewrite Hn, Hx.
Qed.

(** X7: [open] returns at the first attempt that succeeds: on a connection
    whose host and port are strings or usable candidate lists, after fewer
    than [CONNECTION_ATTEMPTS] failed attempts (none, one or two, at the
    connect or at the handshake), an attempt that connects and gets a
    session key makes [open] return with [_opened] true, that key stored,
    [_in_transaction] false and a socket in place. *)
Theorem open_returns_at_first_success (E : Env) (soft : bool)
    (prefix : list attempt) (key : Key) (c : t) (w : World) :
  retry_ready c ->
  (soft = true -> exists s, _conn c = Some s) ->
  Forall failed prefix ->
  length prefix < CONNECTION_ATTEMPTS ->
  plays E soft (n_connect w) (n_exchange w) (prefix ++ [Succeeds key]) ->
  result (open E soft c w) = Ret tt /\
  _opened (self_after (open E soft c w)) = true /\
  _session_key (self_after (open E soft c w)) = Some key /\
  _in_transaction (self_after (open E soft c w)) = false /\
  exists s, _conn (self_after (open E soft c w)) = Some s.
Proof.
  intros Hready Hsoft Hfailed Hlen Hplays.
  apply (wp_run (open E soft)
           (fun r c' _ =>
              r = Ret tt /\ _opened c' = true /\ _session_key c' = Some key /\
              _in_transaction c' = false /\ exists s, _conn c' = Some s)).
  unfold open. wp_go.
  apply (open_loop_first_success E prefix key 0 soft); done.
Qed.

Lemma open_returns_at_first_success_witness :
  result (open friendly false cluster world0) = Ret tt /\
  _opened (self_after (open friendly false cluster world0)) = true /\
  _session_key (self_after (open friendly false cluster world0)) = Some "s1" /\
  _in_transaction (self_after (open friendly false cluster world0)) = false /\
  exists s, _conn (self_after (open friendly false cluster world0)) = Some s.
Proof.
  apply (open_returns_at_first_success friendly false [] "s1" cluster world0).
  - exact cluster_ready.
  - discriminate.
  - constructor.
  - vm_compute. lia.
  - cbn. done.
Defined.

Lemma open_soft_success (E : Env) (c : t) (w : World) (s : Sock) (key : Key) :
  _conn c = Some s ->
  handshake_of (reply_at E (n_exchange w)) = inr key ->
  wp (open E true)
     (fun r c' w' =>
        r = Ret tt /\
        c' = set_session_key (Some key)
               (set_opened true
                  (set_session_key None (set_in_transaction false c))) /\
        w' = tick_exchange
               (log (EvSend s (SessionRequest (Some (username c))
                                 (Some (password c)) (graph_name c) None None))
                    (log (EvCall (Some s) (MOpen true)) w))) c w.
Proof.
  intros Hs Hh. unfold open. wp_go.
  change (seq 0 CONNECTION_ATTEMPTS) with (0 :: seq 1 2).
  cbn [open_loop]. unfold open_attempt, _open_session. wp_simpl. wp_go.
  rewrite Hs. wp_go.
  destruct (reply_at E (n_exchange w)) as [e|e|[e|key'|results]] eqn:Hreply;
    cbn [handshake_of] in Hh; try done.
  injection Hh as ->. wp_go. rewrite Hs. wp_go. rewrite Hreply. wp_go.
  done.
Qed.

Lemma open_scalar_success (E : Env) (c : t) (w : World) (h p : atom) (key : Key) :
  host c = Atom h -> port c = Atom p ->
  connect_at E (n_connect w) = None ->
  handshake_of (reply_at E (n_exchange w)) = inr key ->
  wp (open E false)
     (fun r c' w' =>
        r = Ret tt /\
        c' = set_session_key (Some key)
               (set_opened true
                  (set_session_key None
                     (set_in_transaction false
                        (set_current_port p
                           (set_current_host h
                              (set_conn (Some (next_sock w)) c)))))) /\
        w' = tick_exchange
               (log (EvSend (next_sock w)
                       (SessionRequest (Some (username c)) (Some (password c))
                          (graph_name c) None None))
                  (log (EvConnect (next_sock w) (Atom h) (Atom p))
                     (tick_connect
                        (log (EvSetTimeout (next_sock w) (timeout c))
                           (log (EvSocket (next_sock w))
                              (tick_sock
                                 (log (EvCall (_conn c) (MOpen false)) w))))))))
     c w.
Proof.
  intros Hhost Hport Hc Hh. unfold open. wp_go.
  change (seq 0 CONNECTION_ATTEMPTS) with (0 :: seq 1 2).
  cbn [open_loop]. unfold open_attempt, open_connect, _open_session.
  wp_simpl. wp_go. rewrite Hhost. wp_go. rewrite Hport. wp_go. rewrite Hc. wp_go.
  destruct (reply_at E (n_exchange w)) as [e|e|[e|key'|results]] eqn:Hreply;
    cbn [handshake_of] in Hh; try done.
  injection Hh as ->. wp_go. rewrite Hreply. wp_go.
  done.
Qed.

(** * [open]: when every connect is refused *)

Lemma open_loop_refused (E : Env) (n : nat) :
  forall i c w,
    retry_ready c ->
    (forall k, k < n -> connect_at E (n_connect w + k) <> None) ->
    wp (open_loop E (seq i n) false)
       (fun r c' w' =>
          r = Ret tt /\ _opened c' = _opened c /\
          _session_key c' = _session_key c /\
          _in_transaction c' = _in_transaction c /\
          n_exchange w' = n_exchange w) c w.
Proof.
  induction n as [|n IH]; intros i c w Hready Hrefused.
  - cbn [seq open_loop]. by wp_go.
  - cbn [seq open_loop]. apply wp_bind. unfold open_attempt. wp_simpl.
    apply wp_bind. eapply wp_mono; [by apply open_connect_ready|]. cbn beta.
    intros r c1 w1 (Hready1 & Hn1 & Hx1 & _ & Ho1 & Hk1 & Ht1 & ->).
    pose proof (Hrefused 0 ltac:(lia)) as H0. rewrite Nat.add_0_r in H0.
    destruct (connect_at E (n_connect w)) as [e|]; [|done].
    wp_simpl. wp_go.
    eapply wp_mono.
    { apply IH; [done|]. intros k Hk. rewrite Hn1.
      replace (S (n_connect w) + k) with (n_connect w + S k) by lia.
      apply Hrefused. lia. }
    cbn beta. intros r c2 w2 (-> & Ho2 & Hk2 & Ht2 & Hx2).
    repeat split; congruence.
Qed.

(** X8: [open] gives up without a fault when the connects are refused: on a
    connection whose host and port are strings or usable candidate lists,
    three refused connects make [open] return normally; nothing was sent,
    and [_opened], [_session_key] and [_in_transaction] are what they were,
    so that a connection that was not open is still not open. *)
Theorem open_gives_up_silently (E : Env) (c : t) (w : World) :
  retry_ready c ->
  (forall k, k < CONNECTION_ATTEMPTS -> connect_at E (n_connect w + k) <> None) ->
  result (open E false c w) = Ret tt /\
  _opened (self_after (open E false c w)) = _opened c /\
  _session_key (self_after (open E false c w)) = _session_key c /\
  _in_transaction (self_after (open E false c w)) = _in_transaction c /\
  n_exchange (world_after (open E false c w)) = n_exchange w.
Proof.
  intros Hready Hrefused.
  apply (wp_run (open E false)
           (fun r c' w' =>
              r = Ret tt /\ _opened c' = _opened c /\
              _session_key c' = _session_key c /\
              _in_transaction c' = _in_transaction c /\
              n_exchange w' = n_exchange w)).
  unfold open. wp_go.
  eapply wp_mono; [by apply (open_loop_refused E CONNECTION_ATTEMPTS 0)|].
  cbn beta. intros r c' w' H. exact H.
Qed.

Lemma open_gives_up_silently_witness :
  result (open unreachable false cluster world0) = Ret tt /\
  _opened (self_after (open unreachable false cluster world0)) = false /\
  _session_key (self_after (open unreachable false cluster world0)) = None /\
  _in_transaction (self_after (open unreachable false cluster world0)) = false /\
  n_exchange (world_after (open unreachable false cluster world0)) = 0.
Proof.
  apply (open_gives_up_silently unreachable cluster world0).
  - exact cluster_ready.
  - intros k _. discriminate.
Defined.

(** * [open]: failing over to another endpoint *)

Lemma draws_of_app part d1 d2 :
  draws_of part (d1 ++ d2) = draws_of part d1 ++ draws_of part d2.
Proof. apply omap_app. Qed.

Lemma fails_over_snoc ds bl pick :
  fails_over ds ->
  match last ds with
  | Some (_, Some a) => bl = ∅ \/ (a ∈ bl /\ pick <> Some a)
  | _ => True
  end ->
  fails_over (ds ++ [(bl, pick)]).
Proof.
  induction ds as [|d1 rest IH]; intros Hds Hlast; [cbn; by destruct pick|].
  destruct Hds as [H1 Hrest]. cbn [app fails_over]. split.
  - destruct rest as [|d2 rest']; cbn [app].
    + cbn in Hlast. destruct d1 as [bl1 [a|]]; done.
    + exact H1.
  - apply IH; [done|]. destruct rest as [|d2 rest']; [done|].
    by rewrite last_cons_cons in Hlast.
Qed.

Section FailOver.
Context (E : Env) (part : endpoint) (w0 : World).

Lemma drawn_world w w' ds :
  trace w' = trace w -> drawn part w0 w ds -> drawn part w0 w' ds.
Proof. intros Ht (d & Hd & Hds). exists d. by rewrite Ht. Qed.

Lemma drawn_log_other ev w ds :
  draws_of part [ev] = [] -> drawn part w0 w ds -> drawn part w0 (log ev w) ds.
Proof.
  intros Hev (d & Hd & Hds). exists (d ++ [ev]). cbn [trace log].
  rewrite Hd, app_assoc, draws_of_app, Hev, app_nil_r. done.
Qed.

Lemma drawn_log_draw l bl pick w ds :
  drawn part w0 w ds ->
  drawn part w0 (log (EvDraw part l bl pick) w) (ds ++ [(bl, pick)]).
Proof.
  intros (d & Hd & Hds). exists (d ++ [EvDraw part l bl pick]). cbn [trace log].
  rewrite Hd, app_assoc, draws_of_app, Hds. split; [done|]. by destruct part.
Qed.

(** The draw of [part] itself. *)
Lemma own_draw l c w ds :
  candidates part c = PyList l ->
  drawn part w0 w ds -> armed part c ds ->
  wp (draw E part l (blacklist part c))
     (fun r c' w' =>
        c' = c /\
        exists ds', drawn part w0 w' ds' /\ fails_over ds' /\
          match r with
          | Ret a => last ds' = Some (blacklist part c, Some a)
          | Raise _ => True
          end) c w.
Proof.
  intros Hl Hd [Hf Ha]. rewrite Hl in Ha. unfold draw.
  wp_go. destruct (_ !! _) as [a|] eqn:Hpick; wp_go.
  - split; [done|]. eexists. split.
    { apply drawn_log_draw. by apply (drawn_world w). }
    rewrite last_snoc. split; [|done].
    apply fails_over_snoc; [done|].
    destruct (last ds) as [[bl0 [a0|]]|]; [|done..].
    destruct Ha as [?|Ha]; [by left|right]. split; [done|].
    intros [= ->]. apply list_elem_of_lookup_2, elem_of_elements in Hpick.
    apply elem_of_difference in Hpick as [_ Hpick]. done.
  - split; [done|]. eexists. split.
    { apply drawn_log_draw. by apply (drawn_world w). }
    split; [|done]. apply fails_over_snoc; [done|].
    destruct (last ds) as [[bl0 [a0|]]|]; [|done..].
    destruct Ha as [?|Ha]; [by left|right]. by split.
Qed.

(** The draw of the other part. *)
Lemma other_draw other l bl c w ds :
  other <> part -> drawn part w0 w ds ->
  wp (draw E other l bl)
     (fun _ c' w' => c' = c /\ drawn part w0 w' ds) c w.
Proof.
  intros Hother Hd. unfold draw. wp_go. destruct (_ !! _) as [a|]; wp_go.
  all: split; [done|]; apply drawn_log_other;
    [by destruct other, part | by apply (drawn_world w)].
Qed.

(** After a failure the endpoint that failed is blacklisted, unless the
    blacklist is reset. *)
Lemma failed_rearms c w ds :
  drawn part w0 w ds -> tracked part c ds \/ ds = [] ->
  wp connection_failed
     (fun r c' w' =>
        candidates part c' = candidates part c /\
        exists ds', drawn part w0 w' ds' /\
          match r with
          | Ret _ => armed part c' ds'
          | Raise _ => fails_over ds'
          end) c w.
Proof.
  intros Hd Ht.
  assert (fails_over ds) as Hf by (destruct Ht as [[? _]| ->]; done).
  assert (forall c', candidates part c' = candidates part c ->
            (blacklist part c' = ∅ \/
             blacklist part c' = blacklist part c ∪ {[current part c]}) ->
            armed part c' ds) as Harm.
  { intros c' Hcand Hbl. split; [done|]. rewrite Hcand.
    destruct Ht as [[_ Ht]| ->]; [|by destruct (candidates part c)].
    destruct (candidates part c); [done|].
    destruct (last ds) as [[bl0 [a0|]]|]; [|done..].
    destruct Hbl as [?|Hbl]; [by left|right]. rewrite Hbl, Ht.
    apply elem_of_union_r. by apply elem_of_singleton. }
  unfold connection_failed. wp_auto.
  all: split; [by destruct part|].
  all: exists ds; split;
    [apply drawn_log_other; [by destruct part | done]|]; try done.
  all: apply Harm; [by destruct part|].
  all: destruct part; cbn [blacklist current]; wp_simpl; auto.
Qed.


Lemma tracked_frame c c' ds :
  candidates part c' = candidates part c -> current part c' = current part c ->
  tracked part c ds -> tracked part c' ds.
Proof. unfold tracked. by intros -> ->. Qed.

Lemma armed_frame c c' ds :
  candidates part c' = candidates part c -> blacklist part c' = blacklist part c ->
  armed part c ds -> armed part c' ds.
Proof. unfold armed. by intros -> ->. Qed.

Lemma armed_fails_over c ds : armed part c ds -> fails_over ds.
Proof. by intros [? _]. Qed.

Lemma tracked_fails_over c ds : tracked part c ds -> fails_over ds.
Proof. by intros [? _]. Qed.

(** The [try] around [connect] in a pass of [open]. *)
Lemma connect_step c w ds :
  drawn part w0 w ds -> tracked part c ds ->
  wp (try_except
        (c <- get_self ;; s <- the_conn ;;
         connect E s (Atom (current_host c)) (Atom (current_port c)) ;; ret true)
        (fun e => connection_failed ;; ret false))
     (fun r c' w' =>
        exists ds', drawn part w0 w' ds' /\
          match r with
          | Ret true => tracked part c' ds'
          | Ret false => armed part c' ds'
          | Raise _ => fails_over ds'
          end) c w.
Proof.
  intros Hd Ht. wp_go.
  destruct (_conn c) as [s|]; wp_go.
  - destruct (connect_at E (n_connect w)) as [e|]; wp_go.
    + eapply wp_mono.
      { apply (failed_rearms _ _ ds).
        - apply drawn_log_other; [by destruct part|]. by apply (drawn_world w).
        - by left. }
      cbn beta. intros [[]|e'] c' w' (_ & ds' & Hd' & H'); wp_go; by exists ds'.
    + exists ds. split; [|done].
      apply drawn_log_other; [by destruct part|]. by apply (drawn_world w).
  - eapply wp_mono; [apply (failed_rearms _ _ ds); [done | by left]|].
    cbn beta. intros [[]|e'] c' w' (_ & ds' & Hd' & H'); wp_go; by exists ds'.
Qed.

(** The [try] around the handshake in a pass of [open]. *)
Lemma handshake_step i c w ds :
  drawn part w0 w ds -> tracked part c ds \/ ds = [] ->
  wp (try_except
        (modify (set_in_transaction false) ;;
         modify (set_session_key None) ;;
         modify (set_opened true) ;;
         _open_session E ;;
         ret (Returned tt))
        (fun e =>
           connection_failed ;;
           if (CONNECTION_ATTEMPTS - 1 <=? i)%nat then raise e
           else ret (Continue false)))
     (fun r c' w' =>
        exists ds', drawn part w0 w' ds' /\
          match r with
          | Ret (Continue soft') => soft' = false /\ armed part c' ds'
          | _ => fails_over ds'
          end) c w.
Proof.
  intros Hd Ht.
  assert (fails_over ds) as Hf by (destruct Ht as [[? _]| ->]; done).
  assert (forall c1 w1 e,
            candidates part c1 = candidates part c ->
            current part c1 = current part c ->
            drawn part w0 w1 ds ->
            wp connection_failed
               (fun r c' w' =>
                  match r with
                  | Ret _ =>
                      wp (if (CONNECTION_ATTEMPTS - 1 <=? i)%nat then raise e
                          else ret (Continue (A := unit) false))
                         (fun r c' w' =>
                            exists ds', drawn part w0 w' ds' /\
                              match r with
                              | Ret (Continue soft') =>
                                  soft' = false /\ armed part c' ds'
                              | _ => fails_over ds'
                              end) c' w'
                  | Raise _ => exists ds', drawn part w0 w' ds' /\ fails_over ds'
                  end) c1 w1) as Hfail.
  { intros c1 w1 e Hcand Hcur Hd1. eapply wp_mono.
    { apply (failed_rearms _ _ ds); [done|].
      destruct Ht as [Ht|Ht]; [left|by right]. by apply (tracked_frame c). }
    cbn beta. intros [[]|e'] c' w' (_ & ds' & Hd' & H'); [|by exists ds'].
    destruct (CONNECTION_ATTEMPTS - 1 <=? i)%nat; wp_go; exists ds';
      (split; [done|]); [by apply (armed_fails_over c')|done]. }
  unfold _open_session.
  destruct (_conn c) as [s|] eqn:Hs;
    destruct (reply_at E (n_exchange w)) as [e|e|[e|key|results]] eqn:Hreply;
    repeat (first [progress wp_go | rewrite Hs | rewrite Hreply]).
  all: try (apply Hfail; [by destruct part | by destruct part |];
            repeat first [ apply drawn_log_other; [by destruct part|]
                         | apply (drawn_world part w0 w); [done|] ]; done).
  all: exists ds; split; [|done].
  all: repeat first [ apply drawn_log_other; [by destruct part|]
                    | apply (drawn_world part w0 w); [done|] ]; done.
Qed.

End FailOver.

Lemma open_connect_fails_over (E : Env) (part : endpoint) (w0 : World) c w ds :
  drawn part w0 w ds -> armed part c ds ->
  wp (open_connect E)
     (fun r c' w' =>
        exists ds', drawn part w0 w' ds' /\
          match r with
          | Ret true => tracked part c' ds'
          | Ret false => armed part c' ds'
          | Raise _ => fails_over ds'
          end) c w.
Proof.
  intros Hd Ha. unfold open_connect. wp_lin.
  assert (drawn part w0
            (log (EvSetTimeout (next_sock w) (timeout c))
               (log (EvSocket (next_sock w)) (tick_sock w))) ds) as Hd1.
  { do 2 (apply drawn_log_other; [by destruct part|]).
    by apply (drawn_world _ _ w). }
  assert (armed part (set_conn (Some (next_sock w)) c) ds) as Ha0
    by (apply (armed_frame _ c); by destruct part).
  eapply (wp_mono _ (fun r c1 w2 =>
            exists ds1, drawn part w0 w2 ds1 /\
              match r with
              | Ret _ =>
                  port c1 = port c /\
                  match part with
                  | Host => tracked part c1 ds1
                  | Port => armed part c1 ds1
                  end
              | Raise _ => fails_over ds1
              end)).
  { destruct (host c) as [a|l] eqn:Hh.
    - wp_go. exists ds. split; [done|]. split; [done|].
      destruct part.
      + destruct Ha as [Hf Ha]. cbn [candidates] in Ha. rewrite Hh in Ha.
        split; [done|]. cbn [candidates]. wp_simpl. by rewrite Hh.
      + by apply (armed_frame _ (set_conn (Some (next_sock w)) c)).
    - destruct part.
      + apply wp_bind. eapply wp_mono.
        { by apply (own_draw E Host w0 l (set_conn (Some (next_sock w)) c) _ ds). }
        cbn beta. intros [a|e] c1 w2 (-> & ds' & Hd' & Hf' & Hlast); wp_go;
          exists ds'; (split; [done|]); [|done].
        split; [done|]. split; [done|]. cbn [candidates]. wp_simpl.
        by rewrite Hh, Hlast.
      + apply wp_bind. eapply wp_mono.
        { by apply (other_draw E Port w0 Host l _ (set_conn (Some (next_sock w)) c) _ ds). }
        cbn beta. intros [a|e] c1 w2 (-> & Hd'); wp_go; exists ds;
          (split; [done|]); [|by apply (armed_fails_over _ _ _ Ha0)].
        split; [done|].
        by apply (armed_frame _ (set_conn (Some (next_sock w)) c)). }
  cbn beta. intros [[]|e] c1 w2 (ds1 & Hd2 & H1); [|by exists ds1].
  destruct H1 as [Hport H1]. apply wp_bind.
  eapply (wp_mono _ (fun r c2 w3 =>
            exists ds2, drawn part w0 w3 ds2 /\
              match r with
              | Ret _ => tracked part c2 ds2
              | Raise _ => fails_over ds2
              end)).
  { destruct (port c) as [a|l] eqn:Hp.
    - wp_go. exists ds1. split; [done|].
      destruct part.
      + by apply (tracked_frame _ c1).
      + destruct H1 as [Hf H1]. cbn [candidates] in H1. rewrite Hport in H1.
        split; [done|]. cbn [candidates]. wp_simpl. by rewrite Hport.
    - wp_go. destruct part.
      + eapply wp_mono.
        { by apply (other_draw E Host w0 Port l _ c1 _ ds1). }
        cbn beta. intros [a|e] c2 w3 (-> & Hd'); wp_go; exists ds1;
          (split; [done|]); [|by apply (tracked_fails_over _ _ _ H1)].
        by apply (tracked_frame _ c1).
      + eapply wp_mono.
        { by apply (own_draw E Port w0 l c1 _ ds1). }
        cbn beta. intros [a|e] c2 w3 (-> & ds' & Hd' & Hf' & Hlast); wp_go;
          exists ds'; (split; [done|]); [|done].
        split; [done|]. cbn [candidates]. wp_simpl.
        by rewrite Hport, Hlast. }
  cbn beta. intros [[]|e] c2 w3 (ds2 & Hd3 & H2); [|by exists ds2].
  by apply (connect_step E _ w0 _ _ ds2).
Qed.

Lemma open_attempt_fails_over (E : Env) (part : endpoint) (w0 : World) i soft
    c w ds :
  drawn part w0 w ds -> armed part c ds -> (soft = true -> ds = []) ->
  wp (open_attempt E i soft)
     (fun r c' w' =>
        exists ds', drawn part w0 w' ds' /\
          match r with
          | Ret (Continue soft') => soft' = false /\ armed part c' ds'
          | _ => fails_over ds'
          end) c w.
Proof.
  intros Hd Ha Hsoft. unfold open_attempt. destruct soft; wp_simpl.
  - wp_lin. apply (handshake_step E part w0 i c w ds); [done|]. right. by apply Hsoft.
  - apply wp_bind. eapply wp_mono; [by apply (open_connect_fails_over E part w0 c w ds)|].
    cbn beta. intros [[]|e] c1 w1 (ds1 & Hd1 & H1); wp_simpl; [| |by exists ds1].
    + apply (handshake_step E part w0 i c1 w1 ds1); [done|]. by left.
    + wp_go. by exists ds1.
Qed.

Lemma open_loop_fails_over (E : Env) (part : endpoint) (w0 : World) attempts :
  forall soft c w ds,
    drawn part w0 w ds -> armed part c ds -> (soft = true -> ds = []) ->
    wp (open_loop E attempts soft)
       (fun _ _ w' => exists ds', drawn part w0 w' ds' /\ fails_over ds') c w.
Proof.
  induction attempts as [|i rest IH]; intros soft c w ds Hd Ha Hsoft.
  - cbn [open_loop]. wp_go. exists ds. split; [done|]. by destruct Ha.
  - cbn [open_loop]. apply wp_bind.
    eapply wp_mono; [by apply (open_attempt_fails_over E part w0 i soft c w ds)|].
    cbn beta. intros [[[]|soft']|e] c1 w1 (ds1 & Hd1 & H1);
      [wp_go; by exists ds1 | | by exists ds1].
    destruct H1 as [-> H1]. by apply (IH false c1 w1 ds1).
Qed.

(** X9: Within one call of [open], a retry goes elsewhere.  Take the draws of
    the host (or of the port) that the call makes, in order: each draw that
    follows a pick finds that pick in the blacklist, and therefore picks
    another candidate (or finds nothing left to pick), unless it finds the
    blacklist empty, that is, just reset by [connection_failed]. *)
Theorem open_fails_over (E : Env) (part : endpoint) (soft : bool) (c : t)
    (w : World) :
  exists d,
    trace (world_after (open E soft c w)) = trace w ++ d /\
    fails_over (draws_of part d).
Proof.
  assert (wp (open E soft)
            (fun _ _ w' => exists ds', drawn part w w' ds' /\ fails_over ds') c w)
    as H.
  { unfold open. wp_go.
    apply (open_loop_fails_over E part w _ soft c _ []); [| |done].
    - exists [EvCall (_conn c) (MOpen soft)]. split; [done|]. by destruct part.
    - split; [done|]. by destruct (candidates part c). }
  apply wp_run in H. destruct H as (ds' & (d & Hd & <-) & Hf). by exists d.
Qed.

(** * The constructor *)

Lemma new_unfold (E : Env) (host port graph_name graph_obj_name username
    password timeout : pyval) (w : World) :
  new E host port graph_name graph_obj_name username password timeout w =
  match open E false (blank host port graph_name graph_obj_name username
                            password timeout) w with
  | (Ret _, c, w') => (Ret c, w')
  | (Raise e, _, w') => (Raise e, w')
  end.
Proof. reflexivity. Qed.

(** X10: The constructor on the way that works, host and port given as single
    values (the port may be an integer): when the connect is accepted and
    the handshake is answered with a session key, it creates one socket,
    sets its timeout, connects it to (host, port) and sends one session
    request with the user name, the password and the graph name; the object
    it returns is open, holds that key and has the host and the port as its
    current endpoint. *)
Theorem new_opens_one_session (E : Env) (h p : atom) (graph_name
    graph_obj_name username password timeout : pyval) (w : World) (key : Key) :
  connect_at E (n_connect w) = None ->
  handshake_of (reply_at E (n_exchange w)) = inr key ->
  let s := next_sock w in
  new E (Atom h) (Atom p) graph_name graph_obj_name username password timeout w =
    (Ret (set_session_key (Some key)
            (set_opened true
               (set_current_port p
                  (set_current_host h
                     (set_conn (Some s)
                        (blank (Atom h) (Atom p) graph_name graph_obj_name
                               username password timeout)))))),
     tick_exchange
       (log (EvSend s (SessionRequest (Some username) (Some password)
                         graph_name None None))
          (log (EvConnect s (Atom h) (Atom p))
             (tick_connect
                (log (EvSetTimeout s timeout)
                   (log (EvSocket s)
                      (tick_sock (log (EvCall None (MOpen false)) w)))))))).
Proof.
  intros Hc Hh s. rewrite new_unfold.
  match goal with
  | |- match ?run with _ => _ end = (Ret ?c1, ?w1) =>
      enough (wp (open E false)
                (fun r c' w' => r = Ret tt /\ c' = c1 /\ w' = w1)
                (blank (Atom h) (Atom p) graph_name graph_obj_name username
                       password timeout) w) as Hwp
  end.
  { unfold wp in Hwp. destruct (open E false _ w) as [[r c'] w'].
    by destruct Hwp as (-> & -> & ->). }
  unfold open, blank. wp_go.
  change (seq 0 CONNECTION_ATTEMPTS) with (0 :: seq 1 2).
  cbn [open_loop]. unfold open_attempt, open_connect, _open_session.
  wp_simpl. wp_go. rewrite Hc. wp_go.
  destruct (reply_at E (n_exchange w)) as [e|e|[e|key'|results]] eqn:Hreply;
    cbn [handshake_of] in Hh; try done.
  injection Hh as ->. wp_go. rewrite Hreply. wp_go.
  done.
Qed.

Lemma new_opens_one_session_witness :
  new friendly (Atom (PStr "localhost")) (Atom (PInt 8184)) (Atom (PStr "graph"))
      (Atom (PStr "g")) (Atom (PStr "")) (Atom (PStr "")) (Atom PNone) world0 =
    (Ret (set_session_key (Some "s1")
            (set_opened true
               (set_current_port (PInt 8184)
                  (set_current_host (PStr "localhost")
                     (set_conn (Some 0) documented))))),
     tick_exchange
       (log (EvSend 0 (SessionRequest (Some (Atom (PStr ""))) (Some (Atom (PStr "")))
                         (Atom (PStr "graph")) None None))
          (log (EvConnect 0 (Atom (PStr "localhost")) (Atom (PInt 8184)))
             (tick_connect
                (log (EvSetTimeout 0 (Atom PNone))
                   (log (EvSocket 0)
                      (tick_sock (log (EvCall None (MOpen false)) world0)))))))).
Proof.
  apply (new_opens_one_session friendly (PStr "localhost") (PInt 8184)
           (Atom (PStr "graph")) (Atom (PStr "g")) (Atom (PStr "")) (Atom (PStr ""))
           (Atom PNone) world0 "s1"); reflexivity.
Defined.

(** X11: The constructor can return a connection that is not open: with host and
    port given as strings or non-empty duplicate-free lists, three refused
    connects make [RexProBaseConnection(...)] return an object with
    [_opened] false and no session key, and no fault. *)
Theorem new_returns_unopened (E : Env) (host port graph_name graph_obj_name
    username password timeout : pyval) (w : World) :
  retry_ready (blank host port graph_name graph_obj_name username password
                     timeout) ->
  (forall k, k < CONNECTION_ATTEMPTS -> connect_at E (n_connect w + k) <> None) ->
  exists c w',
    new E host port graph_name graph_obj_name username password timeout w
      = (Ret c, w') /\
    _opened c = false /\ _session_key c = None /\
    n_exchange w' = n_exchange w.
Proof.
  intros Hready Hrefused. rewrite new_unfold.
  pose proof (open_loop_refused E CONNECTION_ATTEMPTS 0
                (blank host port graph_name graph_obj_name username password
                       timeout)
                (log (EvCall None (MOpen false)) w) Hready Hrefused) as H.
  assert (wp (open E false)
            (fun r c' w' =>
               r = Ret tt /\ _opened c' = false /\ _session_key c' = None /\
               n_exchange w' = n_exchange w)
            (blank host port graph_name graph_obj_name username password timeout)
            w) as Hopen.
  { unfold open. wp_go. eapply wp_mono; [exact H|]. cbn beta.
    intros r c' w' (? & ? & ? & ? & ?). done. }
  unfold wp in Hopen.
  destruct (open E false _ w) as [[r c'] w'].
  destruct Hopen as (-> & ? & ? & ?). by exists c', w'.
Qed.

Lemma new_returns_unopened_witness :
  exists c w',
    new unreachable (PyList [PStr "h1"; PStr "h2"; PStr "h3"])
        (PyList [PInt 8184; PInt 8185]) (Atom (PStr "graph")) (Atom (PStr "g"))
        (Atom (PStr "")) (Atom (PStr "")) (Atom PNone) world0 = (Ret c, w') /\
    _opened c = false /\ _session_key c = None /\ n_exchange w' = 0.
Proof.
  apply (new_returns_unopened unreachable (PyList [PStr "h1"; PStr "h2"; PStr "h3"])
           (PyList [PInt 8184; PInt 8185]) (Atom (PStr "graph")) (Atom (PStr "g"))
           (Atom (PStr "")) (Atom (PStr "")) (Atom PNone) world0).
  - exact cluster_ready.
  - intros k _. discriminate.
Defined.

(** * [execute] *)

Lemma connection_failed_returns (c : t) (w : World) :
  py_len (host c) <> None -> py_len (port c) <> None ->
  wp connection_failed
     (fun r c' w' =>
        r = Ret tt /\
        w' = log (EvCall (_conn c) MConnectionFailed) w /\
        c' = set_host_blacklist (host_blacklist c')
               (set_port_blacklist (port_blacklist c') c)) c w.
Proof.
  intros Hh Hp.
  eapply wp_mono.
  { apply (wp_conj connection_failed (fun r _ _ => r = Ret tt));
      [|apply connection_failed_frame].
    unfold connection_failed. wp_auto; done. }
  cbn beta. intros r c' w' (? & ? & ?). done.
Qed.

Lemma execute_answered (E : Env) (script : string)
    (params : list (string * pyval)) (isolate transaction : bool)
    (c : t) (w : World) (s : Sock) (results : list pyval) :
  _conn c = Some s ->
  script_of (reply_at E (n_exchange w)) = inr results ->
  wp (execute E script params isolate transaction)
     (fun r c' w' =>
        r = Ret (Some results) /\ c' = c /\
        w' = tick_exchange
               (log (EvSend s (ScriptRequest script params (_session_key c)
                                 isolate
                                 (if _in_transaction c then false
                                  else transaction)))
                    (log (EvCall (Some s) MExecute) w))) c w.
Proof.
  intros Hs Hr.
  unfold execute. wp_go. change (seq 0 CONNECTION_ATTEMPTS) with (0 :: seq 1 2).
  rewrite execute_loop_cons. unfold execute_attempt. wp_go. rewrite Hs. wp_go.
  destruct (reply_at E (n_exchange w)) as [e|e|[e|key|results']] eqn:Hreply;
    try done.
  injection Hr as ->. wp_go. rewrite Hs. wp_go. rewrite Hreply. wp_go.
  done.
Qed.

Lemma execute_attempt_answered (E : Env) (i : nat) (script : string)
    (params : list (string * pyval)) (isolate transaction : bool)
    (c : t) (w : World) (s : Sock) (results : list pyval) :
  _conn c = Some s ->
  script_of (reply_at E (n_exchange w)) = inr results ->
  wp (execute_attempt E i script params isolate transaction)
     (fun r c' w' =>
        r = Ret (Returned results) /\ c' = c /\
        w' = tick_exchange
               (log (EvSend s (ScriptRequest script params (_session_key c)
                                 isolate
                                 (if _in_transaction c then false
                                  else transaction))) w)) c w.
Proof.
  intros Hs Hr. unfold execute_attempt. wp_go. rewrite Hs. wp_go.
  destruct (reply_at E (n_exchange w)) as [e|e|[e|key|results']] eqn:Hreply;
    try done.
  injection Hr as ->. wp_go. rewrite Hs. wp_go. rewrite Hreply. wp_go.
  done.
Qed.

(** X12: A script that is answered at the first try: [execute] returns the
    results and leaves the object as it was; the world saw the entry of
    [execute] and one script request, sent with the session key of the
    connection and with [in_transaction] as the caller asked, unless the
    connection is in a transaction, when it is false. *)
Theorem execute_returns_first_answer (E : Env) (script : string)
    (params : list (string * pyval)) (isolate transaction : bool)
    (c : t) (w : World) (s : Sock) (results : list pyval) :
  _conn c = Some s ->
  script_of (reply_at E (n_exchange w)) = inr results ->
  execute E script params isolate transaction c w =
    (Ret (Some results), c,
     tick_exchange
       (log (EvSend s (ScriptRequest script params (_session_key c) isolate
                         (if _in_transaction c then false else transaction)))
            (log (EvCall (Some s) MExecute) w))).
Proof.
  intros Hs Hr.
  pose proof (execute_answered E script params isolate transaction c w s results
                Hs Hr) as H.
  unfold wp in H.
  destruct (execute E script params isolate transaction c w) as [[r c'] w'].
  by destruct H as (-> & -> & ->).
Qed.

Lemma execute_returns_first_answer_witness :
  let c := (run_ops friendly [OpOpen false] localhost world0).1 in
  let w := (run_ops friendly [OpOpen false] localhost world0).2 in
  execute friendly "g.V().count()" [] true true c w =
    (Ret (Some []), c,
     tick_exchange
       (log (EvSend 0 (ScriptRequest "g.V().count()" [] (Some "s1") true true))
            (log (EvCall (Some 0) MExecute) w))).
Proof.
  intros c w.
  apply (execute_returns_first_answer friendly "g.V().count()" [] true true c w
           0 []); reflexivity.
Defined.

(** X13: [execute] never falls off its loop: it returns a list of results or
    raises, whatever the world does (the loop of [open], by contrast, can
    run out). *)
Theorem execute_returns_results_or_raises (E : Env) (script : string)
    (params : list (string * pyval)) (isolate transaction : bool)
    (c : t) (w : World) :
  result (execute E script params isolate transaction c w) <> Ret None.
Proof.
  apply (wp_run (execute E script params isolate transaction)
           (fun r _ _ => r <> Ret None)).
  assert (forall t3 c3 w3,
            wp (execute_attempt E 2 script params isolate t3)
               (fun r _ _ => forall t4, r <> Ret (Continue t4)) c3 w3) as Hlast.
  { intros t3 c3 w3. unfold execute_attempt.
    change (CONNECTION_ATTEMPTS - 1 <=? 2)%nat with true. cbn match.
    repeat (first
              [ wp_step | wp_case
              | lazymatch goal with
                | |- wp connection_failed _ _ _ =>
                    eapply wp_mono; [apply wp_any | cbn beta; intros ? ? ? _]
                end ]; wp_simpl).
    all: by intros ?. }
  unfold execute. wp_go. change (seq 0 CONNECTION_ATTEMPTS) with [0; 1; 2].
  rewrite execute_loop_cons. apply wp_bind. eapply wp_mono; [apply wp_any|].
  cbn beta. intros [[results|t1]|e] c1 w1 _; [by wp_go| |done].
  rewrite execute_loop_cons. apply wp_bind. eapply wp_mono; [apply wp_any|].
  cbn beta. intros [[results|t2]|e] c2 w2 _; [by wp_go| |done].
  rewrite execute_loop_cons. apply wp_bind. eapply wp_mono; [apply Hlast|].
  cbn beta. intros [[results|t3]|e] c3 w3 H; [by wp_go| |done].
  by destruct (H t3).
Qed.

(** * The retry of [execute] *)

(** The first pass of [execute] when its exchange fails and
    [connection_failed] returns: what is left to run is the [close], the
    [open] and the other two passes. *)
Lemma execute_after_first_failure (E : Env) (script : string)
    (params : list (string * pyval)) (isolate transaction : bool)
    (c : t) (w : World) (s : Sock) (e : exn)
    (Q : res (option (list pyval)) -> t -> World -> Prop) :
  _conn c = Some s ->
  py_len (host c) <> None -> py_len (port c) <> None ->
  script_of (reply_at E (n_exchange w)) = inl e ->
  (forall c1 w1,
     c1 = set_host_blacklist (host_blacklist c1)
            (set_port_blacklist (port_blacklist c1) c) ->
     n_exchange w1 = S (n_exchange w) ->
     within {| sockets := 0; connects := 0; exchanges := 1; draws := 0;
               selects := 0; teardowns := 0 |} w w1 ->
     wp (close E false ;; open E false ;;
         ret (Continue (A := list pyval)
                (if _in_transaction c then false else transaction)))
        (fun r c' w' =>
           match r with
           | Ret (Returned results) => Q (Ret (Some results)) c' w'
           | Ret (Continue transaction') =>
               wp (execute_loop E [1; 2] script params isolate transaction')
                  Q c' w'
           | Raise e' => Q (Raise e') c' w'
           end) c1 w1) ->
  wp (execute E script params isolate transaction) Q c w.
Proof.
  intros Hs Hh Hp Hr Hrest.
  unfold execute. wp_go. change (seq 0 CONNECTION_ATTEMPTS) with [0; 1; 2].
  rewrite execute_loop_cons. apply wp_bind. unfold execute_attempt.
  change (CONNECTION_ATTEMPTS - 1 <=? 0)%nat with false. cbn match.
  wp_go. rewrite Hs. wp_go.
  destruct (reply_at E (n_exchange w)) as [e0|e0|[e0|key|results]] eqn:Hreply;
    cbn [script_of] in Hr; try done; wp_go; rewrite ?Hs; wp_go;
    rewrite ?Hreply; wp_go.
  all: eapply wp_mono; [by apply connection_failed_returns|]; cbn beta.
  all: intros r c1 w1 (-> & -> & Hc1); wp_simpl.
  all: eapply wp_mono; [apply Hrest; [done | done | within_solve]|]; cbn beta.
  all: intros [[results|transaction']|e'] c2 w2 H; by wp_go.
Qed.

Lemma close_answered (E : Env) (soft : bool) (c : t) (w : World) (s : Sock) :
  _conn c = Some s ->
  kill_of (reply_at E (n_exchange w)) = inr tt ->
  wp (close E soft)
     (fun r c' w' =>
        r = Ret tt /\
        c' = set_in_transaction false
               (set_session_key None (if soft then c else set_opened false c)) /\
        w' = tick_exchange
               (log (EvSend s (SessionRequest None None (graph_name c)
                                 (Some (_session_key c)) (Some true)))
                    (log (EvCall (Some s) (MClose soft)) w))) c w.
Proof.
  intros Hs Hk. unfold close. wp_go. rewrite Hs. wp_go.
  destruct (reply_at E (n_exchange w)) as [e|e|[e|key|results]] eqn:Hreply;
    cbn [kill_of] in Hk; try done.
  all: wp_go; rewrite Hs; wp_go; rewrite Hreply; wp_go.
  all: destruct soft; wp_go; done.
Qed.

(** X14: A failed attempt is retried only if the session can be closed first:
    when the exchange of the script fails and then that of [close] fails
    too (as both do on a dead link), [execute] raises the fault of [close],
    not that of the script, after those two exchanges: no socket is created
    and no connect is made. *)
Theorem execute_gives_up_when_close_fails (E : Env) (script : string)
    (params : list (string * pyval)) (isolate transaction : bool)
    (c : t) (w : World) (s : Sock) (e e' : exn) :
  _conn c = Some s ->
  py_len (host c) <> None -> py_len (port c) <> None ->
  script_of (reply_at E (n_exchange w)) = inl e ->
  kill_of (reply_at E (S (n_exchange w))) = inl e' ->
  result (execute E script params isolate transaction c w) = Raise e' /\
  within {| sockets := 0; connects := 0; exchanges := 2; draws := 0;
            selects := 0; teardowns := 0 |} w
         (world_after (execute E script params isolate transaction c w)).
Proof.
  intros Hs Hh Hp Hr Hk.
  apply (wp_run (execute E script params isolate transaction)
           (fun r _ w' =>
              r = Raise e' /\
              within {| sockets := 0; connects := 0; exchanges := 2; draws := 0;
                        selects := 0; teardowns := 0 |} w w')).
  apply (execute_after_first_failure E _ _ _ _ c w s e); try done.
  intros c1 w1 Hc1 Hx1 Hw1. apply wp_bind.
  eapply wp_mono.
  { apply (wp_conj (close E false)); [apply close_spec | apply close_within]. }
  cbn beta. intros r c2 w2 [Hclose Hw2].
  assert (_conn c1 = Some s) as Hs1 by (by rewrite Hc1).
  rewrite Hs1, Hx1 in Hclose.
  assert (r = Raise e') as ->.
  { destruct (reply_at E (S (n_exchange w))) as [e0|e0|[e0|key|results]];
      cbn [kill_of] in Hk; try done; injection Hk as ->; by destruct Hclose. }
  split; [done|]. clear Hclose. within_solve.
Qed.

Lemma execute_gives_up_when_close_fails_witness :
  let c := (run_ops link_drops [OpOpen false; OpOpenTransaction] localhost world0).1 in
  let w := (run_ops link_drops [OpOpen false; OpOpenTransaction] localhost world0).2 in
  result (execute link_drops "g.V().count()" [] true true c w) = Raise SocketError /\
  within {| sockets := 0; connects := 0; exchanges := 2; draws := 0;
            selects := 0; teardowns := 0 |} w
         (world_after (execute link_drops "g.V().count()" [] true true c w)).
Proof.
  intros c w.
  apply (execute_gives_up_when_close_fails link_drops "g.V().count()" [] true true
           c w 0 SocketError SocketError).
  - vm_compute. reflexivity.
  - vm_compute. discriminate.
  - vm_compute. discriminate.
  - vm_compute. reflexivity.
  - vm_compute. reflexivity.
Defined.

(** X15: A retry that works, on a connection whose host and port are strings.
    The exchange of the script fails; [execute] closes the session, opens a
    new socket and a new session, and sends the script again: it returns the
    results of that second request, which went out on the new socket with
    the new session key.  The connection ends [_opened], on that socket, with
    that key and out of any transaction.  One socket, one connect and four
    exchanges were spent; the socket of the failed attempt was not closed. *)
Theorem execute_retries_in_new_session (E : Env) (script : string)
    (params : list (string * pyval)) (isolate transaction : bool)
    (c : t) (w : World) (s : Sock) (h q : string) (e : exn) (key : Key)
    (results : list pyval) :
  _conn c = Some s ->
  host c = Atom (PStr h) -> port c = Atom (PStr q) ->
  script_of (reply_at E (n_exchange w)) = inl e ->
  kill_of (reply_at E (1 + n_exchange w)) = inr tt ->
  connect_at E (n_connect w) = None ->
  handshake_of (reply_at E (2 + n_exchange w)) = inr key ->
  script_of (reply_at E (3 + n_exchange w)) = inr results ->
  let c' := self_after (execute E script params isolate transaction c w) in
  let w' := world_after (execute E script params isolate transaction c w) in
  result (execute E script params isolate transaction c w) = Ret (Some results) /\
  _conn c' = Some (next_sock w) /\ _opened c' = true /\
  _session_key c' = Some key /\ _in_transaction c' = false /\
  last (trace w') =
    Some (EvSend (next_sock w)
            (ScriptRequest script params (Some key) isolate
               (if _in_transaction c then false else transaction))) /\
  within {| sockets := 1; connects := 1; exchanges := 4; draws := 0;
            selects := 0; teardowns := 0 |} w w'.
Proof.
  intros Hs Hhost Hport Hr Hk Hc Hh Hr2 c' w'.
  apply (wp_run (execute E script params isolate transaction)
           (fun r c' w' =>
              r = Ret (Some results) /\
              _conn c' = Some (next_sock w) /\ _opened c' = true /\
              _session_key c' = Some key /\ _in_transaction c' = false /\
              last (trace w') =
                Some (EvSend (next_sock w)
                        (ScriptRequest script params (Some key) isolate
                           (if _in_transaction c then false else transaction))) /\
              within {| sockets := 1; connects := 1; exchanges := 4; draws := 0;
                        selects := 0; teardowns := 0 |} w w')).
  apply (execute_after_first_failure E _ _ _ _ c w s e); try done.
  { by rewrite Hhost. }
  { by rewrite Hport. }
  intros c1 w1 Hc1 Hx1 Hw1.
  assert (_conn c1 = Some s) as Hs1 by (by rewrite Hc1).
  assert (host c1 = Atom (PStr h)) as Hhost1 by (by rewrite Hc1).
  assert (port c1 = Atom (PStr q)) as Hport1 by (by rewrite Hc1).
  assert (next_sock w1 = next_sock w /\ n_connect w1 = n_connect w) as [Hn1 Hk1]
    by within_solve.
  apply wp_bind. eapply wp_mono.
  { apply (close_answered E false c1 w1 s); [done|]. by rewrite Hx1. }
  cbn beta. intros r c2 w2 (-> & -> & ->).
  apply wp_bind. eapply wp_mono.
  { apply (open_scalar_success E _ _ (PStr h) (PStr q) key); wp_simpl; try done.
    - by rewrite Hk1.
    - by rewrite Hx1. }
  cbn beta. intros r c3 w3 (-> & -> & ->). wp_go.
  rewrite execute_loop_cons. apply wp_bind. eapply wp_mono.
  { apply (execute_attempt_answered E 1 _ _ _ _ _ _ (next_sock w1) results);
      wp_simpl; [done|]. by rewrite Hx1. }
  cbn beta. intros r c4 w4 (-> & -> & ->). wp_go.
  rewrite Hn1. split; [done|]. do 4 (split; [done|]). split.
  - cbn [trace log tick_exchange]. by rewrite last_snoc.
  - clear Hc1. within_solve.
Qed.

Lemma execute_retries_in_new_session_witness :
  let c := (run_ops hiccup [OpOpen false; OpOpenTransaction] named world0).1 in
  let w := (run_ops hiccup [OpOpen false; OpOpenTransaction] named world0).2 in
  let c' := self_after (execute hiccup "g.V().count()" [] true true c w) in
  let w' := world_after (execute hiccup "g.V().count()" [] true true c w) in
  result (execute hiccup "g.V().count()" [] true true c w) = Ret (Some []) /\
  _conn c' = Some 1 /\ _opened c' = true /\
  _session_key c' = Some "s2" /\ _in_transaction c' = false /\
  last (trace w') =
    Some (EvSend 1 (ScriptRequest "g.V().count()" [] (Some "s2") true false)) /\
  within {| sockets := 1; connects := 1; exchanges := 4; draws := 0;
            selects := 0; teardowns := 0 |} w w'.
Proof.
  intros c w.
  apply (execute_retries_in_new_session hiccup "g.V().count()" [] true true c w
           0 "localhost" "8184" SocketError "s2" []).
  all: vm_compute; reflexivity.
Defined.

(** * Who starts and who ends a transaction *)

Lemma connection_failed_keeps_idle c w :
  idle c -> idle (self_after (connection_failed c w)).
Proof.
  intros Hc. pose proof (connection_failed_frame c w) as H.
  apply wp_run in H. destruct H as [_ ->]. exact Hc.
Qed.

Section Idle.
Context (E : Env).

Ltac idle_side :=
  first
    [ exact connection_failed_keeps_idle
    | by (intros;
          repeat match goal with b : bool |- _ => destruct b end;
          try unfold idle in *; cbn in *; try done) ].

Lemma open_keeps_idle soft σ0 c w :
  keeps idle (fun _ => True) σ0 (c, w) ->
  wp (open E soft) (fun _ c' w' => keeps idle (fun _ => True) σ0 (c', w')) c w.
Proof. intros Hk. apply keeps_open; try idle_side; done. Qed.

Lemma close_keeps_idle soft σ0 c w :
  keeps idle (fun _ => True) σ0 (c, w) ->
  wp (close E soft) (fun _ c' w' => keeps idle (fun _ => True) σ0 (c', w')) c w.
Proof. intros Hk. apply keeps_close; try idle_side; done. Qed.

Lemma execute_loop_keeps_idle attempts script params isolate transaction σ0 c w :
  keeps idle (fun _ => True) σ0 (c, w) ->
  wp (execute_loop E attempts script params isolate transaction)
     (fun _ c' w' => keeps idle (fun _ => True) σ0 (c', w')) c w.
Proof.
  intros Hk.
  apply (keeps_execute_loop E idle (fun _ => True)); try idle_side; by right.
Qed.

Lemma execute_keeps_idle script params isolate transaction σ0 c w :
  keeps idle (fun _ => True) σ0 (c, w) ->
  wp (execute E script params isolate transaction)
     (fun _ c' w' => keeps idle (fun _ => True) σ0 (c', w')) c w.
Proof.
  intros Hk.
  apply (keeps_execute E idle (fun _ => True)); try idle_side; by right.
Qed.

Lemma close_transaction_keeps_idle success σ0 c w :
  keeps idle (fun _ => True) σ0 (c, w) ->
  wp (close_transaction E success)
     (fun _ c' w' => keeps idle (fun _ => True) σ0 (c', w')) c w.
Proof. intros Hk. apply keeps_close_transaction; try idle_side; done. Qed.

Lemma test_connection_keeps_idle σ0 c w :
  keeps idle (fun _ => True) σ0 (c, w) ->
  wp (test_connection E)
     (fun _ c' w' => keeps idle (fun _ => True) σ0 (c', w')) c w.
Proof. intros Hk. apply keeps_test_connection; try idle_side; done. Qed.

End Idle.

Lemma keeps_idle_since c w c' w' :
  keeps idle (fun _ => True) (c, w) (c', w') -> idle c -> idle c'.
Proof. intros [_ H] Hc. by destruct (H Hc). Qed.

(** X16: Only [open_transaction] starts a transaction: on a connection that is
    not in one, [open], [close], [close_transaction], [execute] and
    [test_connection] leave [_in_transaction] false, whether they return or
    raise. *)
Theorem only_open_transaction_begins (E : Env) (c : t) (w : World) :
  _in_transaction c = false ->
  (forall o, o <> OpOpenTransaction ->
     _in_transaction (self_after (run_op E o c w)) = false) /\
  _in_transaction (self_after (test_connection E c w)) = false.
Proof.
  intros Hc.
  pose proof (keeps_refl idle (fun _ => True) (c, w)) as Hk. split.
  - intros o Ho.
    assert (wp (run_op E o)
              (fun _ c' w' => keeps idle (fun _ => True) (c, w) (c', w')) c w) as H.
    { destruct o; cbn [run_op]; [| |done| |].
      - by apply open_keeps_idle.
      - by apply close_keeps_idle.
      - by apply close_transaction_keeps_idle.
      - apply wp_bind. eapply wp_mono; [by apply execute_keeps_idle|].
        cbn beta. intros [?|?] ? ? ?; by wp_go. }
    apply wp_run in H. by apply (keeps_idle_since _ _ _ _ H).
  - pose proof (test_connection_keeps_idle E (c, w) c w Hk) as H.
    apply wp_run in H. by apply (keeps_idle_since _ _ _ _ H).
Qed.

Lemma only_open_transaction_begins_witness :
  let c := (run_ops friendly [OpOpen false] localhost world0).1 in
  let w := (run_ops friendly [OpOpen false] localhost world0).2 in
  _in_transaction
    (self_after (run_op friendly (OpExecute "g.V().count()" [] true true) c w))
    = false /\
  _in_transaction (self_after (test_connection friendly c w)) = false.
Proof.
  intros c w.
  destruct (only_open_transaction_begins friendly c w eq_refl) as [Hop Htest].
  split; [by apply Hop | exact Htest].
Defined.

(** X17: [open_transaction] sets [_in_transaction] only when it returns: when it
    raises, from its guard or from the [execute] of its control script, the
    flag is what it was. *)
Theorem failed_open_transaction_keeps_flag (E : Env) (c : t) (w : World)
    (e : exn) :
  result (open_transaction E c w) = Raise e ->
  _in_transaction (self_after (open_transaction E c w)) = _in_transaction c.
Proof.
  apply (wp_run (open_transaction E)
           (fun r c' _ => r = Raise e -> _in_transaction c' = _in_transaction c)).
  unfold open_transaction. wp_go.
  destruct (_in_transaction c) eqn:Hc; wp_go; [done|].
  eapply wp_mono.
  { apply (execute_keeps_idle E _ _ _ _ (c, w)).
    apply keeps_log; [done|]. apply keeps_refl. }
  cbn beta. intros [?|?] c' w' Hk; wp_go; [done|].
  intros _. by apply (keeps_idle_since _ _ _ _ Hk).
Qed.

Lemma failed_open_transaction_keeps_flag_witness :
  result (open_transaction silent documented world0) = Raise TypeError /\
  _in_transaction (self_after (open_transaction silent documented world0)) = false.
Proof.
  split; [reflexivity|].
  apply (failed_open_transaction_keeps_flag silent documented world0 TypeError).
  reflexivity.
Defined.

Lemma close_transaction_idle (E : Env) (success : bool) (c : t) (w : World) :
  _in_transaction c = false ->
  result (close_transaction E success c w) =
    Raise (RexProScriptException "transaction is not open").
Proof.
  intros Hc.
  apply (wp_run (close_transaction E success)
           (fun r _ _ => r = Raise (RexProScriptException "transaction is not open"))).
  unfold close_transaction. wp_go. rewrite Hc. by wp_go.
Qed.

(** X18: A retry inside a transaction ends the transaction on the side of the
    client: when the exchange of the script fails and the kill request of
    the [close] that follows is answered, [_in_transaction] is false when
    [execute] is over, however the retry goes; a [close_transaction] after
    it, such as the one that ends a [transaction] scope, raises
    "transaction is not open". *)
Theorem execute_retry_ends_transaction (E : Env) (script : string)
    (params : list (string * pyval)) (isolate transaction success : bool)
    (c : t) (w : World) (s : Sock) (e : exn) (resp : Response) :
  _conn c = Some s ->
  py_len (host c) <> None -> py_len (port c) <> None ->
  script_of (reply_at E (n_exchange w)) = inl e ->
  reply_at E (S (n_exchange w)) = Received resp ->
  _in_transaction
    (self_after (execute E script params isolate transaction c w)) = false /\
  result (close_transaction E success
            (self_after (execute E script params isolate transaction c w))
            (world_after (execute E script params isolate transaction c w))) =
    Raise (RexProScriptException "transaction is not open").
Proof.
  intros Hs Hh Hp Hr Hk.
  assert (_in_transaction
            (self_after (execute E script params isolate transaction c w)) = false)
    as Hidle; [|split; [exact Hidle | by apply close_transaction_idle]].
  apply (wp_run (execute E script params isolate transaction)
           (fun _ c' _ => idle c')).
  apply (execute_after_first_failure E _ _ _ _ c w s e); try done.
  intros c1 w1 Hc1 Hx1 Hw1. apply wp_bind.
  eapply wp_mono; [apply close_spec|]. cbn beta. intros r c2 w2 Hclose.
  assert (_conn c1 = Some s) as Hs1 by (by rewrite Hc1).
  rewrite Hs1, Hx1, Hk in Hclose. destruct Hclose as [-> Hc2].
  assert (idle c2) as Hi2 by (by rewrite Hc2). clear Hc2.
  destruct resp as [e'|key|results]; [done|..].
  all: apply wp_bind; eapply wp_mono;
    [apply (open_keeps_idle E false (c2, w2)), keeps_refl|]; cbn beta.
  all: intros [[]|e'] c3 w3 Hk3; [|by apply (keeps_idle_since _ _ _ _ Hk3)].
  all: wp_go; eapply wp_mono; [by apply execute_loop_keeps_idle|]; cbn beta.
  all: intros r c4 w4 Hk4; by apply (keeps_idle_since _ _ _ _ Hk4).
Qed.

Lemma execute_retry_ends_transaction_witness :
  let c := (run_ops hiccup [OpOpen false; OpOpenTransaction] named world0).1 in
  let w := (run_ops hiccup [OpOpen false; OpOpenTransaction] named world0).2 in
  _in_transaction c = true /\
  _in_transaction
    (self_after (execute hiccup "g.V().count()" [] true true c w)) = false /\
  result (close_transaction hiccup true
            (self_after (execute hiccup "g.V().count()" [] true true c w))
            (world_after (execute hiccup "g.V().count()" [] true true c w))) =
    Raise (RexProScriptException "transaction is not open").
Proof.
  intros c w. split; [reflexivity|].
  apply (execute_retry_ends_transaction hiccup "g.V().count()" [] true true true
           c w 0 SocketError (SessionResponse "")).
  - vm_compute. reflexivity.
  - vm_compute. discriminate.
  - vm_compute. discriminate.
  - vm_compute. reflexivity.
  - vm_compute. reflexivity.
Defined.

(** X19: A transaction with nothing in it, on a connection whose scripts are
    answered at the first try: [open_transaction] sends the one script
    "g.stopTransaction(FAILURE)" and sets [_in_transaction];
    [close_transaction] sends "g.stopTransaction(SUCCESS)" to commit or
    "g.stopTransaction(FAILURE)" to roll back and leaves the object as it was
    before the two calls.  Both scripts go out with the session key of the
    connection, without isolation and with [in_transaction] false. *)
Theorem transaction_control_scripts (E : Env) (success : bool) (c : t)
    (w : World) (s : Sock) (r1 r2 : list pyval) :
  _conn c = Some s ->
  _in_transaction c = false ->
  script_of (reply_at E (n_exchange w)) = inr r1 ->
  script_of (reply_at E (S (n_exchange w))) = inr r2 ->
  let w1 := control_sent MOpenTransaction s "g.stopTransaction(FAILURE)"
              (_session_key c) w in
  open_transaction E c w = (Ret tt, set_in_transaction true c, w1) /\
  close_transaction E success (set_in_transaction true c) w1 =
    (Ret tt, c,
     control_sent (MCloseTransaction success) s
       (if success then "g.stopTransaction(SUCCESS)"
        else "g.stopTransaction(FAILURE)")
       (_session_key c) w1).
Proof.
  intros Hs Hidle Hr1 Hr2 w1. split.
  - enough (wp (open_transaction E)
              (fun r c' w' => (r, c', w') = (Ret tt, set_in_transaction true c, w1))
              c w) as Hwp.
    { unfold wp in Hwp. by destruct (open_transaction E c w) as [[??]?]. }
    unfold open_transaction. wp_go. rewrite Hidle.
    apply wp_bind. eapply wp_mono.
    { apply (execute_answered E _ _ _ _ c _ s r1); [done|]. exact Hr1. }
    cbn beta. intros r c' w' (-> & -> & ->). wp_go.
    unfold w1, control_sent. by rewrite Hs, Hidle.
  - enough (wp (close_transaction E success)
              (fun r c' w' => (r, c', w') =
                 (Ret tt, c,
                  control_sent (MCloseTransaction success) s
                    (if success then "g.stopTransaction(SUCCESS)"
                     else "g.stopTransaction(FAILURE)")
                    (_session_key c) w1))
              (set_in_transaction true c) w1) as Hwp.
    { unfold wp in Hwp.
      by destruct (close_transaction E success _ w1) as [[??]?]. }
    unfold close_transaction. wp_go.
    eapply wp_mono.
    { apply (execute_answered E _ _ _ _ _ _ s r2); [done|]. exact Hr2. }
    cbn beta. intros r c' w' (-> & -> & ->). wp_go.
    unfold control_sent. rewrite Hs.
    replace (set_in_transaction false (set_in_transaction true c)) with c
      by (destruct c; cbn in *; by subst).
    by destruct success.
Qed.

Lemma transaction_control_scripts_witness :
  let c := (run_ops friendly [OpOpen false] localhost world0).1 in
  let w := (run_ops friendly [OpOpen false] localhost world0).2 in
  let w1 := control_sent MOpenTransaction 0 "g.stopTransaction(FAILURE)"
              (Some "s1") w in
  open_transaction friendly c w = (Ret tt, set_in_transaction true c, w1) /\
  close_transaction friendly true (set_in_transaction true c) w1 =
    (Ret tt, c,
     control_sent (MCloseTransaction true) 0 "g.stopTransaction(SUCCESS)"
       (Some "s1") w1).
Proof.
  intros c w.
  apply (transaction_control_scripts friendly true c w 0 [] []).
  all: vm_compute; reflexivity.
Defined.

(** X20: Transactions do not nest: on a connection that is in a transaction and
    whose socket [test_connection] finds readable or writeable, the scope
    raises "transaction is already open" before its body runs; the object is
    as it was, still in the outer transaction, and nothing was sent. *)
Theorem transaction_does_not_nest (E : Env) {A} (body : M t A) (c : t)
    (w : World) (readable writeable : bool) :
  _in_transaction c = true ->
  select_at E (n_select w) = inr (readable, writeable) ->
  readable || writeable = true ->
  transaction E body c w =
    (Raise (RexProScriptException "transaction is already open"), c,
     log (EvCall (_conn c) MOpenTransaction)
       (tick_select (log (EvCall (_conn c) MTestConnection) w))).
Proof.
  intros Hc Hsel Hready.
  enough (wp (transaction E body)
            (fun r c' w' => (r, c', w') =
               (Raise (RexProScriptException "transaction is already open"), c,
                log (EvCall (_conn c) MOpenTransaction)
                  (tick_select (log (EvCall (_conn c) MTestConnection) w))))
            c w) as Hwp.
  { unfold wp in Hwp. by destruct (transaction E body c w) as [[??]?]. }
  unfold transaction. apply wp_bind. unfold test_connection. wp_go.
  rewrite Hsel. wp_simpl.
  assert (negb readable && negb writeable = false) as ->
    by (by destruct readable, writeable).
  wp_go. apply wp_bind. unfold open_transaction. wp_go. rewrite Hc. by wp_go.
Qed.

Lemma transaction_does_not_nest_witness :
  let c := (run_ops friendly [OpOpen false; OpOpenTransaction] localhost world0).1 in
  let w := (run_ops friendly [OpOpen false; OpOpenTransaction] localhost world0).2 in
  transaction friendly (execute friendly "g.V().count()" [] true true) c w =
    (Raise (RexProScriptException "transaction is already open"), c,
     log (EvCall (Some 0) MOpenTransaction)
       (tick_select (log (EvCall (Some 0) MTestConnection) w))).
Proof.
  intros c w.
  apply (transaction_does_not_nest friendly
           (execute friendly "g.V().count()" [] true true) c w true true).
  all: vm_compute; reflexivity.
Defined.

(** * The pool: acquiring and restoring a connection *)

Lemma create_connection_head (E : Env) (kw : Pool.kwargs) (p : Pool.t)
    (w : World) (conn : t) (rest : list t) :
  Pool.pool p = conn :: rest ->
  Pool.create_connection E kw p w =
    match open E (_opened conn) conn w with
    | (Ret _, conn', w') => (Ret conn', Pool.set_pool rest p, w')
    | (Raise e, _, w') => (Raise e, Pool.set_pool rest p, w')
    end.
Proof.
  intros Hpool.
  unfold Pool.create_connection, Pool.get, Pool.call, bind, get_self, modify, ret,
    raise.
  rewrite Hpool. by destruct (open E (_opened conn) conn w) as [[[[]|e] c'] w'].
Qed.

(** X21: An idle connection is taken as it is: when the queue is not empty,
    [create_connection] takes its head and reopens it, softly if it is
    [_opened], whatever overrides the caller passes; the connection it
    returns has the configuration of the idle one.  The head leaves the
    queue also when its [open] raises: that connection is lost to the
    pool. *)
Theorem create_connection_takes_head (E : Env) (kw : Pool.kwargs) (p : Pool.t)
    (w : World) (conn : t) (rest : list t) :
  Pool.pool p = conn :: rest ->
  Pool.create_connection E kw p w = Pool.create_connection E Pool.no_kwargs p w /\
  Pool.pool (self_after (Pool.create_connection E kw p w)) = rest /\
  match result (Pool.create_connection E kw p w) with
  | Ret conn' =>
      conn' = self_after (open E (_opened conn) conn w) /\ same_config conn conn'
  | Raise e => result (open E (_opened conn) conn w) = Raise e
  end.
Proof.
  intros Hpool. rewrite !(create_connection_head E _ p w conn rest Hpool).
  split; [done|].
  pose proof (open_same_config E (_opened conn) conn w) as Hconfig.
  unfold result, self_after in *.
  by destruct (open E (_opened conn) conn w) as [[[[]|e] c'] w'].
Qed.

Lemma create_connection_takes_head_witness :
  let conn := (run_ops friendly [OpOpen false; OpClose true] localhost world0).1 in
  let w := (run_ops friendly [OpOpen false; OpClose true] localhost world0).2 in
  let p := Pool.set_pool [conn] guarded_pool in
  Pool.create_connection friendly anonymous p w =
    Pool.create_connection friendly Pool.no_kwargs p w /\
  Pool.pool (self_after (Pool.create_connection friendly anonymous p w)) = [] /\
  host (self_after (open friendly true conn w)) = PyList [PStr "localhost"].
Proof.
  intros conn w p.
  destruct (create_connection_takes_head friendly anonymous p w conn [] eq_refl)
    as (Hkw & Hpool & Hout).
  split; [exact Hkw|]. split; [exact Hpool|]. reflexivity.
Defined.

Lemma wp_CONN_CLASS (E : Env) (host port graph_name graph_obj_name username
    password timeout : pyval) Q (p : Pool.t) (w : World) :
  wp (open E false)
     (fun r c' w' =>
        match r with
        | Ret _ => Q (Ret c') p w'
        | Raise e => Q (Raise e) p w'
        end)
     (blank host port graph_name graph_obj_name username password timeout) w ->
  wp (Pool.CONN_CLASS E host port graph_name graph_obj_name username password
        timeout) Q p w.
Proof.
  unfold wp, Pool.CONN_CLASS. rewrite new_unfold.
  by destruct (open E false _ w) as [[[[]|e] c'] w'].
Qed.

(** X22: A new connection opens two sessions: with an empty queue,
    [create_connection] builds the connection, whose constructor opens it,
    and then opens it again, softly: a second session request goes out on
    the same socket and its key replaces the first, which no request ever
    closes. *)
Theorem fresh_connection_handshakes_twice (E : Env) (kw : Pool.kwargs)
    (p : Pool.t) (w : World) (h q : atom) (key1 key2 : Key) :
  Pool.pool p = [] ->
  py_or (Pool.kw_host kw) (Pool.host p) = Atom h ->
  py_or (Pool.kw_port kw) (Pool.port p) = Atom q ->
  connect_at E (n_connect w) = None ->
  handshake_of (reply_at E (n_exchange w)) = inr key1 ->
  handshake_of (reply_at E (S (n_exchange w))) = inr key2 ->
  exists conn d,
    result (Pool.create_connection E kw p w) = Ret conn /\
    self_after (Pool.create_connection E kw p w) = p /\
    _session_key conn = Some key2 /\ _opened conn = true /\
    _conn conn = Some (next_sock w) /\
    trace (world_after (Pool.create_connection E kw p w)) = trace w ++ d /\
    entries d = [(None, MOpen false); (Some (next_sock w), MOpen true)] /\
    within {| sockets := 1; connects := 1; exchanges := 2; draws := 0;
              selects := 0; teardowns := 0 |} w
           (world_after (Pool.create_connection E kw p w)).
Proof.
  intros Hpool Hh Hq Hc Hk1 Hk2.
  apply (wp_run (Pool.create_connection E kw)
           (fun r p' w' =>
              exists conn d,
                r = Ret conn /\ p' = p /\
                _session_key conn = Some key2 /\ _opened conn = true /\
                _conn conn = Some (next_sock w) /\
                trace w' = trace w ++ d /\
                entries d = [(None, MOpen false); (Some (next_sock w), MOpen true)] /\
                within {| sockets := 1; connects := 1; exchanges := 2; draws := 0;
                          selects := 0; teardowns := 0 |} w w')).
  unfold Pool.create_connection, Pool.get, Pool._create_connection.
  wp_go. rewrite Hpool. wp_go. rewrite Hh, Hq.
  apply wp_CONN_CLASS. eapply wp_mono.
  { by apply (open_scalar_success E _ w h q key1). }
  cbn beta. intros r c1 w1 (-> & -> & ->). wp_go.
  apply wp_call. wp_simpl. eapply wp_mono.
  { apply (open_soft_success E _ _ (next_sock w) key2); [done|]. exact Hk2. }
  cbn beta. intros r c2 w2 (-> & -> & ->). wp_go.
  eexists _, _. split; [reflexivity|]. split; [reflexivity|].
  do 3 (split; [reflexivity|]). split.
  - cbn [trace log tick_exchange tick_connect tick_sock].
    rewrite <- !app_assoc. reflexivity.
  - split; [reflexivity|]. within_solve.
Qed.

Lemma fresh_connection_handshakes_twice_witness :
  exists conn d,
    result (Pool.create_connection stale Pool.no_kwargs plain_pool world0) = Ret conn /\
    self_after (Pool.create_connection stale Pool.no_kwargs plain_pool world0)
      = plain_pool /\
    _session_key conn = Some "s2" /\ _opened conn = true /\
    _conn conn = Some 0 /\
    trace (world_after
             (Pool.create_connection stale Pool.no_kwargs plain_pool world0))
      = trace world0 ++ d /\
    entries d = [(None, MOpen false); (Some 0, MOpen true)] /\
    within {| sockets := 1; connects := 1; exchanges := 2; draws := 0;
              selects := 0; teardowns := 0 |} world0
           (world_after
              (Pool.create_connection stale Pool.no_kwargs plain_pool world0)).
Proof.
  apply (fresh_connection_handshakes_twice stale Pool.no_kwargs plain_pool world0
           (PStr "localhost") (PInt 8184) "s1" "s2"); reflexivity.
Defined.

Lemma close_connection_spec (E : Env) (conn : t) (soft : bool) (p : Pool.t)
    (w : World) :
  wp (Pool.close_connection E conn soft)
     (fun r p' w' =>
        match r with
        | Ret _ =>
            exists conn',
              p' = Pool.set_pool (Pool.pool p ++ [conn']) p /\
              if _opened conn
              then conn' = set_in_transaction false
                             (set_session_key None
                                (if soft then conn else set_opened false conn)) /\
                   result (close E soft conn w) = Ret tt /\
                   w' = world_after (close E soft conn w)
              else conn' = conn /\ w' = w
        | Raise e =>
            p' = p /\ _opened conn = true /\
            result (close E soft conn w) = Raise e /\
            w' = world_after (close E soft conn w)
        end) p w.
Proof.
  unfold Pool.close_connection, Pool.put. apply wp_bind.
  destruct (_opened conn) eqn:Ho.
  - apply wp_bind. apply wp_call.
    pose proof (close_spec E soft conn w) as H. apply wp_run in H.
    apply wp_run. destruct (close E soft conn w) as [[r c'] w'].
    unfold result, self_after, world_after in *. cbn [fst snd] in *.
    destruct r as [[]|e]; wp_go.
    + eexists. split; [reflexivity|]. split; [|done].
      destruct (_conn conn); [|by destruct H].
      destruct (reply_at E (n_exchange w)) as [?|?|resp]; try by destruct H.
    + done.
  - wp_go. eexists. by split.
Qed.

(** X23: [close_connection] gives the connection back unless its [close]
    raises.  A connection that is not [_opened] goes to the tail of the
    queue as it is, and nothing is sent.  One that is [_opened] is closed
    first, with the [soft] of the caller, and the world is the one its
    [close] leaves.  If the [close] returns, what joins the tail of the queue
    is that very connection with its session key and its transaction flag
    cleared, and [_opened] cleared too unless the close is soft; every other
    field is as it was.  If the [close] raises, its fault is raised and the
    queue is as it was: the connection is lost to the pool. *)
Theorem close_connection_restores_unless_close_raises (E : Env) (conn : t)
    (soft : bool) (p : Pool.t) (w : World) :
  let back := Pool.close_connection E conn soft p w in
  match result back with
  | Ret _ =>
      exists conn',
        self_after back = Pool.set_pool (Pool.pool p ++ [conn']) p /\
        if _opened conn
        then conn' = set_in_transaction false
                       (set_session_key None
                          (if soft then conn else set_opened false conn)) /\
             result (close E soft conn w) = Ret tt /\
             world_after back = world_after (close E soft conn w)
        else conn' = conn /\ world_after back = w
  | Raise e =>
      self_after back = p /\ _opened conn = true /\
      result (close E soft conn w) = Raise e /\
      world_after back = world_after (close E soft conn w)
  end.
Proof.
  intros back. pose proof (close_connection_spec E conn soft p w) as H.
  apply wp_run in H. exact H.
Qed.

(** X24: A round trip through the pool.  An opened connection handed to
    [close_connection] with [soft] true, on an empty queue, is the one that
    the next [create_connection] returns, whatever overrides that call
    passes: it is on the same socket, [_opened], out of any transaction and
    holds the key of a new session; the queue is empty again.  The round trip
    costs two exchanges, the kill request and the new handshake: no socket is
    created and no connect is made. *)
Theorem pool_round_trip (E : Env) (kw : Pool.kwargs) (conn : t) (p : Pool.t)
    (w : World) (s : Sock) (key : Key) :
  Pool.pool p = [] ->
  _opened conn = true -> _conn conn = Some s ->
  kill_of (reply_at E (n_exchange w)) = inr tt ->
  handshake_of (reply_at E (S (n_exchange w))) = inr key ->
  let back := Pool.close_connection E conn true p w in
  let again := Pool.create_connection E kw (self_after back) (world_after back) in
  result back = Ret tt /\
  result again = Ret (set_session_key (Some key) (set_in_transaction false conn)) /\
  self_after again = p /\
  within {| sockets := 0; connects := 0; exchanges := 2; draws := 0;
            selects := 0; teardowns := 0 |} w (world_after again).
Proof.
  intros Hpool Ho Hs Hk Hh back again.
  set (conn1 := set_in_transaction false (set_session_key None conn)).
  set (w1 := tick_exchange
               (log (EvSend s (SessionRequest None None (graph_name conn)
                                 (Some (_session_key conn)) (Some true)))
                    (log (EvCall (Some s) (MClose true)) w))).
  assert (back = (Ret tt, Pool.set_pool [conn1] p, w1)) as Hback.
  { enough (wp (Pool.close_connection E conn true)
              (fun r p' w' => (r, p', w') = (Ret tt, Pool.set_pool [conn1] p, w1))
              p w) as Hwp.
    { unfold wp in Hwp. fold back in Hwp. by destruct back as [[??]?]. }
    unfold Pool.close_connection, Pool.put. rewrite Ho. wp_go.
    apply wp_call. eapply wp_mono; [by apply (close_answered E true conn w s)|].
    cbn beta. intros r c' w' (-> & -> & ->). wp_simpl. wp_go. by rewrite Hpool. }
  assert (again =
            (Ret (set_session_key (Some key) (set_in_transaction false conn)), p,
             tick_exchange
               (log (EvSend s (SessionRequest (Some (username conn))
                                 (Some (password conn)) (graph_name conn)
                                 None None))
                    (log (EvCall (Some s) (MOpen true)) w1)))) as Hagain.
  { unfold again. rewrite Hback. unfold self_after, world_after. cbn [fst snd].
    rewrite (create_connection_head E kw _ w1 conn1 []) by done.
    pose proof (open_soft_success E conn1 w1 s key Hs Hh) as Hopen.
    unfold wp in Hopen.
    replace (_opened conn1) with true by (symmetry; exact Ho).
    destruct (open E true conn1 w1) as [[r c2] w2].
    destruct Hopen as (-> & -> & ->).
    replace (Pool.set_pool [] (Pool.set_pool [conn1] p)) with p
      by (unfold Pool.set_pool; destruct p; cbn in *; by subst).
    replace (set_session_key (Some key)
               (set_opened true
                  (set_session_key None (set_in_transaction false conn1))))
      with (set_session_key (Some key) (set_in_transaction false conn))
      by (unfold conn1; destruct conn; cbn in Ho; by subst).
    reflexivity. }
  rewrite Hback, Hagain. repeat split; try done.
  all: unfold world_after, w1; cbn; lia.
Qed.

Lemma pool_round_trip_witness :
  let conn := (run_ops stale [OpOpen false] named world0).1 in
  let w := (run_ops stale [OpOpen false] named world0).2 in
  let back := Pool.close_connection stale conn true plain_pool w in
  let again := Pool.create_connection stale anonymous (self_after back)
                 (world_after back) in
  _session_key conn = Some "s1" /\
  result back = Ret tt /\
  result again = Ret (set_session_key (Some "s2") (set_in_transaction false conn)) /\
  self_after again = plain_pool /\
  within {| sockets := 0; connects := 0; exchanges := 2; draws := 0;
            selects := 0; teardowns := 0 |} w (world_after again).
Proof.
  intros conn w. split; [reflexivity|].
  apply (pool_round_trip stale anonymous conn plain_pool w 0 "s2").
  all: vm_compute; reflexivity.
Defined.

(** * The pool: the [connection] scope *)

Lemma create_connection_pool (E : Env) (kw : Pool.kwargs) (p : Pool.t) (w : World) :
  wp (Pool.create_connection E kw)
     (fun _ p' _ => p' = Pool.set_pool (tl (Pool.pool p)) p) p w.
Proof.
  unfold Pool.create_connection, Pool.get, Pool._create_connection.
  wp_go. destruct (Pool.pool p) as [|conn rest] eqn:Hpool; wp_go.
  - apply wp_CONN_CLASS. eapply wp_mono; [apply wp_any|]. cbn beta.
    intros [[]|e] c1 w1 _.
    + wp_go. apply wp_call. eapply wp_mono; [apply wp_any|]. cbn beta.
      intros [[]|e] c2 w2 _; wp_go; destruct p; unfold Pool.set_pool; cbn in *; by subst.
    + destruct p; unfold Pool.set_pool; cbn in *; by subst.
  - apply wp_call. eapply wp_mono; [apply wp_any|]. cbn beta.
    intros [[]|e] c2 w2 _; by wp_go.
Qed.

Lemma close_transaction_returns_idle (E : Env) (success : bool) (c : t) (w : World) :
  wp (close_transaction E success)
     (fun r c' _ => r = Ret tt -> _in_transaction c' = false) c w.
Proof.
  unfold close_transaction. wp_go.
  destruct (_in_transaction c); wp_simpl; [|by wp_go].
  apply wp_bind. eapply wp_mono; [apply wp_any|]. cbn beta.
  intros [?|?] c' w' _; by wp_go.
Qed.

Lemma transaction_returns_idle (E : Env) {A} (body : M t A) (c : t) (w : World) :
  wp (transaction E body)
     (fun r c' _ => (exists a, r = Ret a) -> _in_transaction c' = false) c w.
Proof.
  unfold transaction. apply wp_bind. eapply wp_mono; [apply wp_any|]. cbn beta.
  intros [[]|e] c1 w1 _; [|by intros [? [=]]].
  apply wp_bind. eapply wp_mono; [apply wp_any|]. cbn beta.
  intros [[]|e] c2 w2 _; [|by intros [? [=]]].
  apply wp_bind. eapply wp_mono; [apply wp_any|]. cbn beta.
  intros [a|e] c3 w3 _; [|by intros [? [=]]].
  apply wp_bind. eapply wp_mono; [apply close_transaction_returns_idle|].
  cbn beta. intros [[]|e] c4 w4 H; [|by intros [? [=]]].
  wp_go. intros _. by apply H.
Qed.

Lemma connection_unfold (E : Env) {A} (kw : Pool.kwargs) (body : M t A)
    (p : Pool.t) (w : World) :
  Pool.connection E kw body p w =
    match Pool.create_connection E kw p w with
    | (Raise e, p1, w1) => (Raise e, p1, w1)
    | (Ret conn, p1, w1) =>
        match transaction E body conn w1 with
        | (r, used, w2) =>
            match Pool.close_connection E used true p1 w2 with
            | (Ret _, p3, w3) => (r, p3, w3)
            | (Raise e, p3, w3) => (Raise e, p3, w3)
            end
        end
    end.
Proof.
  unfold Pool.connection, Pool.call, bind, ret, raise.
  destruct (Pool.create_connection E kw p w) as [[[conn|e] p1] w1]; [|done].
  destruct (transaction E body conn w1) as [[r used] w2]. cbn [fst snd].
  destruct (Pool.close_connection E used true p1 w2) as [[[[]|e] p3] w3]; [|done].
  by destruct r.
Qed.

(** X25: The [connection] scope and the queue.  The scope acquires a
    connection with [create_connection], which takes the head off the queue
    and reopens it, or builds a connection when the queue is empty; the rest
    of the queue is as it was.  If the acquisition raises, its fault leaves
    the scope and nothing joins the queue: a head whose [open] raised is
    lost to the pool.  Otherwise the body runs in a transaction on the
    connection acquired, and the connection as that run left it is given
    back.  If it is not [_opened] it joins the tail of the queue as it is.
    If it is [_opened] it is closed softly: when the [close] returns, it joins
    the tail with its session key and its transaction flag cleared; when the
    [close] raises, that fault leaves the scope in place of the outcome of
    the body and the connection is lost to the pool.  In every other case
    the outcome of the scope is that of the transaction.  Hence, when the
    scope returns, the connection at the tail of the queue is in no
    transaction. *)
Theorem connection_scope_accounts_for_pool (E : Env) {A} (kw : Pool.kwargs)
    (body : M t A) (p : Pool.t) (w : World) :
  let acq := Pool.create_connection E kw p w in
  let scope := Pool.connection E kw body p w in
  let rest := tl (Pool.pool p) in
  self_after acq = Pool.set_pool rest p /\
  match Pool.pool p with
  | head :: _ =>
      result acq = match result (open E (_opened head) head w) with
                   | Ret _ => Ret (self_after (open E (_opened head) head w))
                   | Raise e => Raise e
                   end
  | [] =>
      match Pool._create_connection E kw p w with
      | (Ret new_item, _, w1) =>
          result acq =
            match result (open E (_opened new_item) new_item w1) with
            | Ret _ => Ret (self_after (open E (_opened new_item) new_item w1))
            | Raise e => Raise e
            end
      | (Raise e, _, _) => result acq = Raise e
      end
  end /\
  match result acq with
  | Raise e => scope = (Raise e, Pool.set_pool rest p, world_after acq)
  | Ret conn =>
      let run := transaction E body conn (world_after acq) in
      let used := self_after run in
      if _opened used
      then
        let shut := close E true used (world_after run) in
        match result shut with
        | Ret _ =>
            scope =
              (result run,
               Pool.set_pool
                 (rest ++ [set_in_transaction false (set_session_key None used)]) p,
               world_after shut)
        | Raise e => scope = (Raise e, Pool.set_pool rest p, world_after shut)
        end
      else scope = (result run, Pool.set_pool (rest ++ [used]) p, world_after run)
  end /\
  match result scope with
  | Ret _ =>
      exists conn,
        Pool.pool (self_after scope) = rest ++ [conn] /\ _in_transaction conn = false
  | Raise _ => True
  end.
Proof.
  intros acq scope rest.
  pose proof (create_connection_pool E kw p w) as Hacq. apply wp_run in Hacq.
  fold acq in Hacq. fold rest in Hacq.
  split; [exact Hacq|]. split.
  { destruct (Pool.pool p) as [|head tail] eqn:Hpool.
    { unfold acq, Pool.create_connection, Pool.get, Pool.call, bind, get_self,
        ret, raise, result, self_after.
      rewrite Hpool.
      destruct (Pool._create_connection E kw p w) as [[[c|e] p1] w1]; [|done].
      cbn [fst snd].
      by destruct (open E (_opened c) c w1) as [[[[]|e] c'] w']. }
    unfold acq. rewrite (create_connection_head E kw p w head tail Hpool).
    unfold result, self_after.
    by destruct (open E (_opened head) head w) as [[[[]|e] c'] w']. }
  assert (forall q, Pool.set_pool q (Pool.set_pool rest p) = Pool.set_pool q p)
    as Hset by (intros q; by destruct p).
  assert (Pool.pool (Pool.set_pool rest p) = rest) as Hrest by (by destruct p).
  pose proof (connection_unfold E kw body p w) as Hscope.
  fold scope in Hscope. fold acq in Hscope.
  destruct acq as [[[conn|e] p1] w1]; unfold result, self_after, world_after in *;
    cbn [fst snd] in *; subst p1.
  2: { rewrite Hscope. done. }
  pose proof (transaction_returns_idle E body conn w1) as Hidle.
  apply wp_run in Hidle.
  unfold result, self_after, world_after in Hidle.
  destruct (transaction E body conn w1) as [[r used] w2]. cbn [fst snd] in *.
  pose proof (close_connection_spec E used true (Pool.set_pool rest p) w2) as Hback.
  apply wp_run in Hback. unfold result, self_after, world_after in Hback.
  destruct (Pool.close_connection E used true (Pool.set_pool rest p) w2)
    as [[rb p3] w3]. cbn [fst snd] in *.
  destruct rb as [[]|e].
  - destruct Hback as (conn' & -> & Hback). rewrite Hset, Hrest in *.
    destruct (_opened used) eqn:Ho.
    + destruct Hback as (-> & Hshut & ->).
      unfold result in Hshut.
      destruct (close E true used w2) as [[rs cs] ws]. cbn [fst snd] in *. subst rs.
      rewrite Hscope. split; [done|]. cbn [fst snd].
      destruct r; [|done]. eexists. split; [by destruct p|done].
    + destruct Hback as (-> & ->). rewrite Hscope. split; [done|]. cbn [fst snd].
      destruct r as [a|e]; [|done]. eexists. split; [by destruct p|].
      apply Hidle. by eexists.
  - destruct Hback as (-> & Ho & Hshut & ->). rewrite Ho.
    unfold result in Hshut.
    destruct (close E true used w2) as [[rs cs] ws]. cbn [fst snd] in *. subst rs.
    rewrite Hscope. done.
Qed.
